(** * Route creation for OpenRails: a shallow embedding of
      [routecreation/geometry.py], [routecreation/railgraphs.py] and
      [routecreation/openrails_data.py], and the properties of the
      specification checked against it.

    Conventions of the embedding.
    - Python [int] is [Z]; Python [float] is idealised as a real number [R]
      ([math.pi] is [PI], [math.sqrt] is [sqrt], ...).  A float division by
      zero, which raises [ZeroDivisionError] in Python, is an explicit error.
    - Python objects with identity ([Node], [Edge], [EdgeSegment],
      [SceneryObject]) carry an object identifier [oid]; a [dict] keyed by such
      objects is a [gmap oid _].
    - The code changes a [Vector] in place in three statements only, all on
      the position of a [SceneryObject] ([Edge.flip] and [contract_edges]);
      [SceneryObject.__init__] keeps the [Pose] it is given.  The vector of
      the position of a scenery object is therefore held by identity, in a
      store of vectors, and two objects built on one [Pose] share it.  The
      vectors of nodes and of segments are held by value: the code never
      changes them in place, and the model takes them to be no vector of a
      scenery object.
    - [str] is [string]; a character is a code point below 256. *)

From Stdlib Require Import ZArith List String Ascii Bool Lia.
From Stdlib Require Import Reals Lra RNsatz.
From Stdlib Require Import HexString DecimalString DecimalN.
From stdpp Require Import base option list gmap strings.

Local Open Scope Z_scope.

(** ** Python runtime: exceptions *)

Inductive exn : Type :=
| ZeroDivisionError
| ValueError
| AssertionError
| AttributeError
| IndexError
| TypeError
| KeyError
| Exception
(** not an exception of Python: a reference to an object that the store of
    the model does not hold *)
| Dangling.

Inductive result (A : Type) : Type :=
| Ok (a : A)
| Raise (e : exn).
Arguments Ok {A} a.
Arguments Raise {A} e.

(** Sequencing: an exception propagates.  With these instances the notation
    [x ← m; k] runs [m], binds its value to [x] and continues with [k]. *)
#[global] Instance result_bind : MBind result := fun A B k m =>
  match m with
  | Ok a => k a
  | Raise e => Raise e
  end.
#[global] Instance result_ret : MRet result := fun A a => Ok a.

(** Comparisons of floats, as decidable propositions. *)
#[global] Instance Rlt_decision (a b : R) : Decision (a < b)%R := Rlt_dec a b.
#[global] Instance Rle_decision (a b : R) : Decision (a <= b)%R := Rle_dec a b.
#[global] Instance Rgt_decision (a b : R) : Decision (a > b)%R := Rgt_dec a b.
#[global] Instance Rge_decision (a b : R) : Decision (a >= b)%R := Rge_dec a b.
#[global] Instance Req_decision : EqDecision R := Req_dec_T.

(** The identity of a Python object. *)
Abbreviation oid := positive.

(** ** [geometry.py] *)

Module Geometry.
Local Open Scope R_scope.

(** Float division [a / b]; Python raises on a zero divisor. *)
Definition fdiv (a b : R) : result R :=
  if Req_dec_T b 0 then Raise ZeroDivisionError else Ok (a / b).

(** Float remainder [a % m]: the result has the sign of [m]. *)
Definition fmod (a m : R) : R := a - IZR (Int_part (a / m)) * m.

(** [math.sqrt], [math.acos]: a [ValueError] outside the domain. *)
Definition py_sqrt (a : R) : result R :=
  if Rlt_dec a 0 then Raise ValueError else Ok (sqrt a).

Definition py_acos (a : R) : result R :=
  if Rlt_dec a (-1) then Raise ValueError
  else if Rlt_dec 1 a then Raise ValueError
  else Ok (acos a).

(** [math.atan2 y x], signed zeros apart. *)
Definition atan2 (y x : R) : R :=
  if Rlt_dec 0 x then atan (y / x)
  else if Rlt_dec x 0 then
    if Rle_dec 0 y then atan (y / x) + PI else atan (y / x) - PI
  else if Rlt_dec 0 y then PI / 2
  else if Rlt_dec y 0 then - (PI / 2)
  else 0.

(** *** class [Vector] *)
Module Vector.
Record t : Type := make { x : R; y : R }.

(** [__sub__], [__add__] *)
Definition sub (a b : t) : t := make (x a - x b) (y a - y b).
Definition add (a b : t) : t := make (x a + x b) (y a + y b).
(** [__mul__] and [__rmul__] with a [Vector]: dot product. *)
Definition dot (a b : t) : R := x a * x b + y a * y b.
(** [__mul__] and [__rmul__] with a number: scaling. *)
Definition scale (a : t) (k : R) : t := make (x a * k) (y a * k).
(** [__truediv__] *)
Definition div (a : t) (k : R) : result t :=
  vx ← fdiv (x a) k; vy ← fdiv (y a) k; Ok (make vx vy).
(** [__abs__] *)
Definition abs (a : t) : R := sqrt (x a ^ 2 + y a ^ 2).
Definition alpha (a : t) : R := atan2 (y a) (x a).
Definition ortho (a : t) : t := make (- y a) (x a).
Definition norm (a : t) : result t :=
  let length := abs a in
  vx ← fdiv (x a) length; vy ← fdiv (y a) length; Ok (make vx vy).
(** [__neg__] *)
Definition neg (a : t) : t := make (- x a) (- y a).
(** [__matmul__] *)
Definition matmul (a b : t) : R := x a * y b - y a * x b.
Definition copy (a : t) : t := make (x a) (y a).
End Vector.

Definition polar (alpha : R) (length : R) : Vector.t :=
  Vector.make (cos alpha * length) (sin alpha * length).

(** *** class [Pose] *)
Module Pose.
(** [raw] stores the fields; [make] is [__init__], which normalises the
    direction to [[0, 2 pi)]. *)
Record t : Type := raw { pos : Vector.t; direction : R }.

Definition make (pos : Vector.t) (direction : R) : t :=
  raw pos (fmod direction (2 * PI)).

Definition reverse (p : t) : t := make (pos p) (direction p + PI).
Definition copy (p : t) : t := make (Vector.copy (pos p)) (direction p).

(** [to_global] and [to_local] on a [Vector] ... *)
Definition to_global_vector (self : t) (p : Vector.t) : Vector.t :=
  let vx := polar (direction self) 1 in
  let vy := Vector.ortho vx in
  Vector.add (Vector.add (pos self) (Vector.scale vx (Vector.x p)))
             (Vector.scale vy (Vector.y p)).

Definition to_local_vector (self : t) (p : Vector.t) : Vector.t :=
  let vx := polar (direction self) 1 in
  let vy := Vector.ortho vx in
  let p := Vector.sub p (pos self) in
  Vector.make (Vector.dot p vx) (Vector.dot p vy).

(** ... and on a [Pose]. *)
Definition to_global (self other : t) : t :=
  make (to_global_vector self (pos other)) (direction self + direction other).

Definition to_local (self other : t) : t :=
  make (to_local_vector self (pos other)) (direction other - direction self).
End Pose.

(** [angle_between] takes directions, poses or vectors. *)
Inductive angle_arg : Type :=
| of_float (a : R)
| of_pose (p : Pose.t)
| of_vector (v : Vector.t).

Definition as_direction (a : angle_arg) : R :=
  match a with
  | of_float a => a
  | of_pose p => Pose.direction p
  | of_vector v => Vector.alpha v
  end.

Definition angle_between' (alpha beta : angle_arg) : R :=
  let alpha := as_direction alpha in
  let beta := as_direction beta in
  fmod (beta - alpha + PI) (2 * PI) - PI.

(** The call on two directions, which is the only one the graph code makes. *)
Definition angle_between (alpha beta : R) : R :=
  angle_between' (of_float alpha) (of_float beta).

(** *** [biarc_interpolation] *)

(** The result tuple.  The branch for parallel tangents with a perpendicular
    chord returns the two centres [c1], [c2] in the places of the radii. *)
Inductive biarc : Type :=
| Semicircles (c1 : Vector.t) (theta1 : R) (c2 : Vector.t) (theta2 : R)
| Arcs (r1 theta1 r2 theta2 : R).

Definition theta1 (b : biarc) : R :=
  match b with Semicircles _ th _ _ => th | Arcs _ th _ _ => th end.
Definition theta2 (b : biarc) : R :=
  match b with Semicircles _ _ _ th => th | Arcs _ _ _ th => th end.

(** The inner function [calculate_arc]; it closes over [pm] and [d]. *)
Definition calculate_arc (pm : Vector.t) (d : R) (p t_ : Vector.t)
  : result (R * R) :=
  let n := Vector.ortho t_ in
  s ← fdiv (Vector.dot (Vector.sub pm p) (Vector.sub pm p))
           (2 * Vector.dot n (Vector.sub pm p));
  let c := Vector.add p (Vector.scale n s) in
  let r := Rabs s in
  op ← Vector.div (Vector.sub p c) r;
  om ← Vector.div (Vector.sub pm c) r;
  theta ← py_acos (Vector.dot op om);
  let theta := if Rle_dec d 0 then theta - 2 * PI else theta in
  let theta := if Rle_dec (Vector.matmul op om) 0 then - theta else theta in
  Ok (r, theta).

(** The join point [pm] for a given [d]. *)
Definition join_point (p1 t1 p2 t2 : Vector.t) (d : R) : Vector.t :=
  Vector.scale (Vector.add (Vector.add p1 p2) (Vector.scale (Vector.sub t1 t2) d))
               0.5.

Definition biarc_interpolation (p1 t1 p2 t2 : Vector.t) : result biarc :=
  let v := Vector.sub p2 p1 in
  let t := Vector.add t1 t2 in
  let vt := Vector.dot v t in
  let denominator := 2 * (1 - Vector.dot t1 t2) in
  let arcs d :=
    let pm := join_point p1 t1 p2 t2 d in
    '(r1, theta1) ← calculate_arc pm d p1 t1;
    '(r2, theta2) ← calculate_arc pm d p2 t2;
    Ok (Arcs r1 theta1 r2 theta2) in
  if Req_dec_T denominator 0 then
    if Req_dec_T vt 0 then
      let c1 := Vector.add p1 (Vector.scale v 0.25) in
      let c2 := Vector.add p1 (Vector.scale v 0.75) in
      if Rlt_dec (Vector.matmul v t2) 0
      then Ok (Semicircles c1 PI c2 (- PI))
      else Ok (Semicircles c1 (- PI) c2 PI)
    else
      d ← fdiv (0.5 * Vector.dot v v) vt;
      arcs d
  else
    root ← py_sqrt (vt ^ 2 + 2 * (1 - Vector.dot t1 t2) * Vector.dot v v);
    d ← fdiv (- vt + root) denominator;
    arcs d.

(** *** Notions used to state properties of the bi-arc *)

(** The tangent [t_] turned counter-clockwise by [theta]. *)
Definition rotate (theta : R) (v : Vector.t) : Vector.t :=
  Vector.make (Vector.x v * cos theta - Vector.y v * sin theta)
              (Vector.x v * sin theta + Vector.y v * cos theta).

(** [t_] mirrored at the chord [w]: the tangent at the far end of a circular
    arc that leaves along [t_] and spans the chord [w]. *)
Definition mirrored (t_ w : Vector.t) : Vector.t :=
  Vector.sub (Vector.scale w (2 * Vector.dot t_ w / Vector.dot w w)) t_.

(** The equation that the join offset [d] solves: the control polygon
    [p1, p1 + d t1, p2 - d t2, p2] has a middle leg of length [2 d]. *)
Definition biarc_equation (v t1 t2 : Vector.t) (d : R) : Prop :=
  2 * (1 - Vector.dot t1 t2) * (d * d)
  + 2 * Vector.dot v (Vector.add t1 t2) * d - Vector.dot v v = 0.

(** Two directions are equal modulo [2 pi]. *)
Definition same_direction (a b : R) : Prop :=
  exists k : Z, a = b + 2 * IZR k * PI.

End Geometry.



(** ** [railgraphs.py] *)

Module Railgraphs.
Import Geometry.
Local Open Scope R_scope.

(** [class EdgeEnd(Enum)] *)
Inductive EdgeEnd : Type := SOURCE | TARGET.

Definition EdgeEnd_value (side : EdgeEnd) : Z :=
  match side with SOURCE => 1%Z | TARGET => 0%Z end.

#[global] Instance EdgeEnd_eq_dec : EqDecision EdgeEnd.
Proof. solve_decision. Defined.

(** *** class [EdgeSegment]

    A segment is owned by the one edge whose list holds it, so it is stored
    by value in that list; [id] is its identity, under which the writer
    indexes it. *)
Module EdgeSegment.
Record t : Type := make { id : oid; start : Pose.t; length : R; radius : R }.

Definition straight (self : t) : bool :=
  if Req_dec_T (radius self) 0 then true else false.

Definition center (self : t) : Vector.t :=
  let alpha := Pose.direction (start self) - 0.5 * PI in
  Vector.add (Pose.pos (start self)) (polar alpha (radius self)).

Definition travel (self : t) (s : R) : Pose.t :=
  if straight self then
    Pose.make (Vector.add (Pose.pos (start self))
                          (polar (Pose.direction (start self)) s))
              (Pose.direction (start self))
  else
    let center := center self in
    let angle := s / radius self in
    let beta := Pose.direction (start self) + 0.5 * PI - angle in
    Pose.make (Vector.add center (polar beta (radius self)))
              (Pose.direction (start self) - angle).

(** [end()]: the end pose, pointing towards the start. *)
Definition end_ (self : t) : Pose.t := Pose.reverse (travel self (length self)).

Definition flip (self : t) : t :=
  make (id self) (end_ self) (length self) (- radius self).

(** [to_global] on a [Pose]; [None] is Python's [None]. *)
Definition to_global (self : t) (other : Pose.t) (offset : R)
    (extend_before extend_after : bool) : option Pose.t :=
  let x := Vector.x (Pose.pos other) - offset in
  let y := Vector.y (Pose.pos other) in
  if bool_decide (x < 0) && negb extend_before then None
  else if bool_decide (x > length self) && negb extend_after then None
  else
    let q := travel self x in
    let vy := Vector.ortho (polar (Pose.direction q) 1) in
    let p := Vector.add (Pose.pos q) (Vector.scale vy y) in
    Some (Pose.make p (Pose.direction other + Pose.direction q)).
End EdgeSegment.

(** *** The objects of a graph and the store that holds them *)

(** [End]: an edge and a side.  Every edge owns exactly two [End] objects,
    [source_end] and [target_end]; the graph code only passes those around,
    so an [End] is identified with its pair. *)
Record End : Type := mkEnd { edge : oid; side : EdgeEnd }.

#[global] Instance End_eq_dec : EqDecision End.
Proof. solve_decision. Defined.

Definition source_end (e : oid) : End := mkEnd e SOURCE.
Definition target_end (e : oid) : End := mkEnd e TARGET.

Module Node.
Record t : Type := make {
  pose : Pose.t;
  incoming : list oid;
  outgoing : list oid;
  s : R;
  (** [self.graph] is the graph ([true]) or [None] *)
  graph : bool }.
End Node.

Module Edge.
Record t : Type := make {
  _source : option oid;
  _target : option oid;
  segments : list EdgeSegment.t;
  scenery_objects : list oid;
  graph : bool }.
End Edge.

(** *** class [SceneryObject]

    The code changes the position of a scenery object in place
    ([obj.pose.pos.x += e1.length()] in [contract_edges],
    [obj.pose.pos.x = ...] and [obj.pose.pos.y *= -1] in [Edge.flip]), and
    [SceneryObject.__init__] keeps the [Pose] it is given.  So the [Vector]
    of the position is an object of the store, held by identity: objects
    built on one [Pose], or on poses built on one [Vector], share it, and a
    change through one of them shows in all.  A [Pose] is never changed
    after [__init__] ([obj.pose = obj.pose.reverse()] binds a new one, on
    the same vector); what an object holds as [pose] is the identity of the
    vector and the direction.

    The vectors of the poses of nodes and segments are changed nowhere;
    these poses are held by value, on vectors of their own. *)
Module PoseRef.
Record t : Type := make { pos : oid; direction : R }.
End PoseRef.

Module SceneryObject.
Record t : Type := make {
  pose : PoseRef.t;
  object_type : option string;
  name : option string;
  relative_to : option oid;
  render : bool }.
End SceneryObject.

Module Graph.
Record t : Type := make {
  nodes : list oid;
  edges : list oid;
  scenery_objects : list oid }.
End Graph.

(** The store: the objects by identity, the position vectors of the
    scenery objects by identity, the one graph, and the next free identity. *)
Record State : Type := mkState {
  node_heap : gmap oid Node.t;
  edge_heap : gmap oid Edge.t;
  object_heap : gmap oid SceneryObject.t;
  vector_heap : gmap oid Vector.t;
  graph : Graph.t;
  next_oid : oid }.

(** A computation on the store that may raise. *)
Definition M (A : Type) : Type := State -> result (A * State).

#[global] Instance M_bind : MBind M := fun A B k m st =>
  match m st with
  | Ok (a, st') => k a st'
  | Raise e => Raise e
  end.
#[global] Instance M_ret : MRet M := fun A a st => Ok (a, st).

Definition raise {A : Type} (e : exn) : M A := fun _ => Raise e.
Definition get_state : M State := fun st => Ok (st, st).

Definition get_node (n : oid) : M Node.t := fun st =>
  match node_heap st !! n with
  | Some x => Ok (x, st)
  | None => Raise Dangling
  end.

Definition get_edge (e : oid) : M Edge.t := fun st =>
  match edge_heap st !! e with
  | Some x => Ok (x, st)
  | None => Raise Dangling
  end.

Definition get_object (o : oid) : M SceneryObject.t := fun st =>
  match object_heap st !! o with
  | Some x => Ok (x, st)
  | None => Raise Dangling
  end.

Definition put_node (n : oid) (x : Node.t) : M unit := fun st =>
  Ok (tt, mkState (<[n := x]> (node_heap st)) (edge_heap st) (object_heap st)
                  (vector_heap st) (graph st) (next_oid st)).

Definition put_edge (e : oid) (x : Edge.t) : M unit := fun st =>
  Ok (tt, mkState (node_heap st) (<[e := x]> (edge_heap st)) (object_heap st)
                  (vector_heap st) (graph st) (next_oid st)).

Definition put_object (o : oid) (x : SceneryObject.t) : M unit := fun st =>
  Ok (tt, mkState (node_heap st) (edge_heap st) (<[o := x]> (object_heap st))
                  (vector_heap st) (graph st) (next_oid st)).

Definition get_vector (v : oid) : M Vector.t := fun st =>
  match vector_heap st !! v with
  | Some x => Ok (x, st)
  | None => Raise Dangling
  end.

Definition put_vector (v : oid) (x : Vector.t) : M unit := fun st =>
  Ok (tt, mkState (node_heap st) (edge_heap st) (object_heap st)
                  (<[v := x]> (vector_heap st)) (graph st) (next_oid st)).

Definition put_graph (g : Graph.t) : M unit := fun st =>
  Ok (tt, mkState (node_heap st) (edge_heap st) (object_heap st) (vector_heap st)
                  g (next_oid st)).

(** The identity of a newly created object. *)
Definition fresh : M oid := fun st =>
  Ok (next_oid st,
      mkState (node_heap st) (edge_heap st) (object_heap st) (vector_heap st)
              (graph st) (Pos.succ (next_oid st))).

(** [for x in l: body x] *)
Fixpoint for_each {A : Type} (l : list A) (body : A -> M unit) : M unit :=
  match l with
  | [] => mret tt
  | x :: l => _ ← body x; for_each l body
  end.

(** [[f x for x in l]] *)
Fixpoint map_M {A B : Type} (f : A -> M B) (l : list A) : M (list B) :=
  match l with
  | [] => mret []
  | x :: l => y ← f x; ys ← map_M f l; mret (y :: ys)
  end.

(** [o and body o] for an optional object [o]. *)
Definition when_some {A : Type} (o : option A) (body : A -> M unit) : M unit :=
  match o with
  | Some a => body a
  | None => mret tt
  end.

(** [l.remove(x)]: drops the first occurrence, [ValueError] without one. *)
Fixpoint list_remove (x : oid) (l : list oid) : result (list oid) :=
  match l with
  | [] => Raise ValueError
  | y :: l => if decide (x = y) then Ok l
              else l' ← list_remove x l; Ok (y :: l')
  end.

Definition lift {A : Type} (r : result A) : M A := fun st =>
  match r with
  | Ok a => Ok (a, st)
  | Raise e => Raise e
  end.

(** In-place updates of the lists of a node. *)
Definition outgoing_remove (n e : oid) : M unit :=
  x ← get_node n;
  l ← lift (list_remove e (Node.outgoing x));
  put_node n (Node.make (Node.pose x) (Node.incoming x) l (Node.s x) (Node.graph x)).

Definition incoming_remove (n e : oid) : M unit :=
  x ← get_node n;
  l ← lift (list_remove e (Node.incoming x));
  put_node n (Node.make (Node.pose x) l (Node.outgoing x) (Node.s x) (Node.graph x)).

Definition outgoing_append (n e : oid) : M unit :=
  x ← get_node n;
  put_node n (Node.make (Node.pose x) (Node.incoming x) (Node.outgoing x ++ [e])
                        (Node.s x) (Node.graph x)).

Definition incoming_append (n e : oid) : M unit :=
  x ← get_node n;
  put_node n (Node.make (Node.pose x) (Node.incoming x ++ [e]) (Node.outgoing x)
                        (Node.s x) (Node.graph x)).

Definition set_node_pose (n : oid) (p : Pose.t) : M unit :=
  x ← get_node n;
  put_node n (Node.make p (Node.incoming x) (Node.outgoing x) (Node.s x)
                        (Node.graph x)).

Definition set_node_s (n : oid) (s : R) : M unit :=
  x ← get_node n;
  put_node n (Node.make (Node.pose x) (Node.incoming x) (Node.outgoing x) s
                        (Node.graph x)).

Definition set_segments (e : oid) (segs : list EdgeSegment.t) : M unit :=
  x ← get_edge e;
  put_edge e (Edge.make (Edge._source x) (Edge._target x) segs
                        (Edge.scenery_objects x) (Edge.graph x)).

Definition set_scenery_objects (e : oid) (objs : list oid) : M unit :=
  x ← get_edge e;
  put_edge e (Edge.make (Edge._source x) (Edge._target x) (Edge.segments x)
                        objs (Edge.graph x)).

Definition set_ends (e : oid) (source target : option oid) : M unit :=
  x ← get_edge e;
  put_edge e (Edge.make source target (Edge.segments x)
                        (Edge.scenery_objects x) (Edge.graph x)).

(** [Node.__init__] *)
Definition new_node (pose : Pose.t) (in_graph : bool) (s : R) : M oid :=
  n ← fresh;
  _ ← put_node n (Node.make pose [] [] s in_graph);
  st ← get_state;
  _ ← (if in_graph then
         put_graph (Graph.make (Graph.nodes (graph st) ++ [n])
                               (Graph.edges (graph st))
                               (Graph.scenery_objects (graph st)))
       else mret tt);
  mret n.

(** [Edge.__init__] with a source and no target, as [Node.add_edge] calls it:
    the edge joins the graph of its source. *)
Definition new_edge (source : oid) : M oid :=
  src ← get_node source;
  e ← fresh;
  _ ← put_edge e (Edge.make (Some source) None [] [] (Node.graph src));
  _ ← outgoing_append source e;
  st ← get_state;
  _ ← (if Node.graph src then
         put_graph (Graph.make (Graph.nodes (graph st))
                               (Graph.edges (graph st) ++ [e])
                               (Graph.scenery_objects (graph st)))
       else mret tt);
  mret e.

(** [EdgeSegment.__init__] *)
Definition new_segment (start : Pose.t) (length radius : R) : M EdgeSegment.t :=
  i ← fresh; mret (EdgeSegment.make i start length radius).

(** *** class [Edge] *)

Definition Edge_source (e : oid) : M (option oid) :=
  x ← get_edge e; mret (Edge._source x).

Definition Edge_target (e : oid) : M (option oid) :=
  x ← get_edge e; mret (Edge._target x).

(** Reading an attribute of [None] raises. *)
Definition not_none {A : Type} (o : option A) : M A :=
  match o with
  | Some a => mret a
  | None => raise AttributeError
  end.

(** [Edge.start()]: the start pose, pointing towards the target. *)
Definition Edge_start (e : oid) : M Pose.t :=
  x ← get_edge e;
  match Edge.segments x with
  | seg :: _ => mret (EdgeSegment.start seg)
  | [] =>
      src ← not_none (Edge._source x); tgt ← not_none (Edge._target x);
      a ← get_node src; b ← get_node tgt;
      let p := Pose.pos (Node.pose a) in
      let q := Pose.pos (Node.pose b) in
      mret (Pose.make p (Vector.alpha (Vector.sub q p)))
  end.

(** [Edge.end()]: the end pose, pointing towards the source. *)
Definition Edge_end (e : oid) : M Pose.t :=
  x ← get_edge e;
  match last (Edge.segments x) with
  | Some seg => mret (EdgeSegment.end_ seg)
  | None =>
      src ← not_none (Edge._source x); tgt ← not_none (Edge._target x);
      a ← get_node src; b ← get_node tgt;
      let p := Pose.pos (Node.pose b) in
      let q := Pose.pos (Node.pose a) in
      mret (Pose.make p (Vector.alpha (Vector.sub q p)))
  end.

(** [sum(segment.length for segment in segments)] *)
Definition sum_lengths (segs : list EdgeSegment.t) : R :=
  fold_left (fun acc seg => acc + EdgeSegment.length seg) segs 0.

Definition Edge_length (e : oid) : M R :=
  x ← get_edge e;
  match Edge.segments x with
  | _ :: _ => mret (sum_lengths (Edge.segments x))
  | [] =>
      src ← not_none (Edge._source x); tgt ← not_none (Edge._target x);
      a ← get_node src; b ← get_node tgt;
      mret (Vector.abs (Vector.sub (Pose.pos (Node.pose a))
                                   (Pose.pos (Node.pose b))))
  end.

Definition set_source (e : oid) (source : option oid) : M unit :=
  x ← get_edge e;
  if decide (source = Edge._source x) then mret tt
  else
    _ ← when_some (Edge._source x) (fun n => outgoing_remove n e);
    _ ← when_some source (fun n => outgoing_append n e);
    x ← get_edge e;
    set_ends e source (Edge._target x).

Definition set_target (e : oid) (target : option oid) : M unit :=
  x ← get_edge e;
  if decide (target = Edge._target x) then mret tt
  else
    _ ← when_some (Edge._target x) (fun n => incoming_remove n e);
    _ ← when_some target (fun n => incoming_append n e);
    x ← get_edge e;
    set_ends e (Edge._source x) target.

(** Reading [obj.pose]: the pose as a value, its vector looked up. *)
Definition read_pose (p : PoseRef.t) : M Pose.t :=
  v ← get_vector (PoseRef.pos p);
  mret (Pose.raw v (PoseRef.direction p)).

(** [pose.reverse()] on the pose of an object: a new [Pose] on the same
    vector. *)
Definition PoseRef_reverse (p : PoseRef.t) : PoseRef.t :=
  PoseRef.make (PoseRef.pos p) (fmod (PoseRef.direction p + PI) (2 * PI)).

Definition set_object_pose (obj : SceneryObject.t) (p : PoseRef.t)
  : SceneryObject.t :=
  SceneryObject.make p (SceneryObject.object_type obj) (SceneryObject.name obj)
                     (SceneryObject.relative_to obj) (SceneryObject.render obj).

(** The body of the last loop of [Edge.flip]: the pose is replaced by its
    reverse, then the vector of the position is changed in place, first
    [x], then [y]. *)
Definition flip_object (e : oid) (o : oid) : M unit :=
  obj ← get_object o;
  if decide (SceneryObject.relative_to obj = Some e) then
    let pose := PoseRef_reverse (SceneryObject.pose obj) in
    _ ← put_object o (set_object_pose obj pose);
    len ← Edge_length e;
    v ← get_vector (PoseRef.pos pose);
    _ ← put_vector (PoseRef.pos pose) (Vector.make (len - Vector.x v) (Vector.y v));
    v ← get_vector (PoseRef.pos pose);
    put_vector (PoseRef.pos pose) (Vector.make (Vector.x v) (Vector.y v * -1))
  else mret tt.

(** The segments of a reversed edge. *)
Definition flip_segments (segs : list EdgeSegment.t) : list EdgeSegment.t :=
  rev (map EdgeSegment.flip segs).

Definition Edge_flip (e : oid) : M unit :=
  x ← get_edge e;
  _ ← when_some (Edge._source x) (fun n => outgoing_remove n e);
  _ ← when_some (Edge._target x) (fun n => incoming_remove n e);
  _ ← set_ends e (Edge._target x) (Edge._source x);
  _ ← when_some (Edge._source x) (fun n => incoming_append n e);
  _ ← when_some (Edge._target x) (fun n => outgoing_append n e);
  _ ← set_segments e (flip_segments (Edge.segments x));
  for_each (Edge.scenery_objects x) (flip_object e).

(** The loop of [Edge.to_global] over the segments; [first] tells whether
    the head of [segs] is the first segment of the edge. *)
Fixpoint segments_to_global (segs : list EdgeSegment.t) (other : Pose.t)
    (offset : R) (extend_before extend_after : bool) (first : bool)
  : option Pose.t :=
  match segs with
  | [] => None
  | seg :: rest =>
      let is_last := match rest with [] => true | _ => false end in
      match EdgeSegment.to_global seg other offset
              (extend_before && first) (extend_after && is_last) with
      | Some transformed => Some transformed
      | None => segments_to_global rest other (offset + EdgeSegment.length seg)
                                   extend_before extend_after false
      end
  end.

(** [Edge.to_global] on a [Pose].  Without segments the method builds a
    temporary segment, drops what it computes and returns [None]. *)
Definition Edge_to_global (e : oid) (other : Pose.t) (offset : option R)
    (extend_before extend_after : bool) : M (option Pose.t) :=
  x ← get_edge e;
  offset ← match offset with
           | Some offset => mret offset
           | None => src ← not_none (Edge._source x);
                     a ← get_node src; mret (Node.s a)
           end;
  _ ← match Edge.segments x with
      | [] => _ ← Edge_start e; _ ← Edge_length e; mret tt
      | _ => mret tt
      end;
  mret (segments_to_global (Edge.segments x) other offset
                           extend_before extend_after true).

(** *** class [SceneryObject] *)

(** The property [global_pose]. *)
Definition global_pose (o : oid) : M (option Pose.t) :=
  obj ← get_object o;
  match SceneryObject.relative_to obj with
  | Some e => p ← read_pose (SceneryObject.pose obj);
              Edge_to_global e p (Some 0) true true
  | None => p ← read_pose (SceneryObject.pose obj); mret (Some p)
  end.

(** *** class [End] *)

Definition End_pose (self : End) : M Pose.t :=
  match side self with
  | SOURCE => Edge_start (edge self)
  | TARGET => Edge_end (edge self)
  end.

Definition End_node (self : End) : M (option oid) :=
  match side self with
  | SOURCE => Edge_source (edge self)
  | TARGET => Edge_target (edge self)
  end.

Definition End_radius (self : End) : M R :=
  x ← get_edge (edge self);
  match side self with
  | SOURCE => mret (match Edge.segments x with
                    | seg :: _ => EdgeSegment.radius seg
                    | [] => 0
                    end)
  | TARGET => mret (match last (Edge.segments x) with
                    | Some seg => - EdgeSegment.radius seg
                    | None => 0
                    end)
  end.

(** [radius and 1.0 / radius] *)
Definition End_curvature (self : End) : M R :=
  radius ← End_radius self;
  mret (if Req_dec_T radius 0 then radius else 1 / radius).

Definition other_end (self : End) : End :=
  match side self with
  | SOURCE => target_end (edge self)
  | TARGET => source_end (edge self)
  end.

(** *** class [Node] *)

Definition directions (n : oid) : M (list R) :=
  x ← get_node n;
  ins ← map_M (fun e => p ← Edge_end e; mret (Pose.direction p)) (Node.incoming x);
  outs ← map_M (fun e => p ← Edge_start e; mret (Pose.direction p)) (Node.outgoing x);
  mret (ins ++ outs).

(** [all(abs(angle_between(d_i, d)) > 0.66 * math.pi for d in others)] *)
Definition is_tip_direction (d_i : R) (others : list R) : bool :=
  forallb (fun d => bool_decide (Rabs (angle_between d_i d) > 0.66 * PI)) others.

(** The loop [for i in range(len(dirs))] of [calculate_direction] from index
    [i] on, [before] being [dirs[:i]] and [after] being [dirs[i:]]; it yields
    the first tip direction. *)
Fixpoint find_tip (before after : list R) : option R :=
  match after with
  | [] => None
  | d_i :: rest =>
      if is_tip_direction d_i (before ++ rest) then Some d_i
      else find_tip (before ++ [d_i]) rest
  end.

Definition calculate_direction (n : oid) : M bool :=
  dirs ← directions n;
  x ← get_node n;
  match dirs with
  | [d0] =>
      _ ← set_node_pose n (Pose.make (Pose.pos (Node.pose x)) d0); mret true
  | [d0; d1] =>
      if bool_decide (Rabs (angle_between d0 d1) <= 0.5 * PI) then mret false
      else
        _ ← set_node_pose n
              (Pose.make (Pose.pos (Node.pose x))
                         (d1 + angle_between d1 (d0 + PI) * 0.5));
        mret true
  | _ =>
      match find_tip [] dirs with
      | Some d =>
          _ ← set_node_pose n (Pose.make (Pose.pos (Node.pose x)) d); mret true
      | None => mret false
      end
  end.

Definition degree (n : oid) : M nat :=
  x ← get_node n;
  mret (List.length (Node.incoming x) + List.length (Node.outgoing x))%nat.

(** [list.sort(key=...)] on the list of keyed items: stable, ascending. *)
Fixpoint insert_by_key {A : Type} (x : R * A) (l : list (R * A)) : list (R * A) :=
  match l with
  | [] => [x]
  | y :: l => if Rlt_dec (fst x) (fst y) then x :: y :: l
              else y :: insert_by_key x l
  end.

Definition sort_by_key {A : Type} (l : list (R * A)) : list A :=
  map snd (fold_left (fun sorted x => insert_by_key x sorted) l []).

(** [Node.ends()]: all ends at the node, the one at the tip first.  The
    statement [ends[1:].sort(key=End.curvature)] sorts a copy of the tail and
    drops it: it only evaluates the curvatures. *)
Definition ends (n : oid) : M (list End) :=
  x ← get_node n;
  let ends := map target_end (Node.incoming x) ++ map source_end (Node.outgoing x) in
  keyed ← map_M (fun e => p ← End_pose e;
                          mret (Rabs (angle_between (Pose.direction (Node.pose x))
                                                    (Pose.direction p)), e)) ends;
  let ends := sort_by_key keyed in
  _ ← map_M End_curvature (tail ends);
  mret ends.

Definition connected_ends (n : oid) (e : End) : M (list End) :=
  ends ← ends n;
  if bool_decide (e ∈ ends) then
    match ends with
    | e0 :: rest => if decide (e = e0) then mret rest else mret [e0]
    | [] => mret []
    end
  else raise AssertionError.

(** [Node.add_edge] *)
Definition Node_add_edge (n : oid) (length radius : R) (backward : bool) : M End :=
  e ← new_edge n;
  x ← get_node n;
  let start_pose :=
    if xorb (bool_decide (length < 0)) backward then Pose.reverse (Node.pose x)
    else Node.pose x in
  segment ← new_segment start_pose (Rabs length) radius;
  ed ← get_edge e;
  _ ← set_segments e (Edge.segments ed ++ [segment]);
  let end_pose := EdgeSegment.end_ segment in
  target ← new_node (Pose.reverse end_pose) (Node.graph x) (Node.s x + length);
  _ ← set_target e (Some target);
  if bool_decide (length >= 0) then mret (target_end e)
  else _ ← Edge_flip e; mret (source_end e).

(** *** [End.add_edge] *)

Definition End_add_edge (self : End) (length radius : R) (extend_edge : bool)
  : M End :=
  if Req_dec_T length 0 then mret self
  else
    n ← (o ← End_node self; not_none o);
    deg ← degree n;
    if extend_edge && bool_decide (length >= 0) && bool_decide (deg = 1%nat) then
      p ← End_pose self;
      let start_pose := Pose.reverse p in
      segment ← new_segment start_pose length radius;
      let end_pose := EdgeSegment.end_ segment in
      x ← get_edge (edge self);
      nd ← get_node n;
      _ ← match side self with
          | TARGET =>
              _ ← set_segments (edge self) (Edge.segments x ++ [segment]);
              set_node_s n (Node.s nd + length)
          | SOURCE =>
              _ ← set_segments (edge self) (EdgeSegment.flip segment :: Edge.segments x);
              set_node_s n (Node.s nd - length)
          end;
      _ ← set_node_pose n (Pose.copy end_pose);
      mret self
    else
      connected ← connected_ends n self;
      next_end ←
        match connected with
        | _ :: _ =>
            p ← End_pose self;
            _ ← set_node_pose n (Pose.copy p);
            Node_add_edge n length radius true
        | [] =>
            p ← End_pose self;
            _ ← set_node_pose n (Pose.reverse p);
            Node_add_edge n length radius false
        end;
      match side self with
      | SOURCE => _ ← Edge_flip (edge next_end); mret (source_end (edge next_end))
      | TARGET => mret next_end
      end.

(** *** class [Graph] *)

Definition remove_edge (e : oid) : M unit :=
  _ ← set_source e None;
  _ ← set_target e None;
  st ← get_state;
  l ← lift (list_remove e (Graph.edges (graph st)));
  put_graph (Graph.make (Graph.nodes (graph st)) l
                        (Graph.scenery_objects (graph st))).

(** The body of the loop over [e2.scenery_objects] in [contract_edges];
    [obj.pose.pos.x += e1.length()] reads [x], then the length, and changes
    the vector of the position in place. *)
Definition reparent_object (e1 e2 : oid) (o : oid) : M unit :=
  obj ← get_object o;
  _ ← (if decide (SceneryObject.relative_to obj = Some e2) then
         _ ← put_object o (SceneryObject.make (SceneryObject.pose obj)
                             (SceneryObject.object_type obj) (SceneryObject.name obj)
                             (Some e1) (SceneryObject.render obj));
         v ← get_vector (PoseRef.pos (SceneryObject.pose obj));
         len ← Edge_length e1;
         put_vector (PoseRef.pos (SceneryObject.pose obj))
                    (Vector.make (Vector.x v + len) (Vector.y v))
       else mret tt);
  x1 ← get_edge e1;
  set_scenery_objects e1 (Edge.scenery_objects x1 ++ [o]).

(** What [contract_edges] returns: the removed nodes and edges, each with
    the edge it was merged into. *)
Abbreviation removed_map := (list (oid * oid)).

(** The body of the loop of [contract_edges] for one node.  The loop over
    [e2.scenery_objects] appends to [e1.scenery_objects]; the two lists are
    different lists, since [e1] and [e2] are different edges whenever the
    two assertions pass, so the loop runs over the objects that [e2] lists
    when it starts. *)
Definition contract_node (n : oid) (removed : removed_map) : M removed_map :=
  deg ← degree n;
  if bool_decide (deg = 2%nat) then
    x ← get_node n;
    match Node.incoming x ++ Node.outgoing x with
    | ea :: eb :: _ =>
        if decide (ea = eb) then mret removed
        else
          _ ← match Node.incoming x with
              | [_; e] => Edge_flip e
              | _ => mret tt
              end;
          x ← get_node n;
          _ ← match Node.outgoing x with
              | [_; e] => Edge_flip e
              | _ => mret tt
              end;
          x ← get_node n;
          match Node.incoming x, Node.outgoing x with
          | [e1], [e2] =>
              t2 ← Edge_target e2;
              _ ← set_target e1 t2;
              x2 ← get_edge e2;
              _ ← for_each (Edge.scenery_objects x2) (reparent_object e1 e2);
              _ ← set_scenery_objects e2 [];
              x1 ← get_edge e1;
              x2 ← get_edge e2;
              _ ← set_segments e1 (Edge.segments x1 ++ Edge.segments x2);
              _ ← remove_edge e2;
              st ← get_state;
              l ← lift (list_remove n (Graph.nodes (graph st)));
              _ ← put_graph (Graph.make l (Graph.edges (graph st))
                                        (Graph.scenery_objects (graph st)));
              mret (removed ++ [(n, e1); (e2, e1)])
          | _, _ => raise AssertionError
          end
    | _ => raise IndexError
    end
  else mret removed.

Fixpoint contract_nodes (l : list oid) (removed : removed_map) : M removed_map :=
  match l with
  | [] => mret removed
  | n :: l => removed ← contract_node n removed; contract_nodes l removed
  end.

(** [Graph.contract_edges]: the loop runs over a copy of [self.nodes]. *)
Definition contract_edges : M removed_map :=
  st ← get_state;
  contract_nodes (Graph.nodes (graph st)) [].

(** *** class [Path] and [find_shortest_path] *)

Module Path.
Record t : Type := make { ends : list End; start_offset : R; end_offset : R }.
End Path.

(** An entry [(s, cnt, end)] of the heap.  Tuples compare by [s], then by
    [cnt]; the counter never repeats, so two ends are never compared. *)
Definition entry : Type := R * Z * End.

Definition entry_lt (a b : entry) : bool :=
  let '(sa, ca, _) := a in
  let '(sb, cb, _) := b in
  if Rlt_dec sa sb then true
  else if Rlt_dec sb sa then false
  else (ca <? cb)%Z.

(** The heap, as the ascending sequence of its entries: [heappush] inserts,
    [heappop] takes the least entry. *)
Fixpoint heappush (heap : list entry) (x : entry) : list entry :=
  match heap with
  | [] => [x]
  | y :: heap' => if entry_lt x y then x :: heap else y :: heappush heap' x
  end.

(** The dictionary [predecessors], in insertion order. *)
Abbreviation pred_map := (list (End * option End)).

Definition pred_lookup (p : pred_map) (e : End) : option (option End) :=
  snd <$> List.find (fun kv => bool_decide (fst kv = e)) p.

(** The search state: the heap, the predecessors and the counter. *)
Definition search : Type := list entry * pred_map * Z.

(** The body of [for end in ...connected_ends(other_end)]. *)
Definition relax (s : R) (current_end : End) (sr : search) (e : End) : M search :=
  let '(heap, predecessors, cnt) := sr in
  match pred_lookup predecessors e with
  | Some _ => mret sr
  | None =>
      len ← Edge_length (edge e);
      mret (heappush heap (s + len, cnt, e),
            predecessors ++ [(e, Some current_end)], (cnt + 1)%Z)
  end.

Fixpoint relax_all (s : R) (current_end : End) (sr : search) (l : list End)
  : M search :=
  match l with
  | [] => mret sr
  | e :: l => sr ← relax s current_end sr e; relax_all s current_end sr l
  end.

(** The loop [while heap]; it yields the value of [current_end] when the
    loop is left and the predecessors.  [fuel] bounds the number of
    iterations; [None] when it does not suffice. *)
Fixpoint search_loop (fuel : nat) (end_node : oid) (current_end : option End)
    (sr : search) : M (option (option End * pred_map)) :=
  let '(heap, predecessors, cnt) := sr in
  match heap with
  | [] => mret (Some (current_end, predecessors))
  | (s, _, current_end) :: heap =>
      match fuel with
      | O => mret None
      | S fuel =>
          let other_end := other_end current_end in
          n ← End_node other_end;
          if decide (n = Some end_node)
          then mret (Some (Some current_end, predecessors))
          else
            n ← not_none n;
            connected ← connected_ends n other_end;
            sr ← relax_all s current_end (heap, predecessors, cnt) connected;
            search_loop fuel end_node (Some current_end) sr
      end
  end.

(** [predecessors[e] = v] *)
Fixpoint pred_set (p : pred_map) (e : End) (v : option End) : pred_map :=
  match p with
  | [] => [(e, v)]
  | kv :: p => if decide (fst kv = e) then (e, v) :: p else kv :: pred_set p e v
  end.

(** The loop over [start_ends]. *)
Fixpoint push_starts (l : list End) (sr : search) : M search :=
  match l with
  | [] => mret sr
  | e :: l =>
      let '(heap, predecessors, cnt) := sr in
      len ← Edge_length (edge e);
      push_starts l (heappush heap (len, cnt, e), pred_set predecessors e None,
                     (cnt + 1)%Z)
  end.

(** The loop [while current_end] that builds the path back to front;
    a missing key is a [KeyError]. *)
Fixpoint build_path (fuel : nat) (predecessors : pred_map)
    (current_end : option End) (pth : list End) : result (option (list End)) :=
  match current_end with
  | None => Ok (Some pth)
  | Some e =>
      match fuel with
      | O => Ok None
      | S fuel =>
          match pred_lookup predecessors e with
          | Some prev => build_path fuel predecessors prev (e :: pth)
          | None => Raise KeyError
          end
      end
  end.

(** The argument [start]: a node or an end. *)
Inductive start_arg : Type :=
| from_node (n : oid)
| from_end (e : End).

(** [find_shortest_path]; [None] when [fuel] iterations do not suffice for one
    of its two [while] loops. *)
Definition find_shortest_path (fuel : nat) (start : start_arg) (end_node : oid)
  : M (option Path.t) :=
  start_ends ← match start with
               | from_node n => ends n
               | from_end e => mret [e]
               end;
  sr ← push_starts start_ends ([], [], 0%Z);
  found ← search_loop fuel end_node None sr;
  match found with
  | None => mret None
  | Some (current_end, predecessors) =>
      pth ← lift (build_path fuel predecessors current_end []);
      mret ((fun ends => Path.make ends 0 0) <$> pth)
  end.

End Railgraphs.

(** ** [openrails_data.py] *)

(** *** Tile file names *)

Module TileNames.

(** The body of the loop [for i in range(15)] of [_tile_file_names]. *)
Definition interleave_step (x z : Z) (tile_idx : Z) (i : Z) : Z :=
  Z.lor tile_idx
    (Z.shiftl (Z.lor (Z.land x (Z.shiftl 1 i))
                     (Z.shiftl (Z.land z (Z.shiftl 1 i)) 1)) i).

(** Bit [n] of the term that the step adds for index [i]. *)
Definition pair_bit (x z : Z) (n i : Z) : bool :=
  (n =? 2 * i) && Z.testbit x i || (n =? 2 * i + 1) && Z.testbit z i.

(** [range(15)]. *)
Definition range15 : list Z := map Z.of_nat (seq 0 15).

(** The integer [tile_idx] that [_tile_file_names] formats into the name. *)
Definition tile_idx (tile_x tile_z : Z) : Z :=
  let x := tile_x + Z.shiftl 1 14 in
  let z := tile_z + Z.shiftl 1 14 in
  let x := Z.lxor x z in
  let x := Z.lnot x in
  let z := Z.lnot z in
  let tile_idx := fold_left (interleave_step x z) range15 0 in
  Z.shiftl tile_idx 2.

(** The hexadecimal digits of [abs n], lower case, as Python's [x]
    presentation type prints them. *)
Definition hex_digits (n : Z) : string :=
  match n with
  | Z0 => "0"
  | Zpos p => HexString.Raw.of_pos p ""
  | Zneg p => HexString.Raw.of_pos p ""
  end.

Fixpoint zeros (n : nat) : string :=
  match n with
  | O => ""
  | S n => String "0" (zeros n)
  end.

(** [f'{n:08x}']: sign first, then zero padding up to a total width of 8. *)
Definition format_08x (n : Z) : string :=
  let sign := if n <? 0 then "-" else "" in
  let digits := hex_digits n in
  sign +:+ zeros (8 - String.length sign - String.length digits) +:+ digits.

(** [os.path.join a b] on a POSIX system ([posixpath.join]): an absolute [b]
    replaces [a]; otherwise [b] is appended, after a separator unless [a] is
    empty or already ends with one. *)
Definition startswith_sep (b : string) : bool :=
  match b with
  | String c _ => Ascii.eqb c "/"
  | EmptyString => false
  end.

Definition endswith_sep (a : string) : bool :=
  match String.get (String.length a - 1) a with
  | Some c => Ascii.eqb c "/"
  | None => false
  end.

Definition path_join (a b : string) : string :=
  if startswith_sep b then b
  else if (String.length a =? 0)%nat || endswith_sep a then a +:+ b
  else a +:+ "/" +:+ b.

(** [ORWriter._tile_file_names]; [directory] is [self.directory]. *)
Definition _tile_file_names (directory : string) (tile_x tile_z : Z)
  : string * string :=
  let basename :=
    path_join (path_join directory "tiles")
              ("-" +:+ format_08x (tile_idx tile_x tile_z)) in
  (basename +:+ ".t", basename +:+ "_y.raw").

End TileNames.


(** *** class [STFOutput] *)

Module STFOutput.
Local Open Scope Z_scope.

(** [_file] is the text written so far, [None] before the file is opened. *)
Record t : Type := make {
  _path : string;
  _signature : string;
  _file : option string;
  _parentheses : Z }.

Definition code (c : ascii) : nat := nat_of_ascii c.

(** The characters at which [str.splitlines] ends a line, and those that
    [str.lstrip] drops. *)
Definition is_linebreak (c : ascii) : bool :=
  existsb (Nat.eqb (code c)) [10; 11; 12; 13; 28; 29; 30; 133]%nat.

Definition is_space (c : ascii) : bool :=
  existsb (Nat.eqb (code c))
          [9; 10; 11; 12; 13; 28; 29; 30; 31; 32; 133; 160]%nat.

(** [content.splitlines()]: [cur] is the line being read, reversed;
    [after_cr] tells that the last character was a carriage return, which
    forms one line end with a following line feed.  A last line without a
    line end counts when it is not empty. *)
Fixpoint splitlines_go (content cur : string) (after_cr : bool) : list string :=
  match content with
  | EmptyString =>
      match cur with
      | EmptyString => []
      | _ => [String.rev cur]
      end
  | String c rest =>
      if after_cr && (code c =? 10)%nat then splitlines_go rest cur false
      else if is_linebreak c then
        String.rev cur :: splitlines_go rest "" (code c =? 13)%nat
      else splitlines_go rest (String c cur) false
  end.

Definition splitlines (content : string) : list string :=
  splitlines_go content "" false.

Fixpoint lstrip (line : string) : string :=
  match line with
  | String c rest => if is_space c then lstrip rest else line
  | EmptyString => EmptyString
  end.

Definition startswith (line : string) (c : ascii) : bool :=
  match line with
  | String c' _ => Ascii.eqb c' c
  | EmptyString => false
  end.

(** [line.count(c)] *)
Fixpoint count (line : string) (c : ascii) : Z :=
  match line with
  | String c' rest => (if Ascii.eqb c' c then 1 else 0) + count rest c
  | EmptyString => 0
  end.

Definition tab : ascii := ascii_of_nat 9.
Definition newline : ascii := ascii_of_nat 10.

(** ['\t' * indent] *)
Definition tabs (indent : Z) : string :=
  Nat.iter (Z.to_nat indent) (String tab) "".

(** The loop of [write] over the lines.  It yields the text to write, or the
    failed assertion, together with the value of [_parentheses] reached. *)
Fixpoint write_lines (lines : list string) (parentheses : Z)
    (indented_lines : string) : result string * Z :=
  match lines with
  | [] => (Ok indented_lines, parentheses)
  | line :: lines =>
      let line := lstrip line in
      let indent := parentheses in
      let indent := if startswith line ")" then indent - 1 else indent in
      if indent <? 0 then (Raise AssertionError, parentheses)
      else
        write_lines lines
          (parentheses + (count line "(" - count line ")"))
          (indented_lines +:+ tabs indent +:+ line +:+ String newline "")
  end.

(** [write]: the outcome and the writer afterwards.  The counter keeps the
    value it reached when the assertion fails. *)
Definition write (self : t) (content : string) : result unit * t :=
  let '(r, parentheses) :=
    write_lines (splitlines content) (_parentheses self) "" in
  match r with
  | Raise e => (Raise e, make (_path self) (_signature self) (_file self) parentheses)
  | Ok indented_lines =>
      match _file self with
      | None => (Raise AttributeError,
                 make (_path self) (_signature self) None parentheses)
      | Some text =>
          (Ok tt, make (_path self) (_signature self)
                       (Some (text +:+ indented_lines)) parentheses)
      end
  end.

(** [close_parentheses]: every round writes one [")"] at a positive count
    and lowers it by one, so the loop makes [_parentheses] rounds. *)
Fixpoint close_rounds (rounds : nat) (self : t) : result unit * t :=
  match rounds with
  | O => (Ok tt, self)
  | S rounds =>
      match write self ")" with
      | (Ok _, self) => close_rounds rounds self
      | failed => failed
      end
  end.

Definition close_parentheses (self : t) : result unit * t :=
  close_rounds (Z.to_nat (_parentheses self)) self.

End STFOutput.

(** *** class [_Indexer] *)

Module Indexer.
Local Open Scope Z_scope.

(** A value of the free-form dictionary [attrs] of an object. *)
Inductive attr : Type :=
| AInt (n : Z)
| ATile (tile_x tile_z : Z)
| AStr (s : string)
| ABool (b : bool).

(** The [attrs] of all objects, by identity of the object. *)
Abbreviation attrs_store := (gmap oid (gmap string attr)).

(** [item.attrs[key] = value] *)
Definition set_attr (store : attrs_store) (item : oid) (key : string)
    (value : attr) : attrs_store :=
  <[item := <[key := value]> (default ∅ (store !! item))]> store.

(** [indices] is keyed by the identity of the registered object. *)
Record t : Type := make {
  key : string;
  next_index : Z;
  indices : gmap oid Z }.

(** [__init__]; the default of [first_index] is 1. *)
Definition init (key : string) (first_index : Z) : t := make key first_index ∅.

(** [get_or_add], also [__getitem__]: the index, the indexer and the
    attributes afterwards. *)
Definition get_or_add (self : t) (item : oid) (store : attrs_store)
  : Z * t * attrs_store :=
  match indices self !! item with
  | Some idx => (idx, self, store)
  | None =>
      let idx := next_index self in
      (idx,
       make (key self) (next_index self + 1) (<[item := idx]> (indices self)),
       set_attr store item (key self) (AInt idx))
  end.

(** [get_or_add] for the items of a list in turn, with the indices it
    returned; [register] is this loop without the indices. *)
Fixpoint get_or_add_all (self : t) (items : list oid) (store : attrs_store)
  : list Z * t * attrs_store :=
  match items with
  | [] => ([], self, store)
  | item :: items =>
      let '(idx, self, store) := get_or_add self item store in
      let '(idxs, self, store) := get_or_add_all self items store in
      (idx :: idxs, self, store)
  end.

Definition register (self : t) (items : list oid) (store : attrs_store)
  : t * attrs_store :=
  let '(_, self, store) := get_or_add_all self items store in (self, store).

(** [__len__], [__contains__] *)
Definition len (self : t) : nat := size (indices self).
Definition contains (self : t) (item : oid) : bool :=
  bool_decide (is_Some (indices self !! item)).

End Indexer.

(** *** class [ORWriter]: the section index *)

Module ORWriter.
Import Railgraphs.

Definition OR_SECTION_INDEX : string := "or_section_index".
Definition OR_TR_ITEM_ID : string := "or_tr_item_id".
Definition OR_TDB_INDEX : string := "or_tdb_index".

(** The three global indexers of a writer. *)
Record t : Type := make {
  _tdb_indices : Indexer.t;
  _tr_item_ids : Indexer.t;
  _section_indices : Indexer.t }.

(** The indexers as [__init__] creates them. *)
Definition init : t :=
  make (Indexer.init OR_TDB_INDEX 1) (Indexer.init OR_TR_ITEM_ID 0)
       (Indexer.init OR_SECTION_INDEX 40000).

(** [_get_section_index]: the path section index of a segment.  Looking the
    segment up in [_section_indices] registers it when it is new. *)
Definition _get_section_index (self : t) (segment : EdgeSegment.t)
    (store : Indexer.attrs_store) : Z * t * Indexer.attrs_store :=
  let '(idx, section_indices, store) :=
    Indexer.get_or_add (_section_indices self) (EdgeSegment.id segment) store in
  let self := make (_tdb_indices self) (_tr_item_ids self) section_indices in
  if bool_decide (EdgeSegment.radius segment <= 0)%R
  then (2 * idx - 40000, self, store)%Z
  else (2 * idx - 40000 + 1, self, store)%Z.

End ORWriter.

(** ** Graphs used as concrete inputs *)

Module Scenario.
Import Geometry Railgraphs.
Local Open Scope R_scope.

Definition origin : Vector.t := Vector.make 0 0.

(** A straight segment that leaves the origin in a given direction. *)
Definition ray (i : oid) (direction length : R) : EdgeSegment.t :=
  EdgeSegment.make i (Pose.make origin direction) length 0.

(** The far node of an edge with the one segment [seg]: its pose is the
    reversed end pose, as [Node.add_edge] sets it. *)
Definition far_node (e : oid) (seg : EdgeSegment.t) : Node.t :=
  Node.make (Pose.reverse (EdgeSegment.end_ seg)) [e] []
            (EdgeSegment.length seg) true.

Definition edge_of (source target : oid) (seg : EdgeSegment.t) : Edge.t :=
  Edge.make (Some source) (Some target) [seg] [] true.

(** A node (object 1) with three outgoing edges (2, 3, 4) that leave in the
    directions 0, 0.661 pi and 1.339 pi: the first is 118.98 degrees away
    from each of the other two. *)
Definition switch_119 : State :=
  let s2 := ray 8 0 10 in
  let s3 := ray 9 (0.661 * PI) 10 in
  let s4 := ray 10 (1.339 * PI) 10 in
  mkState
    (<[1 := Node.make (Pose.make origin 0) [] [2; 3; 4] 0 true]>
       (<[5 := far_node 2 s2]> (<[6 := far_node 3 s3]> (<[7 := far_node 4 s4]> ∅))))%positive
    (<[2 := edge_of 1 5 s2]> (<[3 := edge_of 1 6 s3]> (<[4 := edge_of 1 7 s4]> ∅)))%positive
    ∅ ∅
    (Graph.make [1; 5; 6; 7] [2; 3; 4] [])%positive
    11%positive.

(** Two nodes (objects 1 and 2) joined by one straight edge (object 4) of
    length 1200, and a third node (object 3) without any edge. *)
Definition edge_and_island : State :=
  let seg := ray 5 0 1200 in
  mkState
    (<[1 := Node.make (Pose.make origin 0) [] [4] 0 true]>
       (<[2 := far_node 4 seg]>
          (<[3 := Node.make (Pose.make (Vector.make 0 50) 0) [] [] 0 true]> ∅)))%positive
    (<[4 := edge_of 1 2 seg]> ∅)%positive
    ∅ ∅
    (Graph.make [1; 2; 3] [4] [])%positive
    6%positive.

(** Two routes from node 1 at the origin to node 2 at (100, 0): the edge 3,
    straight and 100 long, and the edge 4, which goes 50 up, 100 across and
    50 down, 200 in all. *)
Definition two_routes : State :=
  let direct := ray 5 0 100 in
  let up := ray 6 (PI / 2) 50 in
  let across := EdgeSegment.make 7 (Pose.make (Vector.make 0 50) 0) 100 0 in
  let down :=
    EdgeSegment.make 8 (Pose.make (Vector.make 100 50) (3 * PI / 2)) 50 0 in
  mkState
    (<[1 := Node.make (Pose.make origin 0) [] [3; 4] 0 true]>
       (<[2 := Node.make (Pose.make (Vector.make 100 0) PI) [3; 4] [] 100 true]> ∅))%positive
    (<[3 := Edge.make (Some 1) (Some 2) [direct] [] true]>
       (<[4 := Edge.make (Some 1) (Some 2) [up; across; down] [] true]> ∅))%positive
    ∅ ∅
    (Graph.make [1; 2] [3; 4] [])%positive
    9%positive.

(** Two routes of several edges from node 1 at the origin to node 2 at
    (100, 0).  The short one runs along the axis over node 3 at (60, 0):
    the edges 10 and 11, 60 and 40 long.  The long one goes 50 up to node 4,
    100 across to node 5 and 50 down: the edges 12, 13 and 14; the edge 13
    runs from node 5 to node 4, against the route. *)
Definition segment_from (i : oid) (x y direction length : R) : EdgeSegment.t :=
  EdgeSegment.make i (Pose.make (Vector.make x y) direction) length 0.

Definition node_at (x y : R) (incoming outgoing : list oid) : Node.t :=
  Node.make (Pose.make (Vector.make x y) 0) incoming outgoing 0 true.

Definition long_routes : State :=
  mkState
    (<[1 := node_at 0 0 [] [10; 12]]>
       (<[2 := node_at 100 0 [11; 14] []]>
          (<[3 := node_at 60 0 [10] [11]]>
             (<[4 := node_at 0 50 [12; 13] []]>
                (<[5 := node_at 100 50 [] [13; 14]]> ∅)))))%positive
    (<[10 := edge_of 1 3 (segment_from 20 0 0 0 60)]>
       (<[11 := edge_of 3 2 (segment_from 21 60 0 0 40)]>
          (<[12 := edge_of 1 4 (segment_from 22 0 0 (PI / 2) 50)]>
             (<[13 := edge_of 5 4 (segment_from 23 100 50 PI 100)]>
                (<[14 := edge_of 5 2 (segment_from 24 100 50 (3 * PI / 2) 50)]>
                   ∅)))))%positive
    ∅ ∅
    (Graph.make [1; 2; 3; 4; 5] [10; 11; 12; 13; 14] [])%positive
    25%positive.

(** A straight edge (object 4) of length 20 from node 1 to node 2, and from
    there a quarter circle of radius 10 to the right (edge 5) to node 3.
    The scenery object 7 lies on the curve, 1 after its start and 2 to the
    side; the scenery object 8 is attached to the straight edge and placed
    beyond its end, at 20 + 5 pi.  Both have the direction 0. *)
Definition line : EdgeSegment.t := ray 6 0 20.

Definition curve : EdgeSegment.t :=
  EdgeSegment.make 9 (Pose.make (Vector.make 20 0) 0) (5 * PI) 10.

(** The vectors of the positions of the objects 7 and 8 are the objects 10
    and 11 of the store. *)
Definition on_curve : Vector.t := Vector.make 1 2.

Definition beyond_line : Vector.t := Vector.make (20 + 5 * PI) 0.

Definition object_on (e : oid) (pos : oid) : SceneryObject.t :=
  SceneryObject.make (PoseRef.make pos 0) None None (Some e) true.

Definition bend : State :=
  mkState
    (<[1 := Node.make (Pose.make origin 0) [] [4] 0 true]>
       (<[2 := Node.make (Pose.reverse (EdgeSegment.end_ line)) [4] [5] 20 true]>
          (<[3 := far_node 5 curve]> ∅)))%positive
    (<[4 := Edge.make (Some 1) (Some 2) [line] [8] true]>
       (<[5 := Edge.make (Some 2) (Some 3) [curve] [7] true]> ∅))%positive
    (<[7 := object_on 5 10]> (<[8 := object_on 4 11]> ∅))%positive
    (<[10 := on_curve]> (<[11 := beyond_line]> ∅))%positive
    (Graph.make [1; 2; 3] [4; 5] [])%positive
    12%positive.

(** The store that [contract_edges] leaves for [bend]: node 2 and edge 5 are
    out of the graph and of every list, edge 4 runs from node 1 to node 3
    over both segments and lists both objects, and object 7 is relative to
    edge 4, its position moved on by the length of [line]. *)
Definition bend_contracted : State :=
  mkState
    (<[1 := Node.make (Pose.make origin 0) [] [4] 0 true]>
       (<[2 := Node.make (Pose.reverse (EdgeSegment.end_ line)) [] [] 20 true]>
          (<[3 := Node.make (Pose.reverse (EdgeSegment.end_ curve)) [4] []
                            (5 * PI) true]> ∅)))%positive
    (<[4 := Edge.make (Some 1) (Some 3) [line; curve] [8; 7] true]>
       (<[5 := Edge.make None None [curve] [] true]> ∅))%positive
    (<[7 := object_on 4 10]> (<[8 := object_on 4 11]> ∅))%positive
    (<[10 := Vector.make (1 + sum_lengths [line]) 2]>
       (<[11 := beyond_line]> ∅))%positive
    (Graph.make [1; 3] [4] [])%positive
    12%positive.

(** [bend] with both objects on the curve, built on one [Pose]: their
    positions are the one vector 10. *)
Definition bend_shared : State :=
  mkState
    (<[1 := Node.make (Pose.make origin 0) [] [4] 0 true]>
       (<[2 := Node.make (Pose.reverse (EdgeSegment.end_ line)) [4] [5] 20 true]>
          (<[3 := far_node 5 curve]> ∅)))%positive
    (<[4 := Edge.make (Some 1) (Some 2) [line] [] true]>
       (<[5 := Edge.make (Some 2) (Some 3) [curve] [7; 8] true]> ∅))%positive
    (<[7 := object_on 5 10]> (<[8 := object_on 5 10]> ∅))%positive
    (<[10 := on_curve]> ∅)%positive
    (Graph.make [1; 2; 3] [4; 5] [])%positive
    12%positive.

(** The store that [contract_edges] leaves for [bend_shared]: the one
    vector was moved on twice, once for each object. *)
Definition bend_shared_contracted : State :=
  mkState
    (<[1 := Node.make (Pose.make origin 0) [] [4] 0 true]>
       (<[2 := Node.make (Pose.reverse (EdgeSegment.end_ line)) [] [] 20 true]>
          (<[3 := Node.make (Pose.reverse (EdgeSegment.end_ curve)) [4] []
                            (5 * PI) true]> ∅)))%positive
    (<[4 := Edge.make (Some 1) (Some 3) [line; curve] [7; 8] true]>
       (<[5 := Edge.make None None [curve] [] true]> ∅))%positive
    (<[7 := object_on 4 10]> (<[8 := object_on 4 10]> ∅))%positive
    (<[10 := Vector.make (1 + sum_lengths [line] + sum_lengths [line]) 2]> ∅)%positive
    (Graph.make [1; 3] [4] [])%positive
    12%positive.

End Scenario.

(** ** Notions used to state the properties of contraction *)

Module Placement.
Import Geometry Railgraphs.
Local Open Scope R_scope.

(** The pose that [EdgeSegment.to_global] builds from the track pose [q]
    reached by [travel] and the local pose [other]. *)
Definition placed (q other : Pose.t) : Pose.t :=
  Pose.make
    (Vector.add (Pose.pos q)
       (Vector.scale (Vector.ortho (polar (Pose.direction q) 1))
                     (Vector.y (Pose.pos other))))
    (Pose.direction other + Pose.direction q).

(** The offset [x] along an edge lies strictly inside one of its segments:
    after the segments [before] and less than one segment further. *)
Definition inside (segs : list EdgeSegment.t) (x : R) : Prop :=
  exists before seg after,
    segs = before ++ seg :: after
    /\ sum_lengths before < x < sum_lengths before + EdgeSegment.length seg.

(** A scenery object as it is read: its fields, the pose with the vector
    of the position looked up. *)
Module Placed.
Record t : Type := make {
  pose : Pose.t;
  object_type : option string;
  name : option string;
  relative_to : option oid;
  render : bool }.
End Placed.

(** The object [obj] read with the vector [v] as its position. *)
Definition placed_as (obj : SceneryObject.t) (v : Vector.t) : Placed.t :=
  Placed.make (Pose.raw v (PoseRef.direction (SceneryObject.pose obj)))
              (SceneryObject.object_type obj) (SceneryObject.name obj)
              (SceneryObject.relative_to obj) (SceneryObject.render obj).

Definition read_object (vectors : gmap oid Vector.t) (obj : SceneryObject.t)
  : option Placed.t :=
  v ← vectors !! PoseRef.pos (SceneryObject.pose obj);
  Some (placed_as obj v).

(** What the global pose of an object depends on: the segments and the
    listed objects of every edge, the objects as they are read, and the
    vector that each object has its position in. *)
Record View : Type := mkView {
  v_edges : gmap oid (list EdgeSegment.t * list oid);
  v_objects : gmap oid Placed.t;
  v_cells : gmap oid oid }.

Definition view (st : State) : View :=
  mkView ((fun x => (Edge.segments x, Edge.scenery_objects x)) <$> edge_heap st)
         (omap (read_object (vector_heap st)) (object_heap st))
         ((fun obj => PoseRef.pos (SceneryObject.pose obj)) <$> object_heap st).



(** The pose of an object on an edge after the edge was reversed; [len] is
    the length of the edge. *)
Definition flipped_pose (len : R) (p : Pose.t) : Pose.t :=
  let r := Pose.reverse p in
  Pose.raw (Vector.make (len - Vector.x (Pose.pos r)) (Vector.y (Pose.pos r) * -1))
           (Pose.direction r).

(** The pose of an object of the absorbed edge after re-parenting. *)
Definition shifted_pose (len : R) (p : Pose.t) : Pose.t :=
  Pose.raw (Vector.make (Vector.x (Pose.pos p) + len) (Vector.y (Pose.pos p)))
           (Pose.direction p).

(** The edges and their objects fit together: every edge has segments, all
    of non-negative length, and lists each of its objects once; the objects
    that an edge lists are the objects relative to it. *)
Definition fit (v : View) : Prop :=
  (forall e segs objs, v_edges v !! e = Some (segs, objs) ->
     segs <> []
     /\ Forall (fun seg => 0 <= EdgeSegment.length seg) segs
     /\ NoDup objs
     /\ forall o, o ∈ objs ->
          exists obj, v_objects v !! o = Some obj
                      /\ Placed.relative_to obj = Some e)
  /\ (forall o obj e, v_objects v !! o = Some obj ->
        Placed.relative_to obj = Some e ->
        exists segs objs, v_edges v !! e = Some (segs, objs) /\ o ∈ objs).

Definition edges_fit (st : State) : Prop := fit (view st).

(** The object [o] is relative to an edge and lies strictly inside one of
    the segments of that edge. *)
Definition inside_in (v : View) (o : oid) : Prop :=
  exists obj e segs objs,
    v_objects v !! o = Some obj
    /\ Placed.relative_to obj = Some e
    /\ v_edges v !! e = Some (segs, objs)
    /\ inside segs (Vector.x (Pose.pos (Placed.pose obj))).

Definition inside_object (st : State) (o : oid) : Prop := inside_in (view st) o.







(** What [Edge.flip] of the edge [e] does to an object, and to the vector
    of the position of an object of the edge, [len] being the length of the
    edge. *)
Definition flip_obj (e : oid) (obj : SceneryObject.t) : SceneryObject.t :=
  if decide (SceneryObject.relative_to obj = Some e)
  then set_object_pose obj (PoseRef_reverse (SceneryObject.pose obj))
  else obj.

Definition mirror (len : R) (v : Vector.t) : Vector.t :=
  Vector.make (len - Vector.x v) (Vector.y v * -1).

(** The vectors of those of the listed objects that are relative to [e], in
    the order of the list. *)
Definition cells_on (e : oid) (objects : gmap oid SceneryObject.t)
    (objs : list oid) : list oid :=
  omap (fun o => obj ← objects !! o;
                 if decide (SceneryObject.relative_to obj = Some e)
                 then Some (PoseRef.pos (SceneryObject.pose obj)) else None)
       objs.

(** [keeps m]: running [m] does not change the view. *)
Definition keeps {A : Type} (m : M A) : Prop :=
  forall st a st', m st = Ok (a, st') -> view st' = view st.

(** The edges other than [e] in the two lists of the node [n]. *)
Definition others (e n : oid) (st : State) : option (list oid * list oid) :=
  (fun x => (filter (fun g => g <> e) (Node.incoming x),
             filter (fun g => g <> e) (Node.outgoing x))) <$> node_heap st !! n.

(** [keeps_others e m]: running [m] moves no edge but [e] in the lists of
    the nodes. *)
Definition keeps_others {A : Type} (e : oid) (m : M A) : Prop :=
  forall st a st', m st = Ok (a, st') -> forall n, others e n st' = others e n st.


End Placement.

(** ** [railgraphs.py]: local coordinates, travelling, paths *)

Module Tracks.
Import Geometry Railgraphs.
Local Open Scope R_scope.

(** *** [EdgeSegment.to_local] *)

(** The offset [y] from the arc and the [angle] from its start, as the
    branch for arcs computes them for the point [p]. *)
Definition arc_coordinates (self : EdgeSegment.t) (p : Vector.t) : R * R :=
  let c := EdgeSegment.center self in
  let d := Vector.abs (Vector.sub p c) in
  let start_direction := Pose.direction (EdgeSegment.start self) in
  if bool_decide (EdgeSegment.radius self > 0) then
    (d - EdgeSegment.radius self,
     fmod (start_direction + 0.5 * PI - Vector.alpha (Vector.sub p c)) (2 * PI))
  else
    (- EdgeSegment.radius self - d,
     fmod (Vector.alpha (Vector.sub p c) + 0.5 * PI - start_direction) (2 * PI)).

(** The last part of [to_local] on a [Vector]: the coordinates of [other] in
    the frame of the pose [q], moved on by [offset]. *)
Definition in_frame_vector (self : EdgeSegment.t) (q : Pose.t) (other : Vector.t)
    (offset : R) (extend_before extend_after : bool) : option Vector.t :=
  let other := Pose.to_local_vector q other in
  let x := Vector.x other in
  let other := Vector.make (x + offset) (Vector.y other) in
  if bool_decide (x < 0) && negb extend_before then None
  else if bool_decide (x > EdgeSegment.length self) && negb extend_after then None
  else Some other.

(** [to_local] on a [Vector]. *)
Definition to_local_vector (self : EdgeSegment.t) (other : Vector.t) (offset : R)
    (extend_before extend_after : bool) : option Vector.t :=
  if EdgeSegment.straight self then
    in_frame_vector self (EdgeSegment.start self) other offset
                    extend_before extend_after
  else
    let '(y, angle) := arc_coordinates self other in
    let s := angle * Rabs (EdgeSegment.radius self) in
    if bool_decide (s <= EdgeSegment.length self) then
      let x := offset + s in
      Some (Vector.make x y)
    else if bool_decide (angle >= PI + 0.5 * EdgeSegment.length self
                                        / Rabs (EdgeSegment.radius self)) then
      if negb extend_before then None
      else in_frame_vector self (EdgeSegment.start self) other offset
                           extend_before extend_after
    else
      if negb extend_after then None
      else in_frame_vector self (EdgeSegment.travel self (EdgeSegment.length self))
                           other (offset + EdgeSegment.length self)
                           extend_before extend_after.

(** The last part of [to_local] on a [Pose]. *)
Definition in_frame (self : EdgeSegment.t) (q : Pose.t) (other : Pose.t)
    (offset : R) (extend_before extend_after : bool) : option Pose.t :=
  let other := Pose.to_local q other in
  let x := Vector.x (Pose.pos other) in
  let other := Pose.make (Vector.make (x + offset) (Vector.y (Pose.pos other)))
                         (Pose.direction other) in
  if bool_decide (x < 0) && negb extend_before then None
  else if bool_decide (x > EdgeSegment.length self) && negb extend_after then None
  else Some other.

(** [to_local] on a [Pose]. *)
Definition to_local (self : EdgeSegment.t) (other : Pose.t) (offset : R)
    (extend_before extend_after : bool) : option Pose.t :=
  if EdgeSegment.straight self then
    in_frame self (EdgeSegment.start self) other offset extend_before extend_after
  else
    let '(y, angle) := arc_coordinates self (Pose.pos other) in
    let s := angle * Rabs (EdgeSegment.radius self) in
    if bool_decide (s <= EdgeSegment.length self) then
      let x := offset + s in
      let start_direction := Pose.direction (EdgeSegment.start self) in
      Some (Pose.make (Vector.make x y)
              (if bool_decide (EdgeSegment.radius self >= 0)
               then Pose.direction other - start_direction + angle
               else Pose.direction other - start_direction - angle))
    else if bool_decide (angle >= PI + 0.5 * EdgeSegment.length self
                                        / Rabs (EdgeSegment.radius self)) then
      if negb extend_before then None
      else in_frame self (EdgeSegment.start self) other offset
                    extend_before extend_after
    else
      if negb extend_after then None
      else in_frame self (EdgeSegment.travel self (EdgeSegment.length self))
                    other (offset + EdgeSegment.length self)
                    extend_before extend_after.

(** [EdgeSegment.to_global] on a [Vector]. *)
Definition to_global_vector (self : EdgeSegment.t) (other : Vector.t) (offset : R)
    (extend_before extend_after : bool) : option Vector.t :=
  let x := Vector.x other - offset in
  let y := Vector.y other in
  if bool_decide (x < 0) && negb extend_before then None
  else if bool_decide (x > EdgeSegment.length self) && negb extend_after then None
  else
    let q := EdgeSegment.travel self x in
    let vy := Vector.ortho (polar (Pose.direction q) 1) in
    Some (Vector.add (Pose.pos q) (Vector.scale vy y)).

(** *** [Edge.travel] *)

(** The loop of [Edge.travel] over [segments[:-1]], then the last segment. *)
Fixpoint segments_travel (segs : list EdgeSegment.t) (s : R) : option Pose.t :=
  match segs with
  | [] => None
  | [segment] => Some (EdgeSegment.travel segment s)
  | segment :: rest =>
      if bool_decide (s <= EdgeSegment.length segment)
      then Some (EdgeSegment.travel segment s)
      else segments_travel rest (s - EdgeSegment.length segment)
  end.

(** [Edge.travel]; without segments it reads [self.start()] three times. *)
Definition Edge_travel (e : oid) (s : R) : M Pose.t :=
  x ← get_edge e;
  match segments_travel (Edge.segments x) s with
  | Some p => mret p
  | None =>
      p ← Edge_start e;
      mret (Pose.make (Vector.add (Pose.pos p) (polar (Pose.direction p) s))
                      (Pose.direction p))
  end.

(** *** class [Path] *)

(** [Path.reverse]: the list is reversed in place, every end is replaced by
    the other end of its edge, and the two offsets change places. *)
Definition Path_reverse (p : Path.t) : Path.t :=
  Path.make (map other_end (rev (Path.ends p)))
            (Path.end_offset p) (Path.start_offset p).

(** [sum(...)] of floats: Python adds from the left, starting at 0. *)
Definition sum (l : list R) : R := fold_left Rplus l 0.

(** [Path.length] *)
Definition Path_length (p : Path.t) : M R :=
  lengths ← map_M (fun e => Edge_length (edge e)) (Path.ends p);
  mret (sum lengths - Path.start_offset p - Path.end_offset p).

(** [try: body finally: final].  When [body] raises, [final] still runs and
    the exception of [body] goes on unless [final] raises one itself; the
    store after an exception is not part of the model. *)
Definition try_finally {A : Type} (body : M A) (final : M unit) : M A :=
  a ← body; _ ← final; mret a.

(** [Path.to_global] on a [Pose].  The statement [offset += end.edge.length]
    adds a bound method to a float, which is a [TypeError]; it comes before
    the test of [transformed], so no round of the loop gets past it. *)
Definition Path_to_global (p : Path.t) (other : Pose.t) (offset : option R)
    (extend_before extend_after : bool) : M (option Pose.t) :=
  offset ← match offset with
           | Some offset => mret offset
           | None =>
               match Path.ends p with
               | e :: _ => n ← (o ← End_node e; not_none o);
                           x ← get_node n; mret (Node.s x)
               | [] => raise IndexError
               end
           end;
  let offset := offset - Path.start_offset p in
  match Path.ends p with
  | [] => mret None
  | e :: rest =>
      let flipped := bool_decide (side e = TARGET) in
      _ ← (if flipped then Edge_flip (edge e) else mret tt);
      transformed ←
        try_finally
          (Edge_to_global (edge e) other (Some offset) extend_before
             (extend_after && match rest with [] => true | _ => false end))
          (if flipped then Edge_flip (edge e) else mret tt);
      raise TypeError
  end.

End Tracks.

(** ** [openrails_data.py]: tiles, world coordinates and world files *)

Module World.
Import Geometry.

Definition TILE_SIZE : R := 2048.
Definition GROUND_LEVEL : R := 1.
Definition DEFAULT_START_TILE : Z * Z := (-5354, 14849).
Definition OR_TILE : string := "or_tile".
Definition OR_W_FILE_INDEX : string := "or_w_file_index".

(** [round(x)] on a float: the nearest integer, and the even one of the two
    when [x] lies half way between them. *)
Definition py_round (r : R) : Z :=
  let f := Int_part r in
  let d := (r - IZR f)%R in
  if Rlt_dec d (1 / 2) then f
  else if Rlt_dec (1 / 2) d then f + 1
  else if Z.even f then f else f + 1.

Definition pos2tile (pos : Vector.t) (start_tile : Z * Z) : Z * Z :=
  let '(x0, z0) := start_tile in
  (py_round (Vector.x pos / TILE_SIZE) + x0,
   py_round (Vector.y pos / TILE_SIZE) + z0).

(** [pos2world]; the argument [tile] is a tuple or [None]. *)
Definition pos2world (pos : Vector.t) (z : R) (tile : option (Z * Z))
    (start_tile : Z * Z) : Z * Z * R * R * R :=
  let y := (z + GROUND_LEVEL)%R in
  let '(tile_x, tile_z) :=
    match tile with
    | Some tile => tile
    | None => pos2tile pos start_tile
    end in
  let x := (Vector.x pos - IZR (tile_x - fst start_tile) * TILE_SIZE)%R in
  let z := (Vector.y pos - IZR (tile_z - snd start_tile) * TILE_SIZE)%R in
  (tile_x, tile_z, x, y, z).

(** *** class [_TileManager]

    A dictionary from tiles to indexers; a dictionary keeps its keys in the
    order in which they were first set, which is the order in which
    [tile_and_index] looks through them. *)
Module TileManager.

Record t : Type := make {
  items : list ((Z * Z) * Indexer.t);
  tile_x : Z;
  tile_z : Z }.

Definition init (tile_x tile_z : Z) : t := make [] tile_x tile_z.

(** [self.get(tile)] *)
Fixpoint get (l : list ((Z * Z) * Indexer.t)) (tile : Z * Z) : option Indexer.t :=
  match l with
  | [] => None
  | (k, v) :: l => if decide (k = tile) then Some v else get l tile
  end.

(** [self[tile] = v] *)
Fixpoint set (l : list ((Z * Z) * Indexer.t)) (tile : Z * Z) (v : Indexer.t)
  : list ((Z * Z) * Indexer.t) :=
  match l with
  | [] => [(tile, v)]
  | (k, w) :: l => if decide (k = tile) then (k, v) :: l else (k, w) :: set l tile v
  end.

(** The two nested loops of [register] over the surrounding tiles. *)
Definition surrounding (tile : Z * Z) : list (Z * Z) :=
  i ← [-1; 0; 1]; j ← [-1; 0; 1]; [(fst tile + i, snd tile + j)].

Definition add_tile (l : list ((Z * Z) * Indexer.t)) (tile : Z * Z)
  : list ((Z * Z) * Indexer.t) :=
  match get l tile with
  | Some _ => l
  | None => set l tile (Indexer.init OR_W_FILE_INDEX 1)
  end.

Definition pos2tile (self : t) (pos : Vector.t) : Z * Z :=
  World.pos2tile pos (tile_x self, tile_z self).

Definition pos2world (self : t) (pos : Vector.t) (z : R) (tile : option (Z * Z))
  : Z * Z * R * R * R :=
  World.pos2world pos z tile (tile_x self, tile_z self).

(** [register]: the indexer of the tile is changed in place, so the tile
    keeps its position among the keys.  The lookup [self[tile]] cannot fail,
    the tile being one of those just added. *)
Definition register (self : t) (item : oid) (pos : Vector.t)
    (store : Indexer.attrs_store) : t * Indexer.attrs_store :=
  let tile := pos2tile self pos in
  let l := fold_left add_tile (surrounding tile) (items self) in
  match get l tile with
  | Some indexer =>
      let '(indexer, store) := Indexer.register indexer [item] store in
      (make (set l tile indexer) (tile_x self) (tile_z self),
       Indexer.set_attr store item OR_TILE (Indexer.ATile (fst tile) (snd tile)))
  | None => (make l (tile_x self) (tile_z self), store)
  end.

(** [by_tile]: the indexer of the tile, or the shared empty one. *)
Definition by_tile (self : t) (tile_x tile_z : Z) : Indexer.t :=
  default (Indexer.init OR_W_FILE_INDEX 1) (get (items self) (tile_x, tile_z)).

(** [tile_and_index]: the first tile whose indexer holds the item, with
    the index there; [None] when the loop ends without one. *)
Fixpoint find_item (l : list ((Z * Z) * Indexer.t)) (item : oid)
  : option (Z * Z * Z) :=
  match l with
  | [] => None
  | (tile, indexer) :: l =>
      match Indexer.indices indexer !! item with
      | Some idx => Some (fst tile, snd tile, idx)
      | None => find_item l item
      end
  end.

Definition tile_and_index (self : t) (item : oid) : option (Z * Z * Z) :=
  find_item (items self) item.

End TileManager.

(** *** World file names *)

(** The decimal digits of [abs n]. *)
Definition digits (n : Z) : string :=
  DecimalString.NilZero.string_of_uint (N.to_uint (Z.abs_N n)).

(** [f'{n:+07}']: the sign, then zeros up to a total width of 7, then the
    digits. *)
Definition format_plus07 (n : Z) : string :=
  let sign := if n <? 0 then "-" else "+" in
  let d := digits n in
  sign +:+ TileNames.zeros (7 - 1 - String.length d) +:+ d.

(** [ORWriter.get_w_file_name] *)
Definition get_w_file_name (directory : string) (tile_x tile_z : Z) : string :=
  TileNames.path_join (TileNames.path_join directory "world")
    ("w" +:+ format_plus07 tile_x +:+ format_plus07 tile_z +:+ ".w").

(** *** Notions used to state properties of [STFOutput] *)

(** The lines that close [n] open parentheses, the innermost first. *)
Fixpoint closing_lines (n : nat) : string :=
  match n with
  | O => ""
  | S n => STFOutput.tabs (Z.of_nat n) +:+ ")" +:+ String STFOutput.newline ""
           +:+ closing_lines n
  end.

End World.

(** ** Notions used to state the properties of the search *)

Module Routes.
Import Geometry Railgraphs.
Local Open Scope R_scope.

(** The ends at a node, in the order in which [Node.ends] collects them
    before it sorts them. *)
Definition incident (x : Node.t) : list End :=
  map target_end (Node.incoming x) ++ map source_end (Node.outgoing x).

(** The edge of the end [e] has segments; the end [e] is at the node [a],
    the other end of the edge at the node [b]. *)
Definition leg (st : State) (a : oid) (e : End) (b : oid) : Prop :=
  exists x, edge_heap st !! edge e = Some x
    /\ Edge.segments x <> []
    /\ match side e with
       | SOURCE => Edge._source x = Some a /\ Edge._target x = Some b
       | TARGET => Edge._target x = Some a /\ Edge._source x = Some b
       end.

(** Exactly two ends meet at the node [n]: [back] and [ahead]. *)
Definition joint (st : State) (n : oid) (back ahead : End) : Prop :=
  exists x, node_heap st !! n = Some x /\ incident x ≡ₚ [back; ahead].

(** A route from the node [a] to the node [b]: the ends at which its edges
    are entered, in the order of travel.  Every edge has segments and leads
    from where the route has got to to the next node; at a node between two
    edges nothing else meets, and the node is not [b]. *)
Fixpoint route (st : State) (a : oid) (ends : list End) (b : oid) : Prop :=
  match ends with
  | [] => False
  | e :: rest =>
      match rest with
      | [] => leg st a e b
      | e' :: _ =>
          exists mid, mid <> b /\ leg st a e mid
                      /\ joint st mid (other_end e) e' /\ route st mid rest b
      end
  end.

(** The length of the edge of an end, and the total length of a route,
    summed from its start as the search sums it. *)
Definition leg_length (st : State) (e : End) : R :=
  match edge_heap st !! edge e with
  | Some x => sum_lengths (Edge.segments x)
  | None => 0
  end.

Definition route_length (st : State) (ends : list End) : R :=
  fold_left (fun acc e => acc + leg_length st e) ends 0.

(** The predecessors lead back along the ends [l]: the first has none, and
    every other has the one before it. *)
Definition linked (predecessors : pred_map) (l : list End) : Prop :=
  forall i e, l !! i = Some e ->
    pred_lookup predecessors e
    = Some (match i with O => None | S j => l !! j end).

End Routes.
(** * Tile file names *)

Import TileNames.
Local Open Scope Z_scope.

Section InterleaveBits.
Variables x z : Z.

Lemma pow2_bit (i m : Z) : 0 <= i -> Z.testbit (Z.shiftl 1 i) m = (m =? i).
Proof.
  intros Hi. rewrite Z.shiftl_1_l. destruct (Z.eqb_spec m i) as [->|Hne].
  - apply Z.pow2_bits_true; lia.
  - apply Z.pow2_bits_false; lia.
Qed.

Lemma term_bit (i n : Z) :
  0 <= i -> 0 <= n ->
  Z.testbit (Z.shiftl (Z.lor (Z.land x (Z.shiftl 1 i))
                             (Z.shiftl (Z.land z (Z.shiftl 1 i)) 1)) i) n
  = pair_bit x z n i.
Proof.
  intros Hi Hn. unfold pair_bit.
  rewrite Z.shiftl_spec by lia. rewrite Z.lor_spec, Z.land_spec.
  destruct (Z_lt_le_dec (n - i) 0) as [Hneg|Hpos].
  - rewrite !(Z.testbit_neg_r _ (n - i)) by lia.
    destruct (Z.eqb_spec n (2 * i)); [lia|].
    destruct (Z.eqb_spec n (2 * i + 1)); [lia|]. reflexivity.
  - rewrite pow2_bit by lia. rewrite Z.shiftl_spec by lia.
    rewrite Z.land_spec, pow2_bit by lia.
    destruct (Z.eqb_spec (n - i) i) as [E|E];
      destruct (Z.eqb_spec (n - i - 1) i) as [E1|E1];
      destruct (Z.eqb_spec n (2 * i)) as [E2|E2];
      destruct (Z.eqb_spec n (2 * i + 1)) as [E3|E3]; try lia;
      rewrite ?andb_false_r, ?andb_true_r, ?orb_false_r; simpl;
      try reflexivity.
    + now replace (n - i) with i by lia.
    + now replace (n - i - 1) with i by lia.
Qed.

Lemma fold_bit (l : list Z) (acc n : Z) :
  Forall (fun i => 0 <= i) l -> 0 <= n ->
  Z.testbit (fold_left (interleave_step x z) l acc) n
  = Z.testbit acc n || existsb (pair_bit x z n) l.
Proof.
  intros Hl Hn. revert acc. induction Hl as [|i l Hi Hl IH]; intros acc; simpl.
  - now rewrite orb_false_r.
  - rewrite IH. unfold interleave_step.
    rewrite Z.lor_spec, term_bit by lia. now rewrite orb_assoc.
Qed.
End InterleaveBits.

Lemma range15_nonneg : Forall (fun i => 0 <= i) range15.
Proof. unfold range15. simpl. repeat constructor; lia. Qed.

Lemma small_cases (i : Z) (P : Z -> Prop) :
  0 <= i < 15 ->
  P 0 -> P 1 -> P 2 -> P 3 -> P 4 -> P 5 -> P 6 -> P 7 -> P 8 -> P 9 ->
  P 10 -> P 11 -> P 12 -> P 13 -> P 14 -> P i.
Proof.
  intros Hi. intros.
  assert (i = 0 \/ i = 1 \/ i = 2 \/ i = 3 \/ i = 4 \/ i = 5 \/ i = 6 \/ i = 7
          \/ i = 8 \/ i = 9 \/ i = 10 \/ i = 11 \/ i = 12 \/ i = 13 \/ i = 14)
    as Hc by lia.
  repeat (destruct Hc as [->|Hc]; [assumption|]). now subst.
Qed.

Lemma pick_even (bx bz : Z -> bool) (i : Z) :
  0 <= i < 15 ->
  existsb (fun j => (2 * i =? 2 * j) && bx j || (2 * i =? 2 * j + 1) && bz j)
          range15 = bx i.
Proof.
  intros Hi. pattern i. apply small_cases; [exact Hi|..];
    vm_compute; match goal with |- context [bx ?k] => destruct (bx k) end;
    reflexivity.
Qed.

Lemma pick_odd (bx bz : Z -> bool) (i : Z) :
  0 <= i < 15 ->
  existsb (fun j => (2 * i + 1 =? 2 * j) && bx j
                    || (2 * i + 1 =? 2 * j + 1) && bz j)
          range15 = bz i.
Proof.
  intros Hi. pattern i. apply small_cases; [exact Hi|..];
    vm_compute; match goal with |- context [bz ?k] => destruct (bz k) end;
    reflexivity.
Qed.

(** Bits [2i+2] and [2i+3] of [tile_idx] are the complemented bit [i] of
    [x xor z] and of [z], where [x], [z] are the offset coordinates. *)
Lemma pair_bit_even (x z i : Z) :
  0 <= i < 15 -> existsb (pair_bit x z (2 * i)) range15 = Z.testbit x i.
Proof. intros Hi. now rewrite <- (pick_even (Z.testbit x) (Z.testbit z)). Qed.

Lemma pair_bit_odd (x z i : Z) :
  0 <= i < 15 -> existsb (pair_bit x z (2 * i + 1)) range15 = Z.testbit z i.
Proof. intros Hi. now rewrite <- (pick_odd (Z.testbit x) (Z.testbit z)). Qed.

Lemma tile_idx_bits (tile_x tile_z i : Z) :
  0 <= i < 15 ->
  Z.testbit (tile_idx tile_x tile_z) (2 * i + 2)
  = negb (xorb (Z.testbit (tile_x + 16384) i) (Z.testbit (tile_z + 16384) i))
  /\ Z.testbit (tile_idx tile_x tile_z) (2 * i + 3)
     = negb (Z.testbit (tile_z + 16384) i).
Proof.
  intros Hi. unfold tile_idx. change (Z.shiftl 1 14) with 16384.
  rewrite !Z.shiftl_spec by lia.
  rewrite !fold_bit by (auto using range15_nonneg; lia).
  rewrite !Z.bits_0, !orb_false_l. split.
  - replace (2 * i + 2 - 2) with (2 * i) by lia.
    rewrite pair_bit_even by lia.
    rewrite Z.lnot_spec, Z.lxor_spec by lia. reflexivity.
  - replace (2 * i + 3 - 2) with (2 * i + 1) by lia.
    rewrite pair_bit_odd by lia.
    rewrite Z.lnot_spec by lia. reflexivity.
Qed.

Lemma low15_bits_eq (a b : Z) :
  0 <= a < 32768 -> 0 <= b < 32768 ->
  (forall i, 0 <= i < 15 -> Z.testbit a i = Z.testbit b i) -> a = b.
Proof.
  intros Ha Hb Hbits.
  rewrite <- (Z.mod_small a (2 ^ 15)), <- (Z.mod_small b (2 ^ 15)) by (change (2 ^ 15) with 32768; lia).
  apply Z.bits_inj'. intros n Hn.
  rewrite !Z.testbit_mod_pow2 by lia.
  destruct (Z.ltb_spec n 15); [|reflexivity]. simpl. apply Hbits. lia.
Qed.

Lemma tile_idx_inj (x1 z1 x2 z2 : Z) :
  - 2 ^ 14 <= x1 < 2 ^ 14 -> - 2 ^ 14 <= z1 < 2 ^ 14 ->
  - 2 ^ 14 <= x2 < 2 ^ 14 -> - 2 ^ 14 <= z2 < 2 ^ 14 ->
  tile_idx x1 z1 = tile_idx x2 z2 -> x1 = x2 /\ z1 = z2.
Proof.
  change (2 ^ 14) with 16384. intros Hx1 Hz1 Hx2 Hz2 Heq.
  assert (Hz : forall i, 0 <= i < 15 ->
             Z.testbit (z1 + 16384) i = Z.testbit (z2 + 16384) i).
  { intros i Hi. destruct (tile_idx_bits x1 z1 i Hi) as [_ H1].
    destruct (tile_idx_bits x2 z2 i Hi) as [_ H2]. rewrite Heq in H1.
    rewrite H1 in H2.
    destruct (Z.testbit (z1 + 16384) i), (Z.testbit (z2 + 16384) i);
      simpl in H2; congruence. }
  assert (Hx : forall i, 0 <= i < 15 ->
             Z.testbit (x1 + 16384) i = Z.testbit (x2 + 16384) i).
  { intros i Hi. destruct (tile_idx_bits x1 z1 i Hi) as [H1 _].
    destruct (tile_idx_bits x2 z2 i Hi) as [H2 _]. rewrite Heq in H1.
    rewrite H1 in H2. rewrite (Hz i Hi) in H2.
    destruct (Z.testbit (x1 + 16384) i), (Z.testbit (x2 + 16384) i),
      (Z.testbit (z2 + 16384) i); simpl in H2; congruence. }
  apply low15_bits_eq in Hz; [|lia..]. apply low15_bits_eq in Hx; [|lia..]. lia.
Qed.

(** *** The formatted name *)

Lemma string_length_app (a b : string) :
  String.length (a +:+ b) = (String.length a + String.length b)%nat.
Proof. induction a as [|c a IH]; simpl; [reflexivity|now rewrite IH]. Qed.

Lemma string_app_inj_r (s a b : string) : a +:+ s = b +:+ s -> a = b.
Proof.
  revert b. induction a as [|c a IH]; intros [|d b] H; simpl in H.
  - reflexivity.
  - apply (f_equal String.length) in H.
    rewrite !string_length_app in H. simpl in H. lia.
  - apply (f_equal String.length) in H.
    rewrite !string_length_app in H. simpl in H. lia.
  - injection H as -> H. f_equal. now apply IH.
Qed.

Lemma to_N_zeros (k : nat) (d : string) :
  HexString.Raw.to_N (zeros k +:+ d) 0%N = HexString.Raw.to_N d 0%N.
Proof. induction k as [|k IH]; simpl; [reflexivity|exact IH]. Qed.

Lemma to_N_format_08x (n : Z) :
  0 <= n -> HexString.Raw.to_N (format_08x n) 0%N = Z.to_N n.
Proof.
  intros Hn. unfold format_08x. destruct (Z.ltb_spec n 0) as [|_]; [lia|].
  change ("" +:+ ?s) with s. rewrite to_N_zeros.
  destruct n as [|p|p]; [reflexivity| |lia].
  simpl. now rewrite HexString.Raw.to_N_of_pos.
Qed.

Lemma format_08x_inj (n m : Z) :
  0 <= n -> 0 <= m -> format_08x n = format_08x m -> n = m.
Proof.
  intros Hn Hm H. apply (f_equal (fun s => HexString.Raw.to_N s 0%N)) in H.
  rewrite !to_N_format_08x in H by assumption. lia.
Qed.

Lemma tile_idx_nonneg (tile_x tile_z : Z) : 0 <= tile_idx tile_x tile_z.
Proof.
  unfold tile_idx. apply Z.shiftl_nonneg.
  generalize (Z.lnot (Z.lxor (tile_x + Z.shiftl 1 14) (tile_z + Z.shiftl 1 14))).
  generalize (Z.lnot (tile_z + Z.shiftl 1 14)). intros z x.
  assert (H : forall l acc, 0 <= acc -> Forall (fun i => 0 <= i) l ->
                            0 <= fold_left (interleave_step x z) l acc).
  { induction l as [|i l IH]; intros acc Hacc Hl; simpl; [assumption|].
    inversion Hl; subst. apply IH; [|assumption].
    unfold interleave_step. apply Z.lor_nonneg. split; [assumption|].
    apply Z.shiftl_nonneg. apply Z.lor_nonneg. split.
    - apply Z.land_nonneg. right. apply Z.shiftl_nonneg. lia.
    - apply Z.shiftl_nonneg. apply Z.land_nonneg. right. apply Z.shiftl_nonneg. lia. }
  apply H; [lia|apply range15_nonneg].
Qed.

Lemma path_join_inj (a b b' : string) :
  startswith_sep b = false -> startswith_sep b' = false ->
  path_join a b = path_join a b' -> b = b'.
Proof.
  unfold path_join. intros -> ->.
  destruct ((String.length a =? 0)%nat || endswith_sep a); intros H.
  - now apply String.app_inj in H.
  - apply String.app_inj in H. now apply String.app_inj in H.
Qed.

Lemma tile_file_names_inj (directory : string) (x1 z1 x2 z2 : Z) :
  fst (_tile_file_names directory x1 z1) = fst (_tile_file_names directory x2 z2)
  \/ snd (_tile_file_names directory x1 z1)
     = snd (_tile_file_names directory x2 z2) ->
  tile_idx x1 z1 = tile_idx x2 z2.
Proof.
  unfold _tile_file_names. simpl fst. simpl snd.
  intros [H|H]; apply string_app_inj_r in H;
    apply path_join_inj in H; try reflexivity;
    apply String.app_inj in H;
    apply format_08x_inj in H; auto using tile_idx_nonneg.
Qed.

(** C10. The tile-filename encoding is injective on the coordinate range
    [-2^14, 2^14): two distinct tiles get distinct indices [tile_idx], hence
    distinct [.t] and distinct [_y.raw] file names in one route directory. *)
Theorem tile_file_names_injective (directory : string) (x1 z1 x2 z2 : Z) :
  - 2 ^ 14 <= x1 < 2 ^ 14 -> - 2 ^ 14 <= z1 < 2 ^ 14 ->
  - 2 ^ 14 <= x2 < 2 ^ 14 -> - 2 ^ 14 <= z2 < 2 ^ 14 ->
  (x1, z1) <> (x2, z2) ->
  tile_idx x1 z1 <> tile_idx x2 z2
  /\ fst (_tile_file_names directory x1 z1)
     <> fst (_tile_file_names directory x2 z2)
  /\ snd (_tile_file_names directory x1 z1)
     <> snd (_tile_file_names directory x2 z2).
Proof.
  intros Hx1 Hz1 Hx2 Hz2 Hne.
  assert (Hidx : tile_idx x1 z1 <> tile_idx x2 z2).
  { intros Heq. apply tile_idx_inj in Heq as [-> ->]; auto. }
  repeat split; [exact Hidx|..]; intros H; apply Hidx;
    apply (tile_file_names_inj directory); auto.
Qed.

Lemma tile_file_names_injective_witness :
  TileNames.tile_idx (-5354) 14849 <> TileNames.tile_idx (-5353) 14849
  /\ fst (_tile_file_names "route" (-5354) 14849)
     <> fst (_tile_file_names "route" (-5353) 14849)
  /\ snd (_tile_file_names "route" (-5354) 14849)
     <> snd (_tile_file_names "route" (-5353) 14849).
Proof.
  apply (tile_file_names_injective "route" (-5354) 14849 (-5353) 14849);
    try (vm_compute; split; congruence).
  intros H. inversion H.
Defined.
(** * Bi-arc interpolation *)

Section Biarc.
Import Geometry.
Local Open Scope R_scope.

(** Inversion of the error monad. *)
Lemma bind_Ok {A B : Type} (m : result A) (k : A -> result B) (b : B) :
  (m ≫= k) = Ok b -> exists a, m = Ok a /\ k a = Ok b.
Proof. destruct m as [a|e]; simpl; intros H; [eauto|discriminate]. Qed.

Lemma fdiv_Ok (a b q : R) : fdiv a b = Ok q -> b <> 0 /\ q = a / b.
Proof. unfold fdiv. destruct (Req_dec_T b 0); intros H; inversion H; auto. Qed.

Lemma fdiv_nonzero (a b : R) : b <> 0 -> fdiv a b = Ok (a / b).
Proof. unfold fdiv. destruct (Req_dec_T b 0); intros; [contradiction|reflexivity]. Qed.

Lemma py_sqrt_Ok (a q : R) : py_sqrt a = Ok q -> 0 <= a /\ q = sqrt a.
Proof. unfold py_sqrt. destruct (Rlt_dec a 0); intros H; inversion H; split; auto; lra. Qed.

Lemma py_acos_Ok (a q : R) : py_acos a = Ok q -> -1 <= a <= 1 /\ q = acos a.
Proof.
  unfold py_acos. destruct (Rlt_dec a (-1)); [discriminate|].
  destruct (Rlt_dec 1 a); [discriminate|]. intros H; inversion H. split; auto; lra.
Qed.

Lemma Vector_div_Ok (v q : Vector.t) (k : R) :
  Vector.div v k = Ok q ->
  k <> 0 /\ q = Vector.make (Vector.x v / k) (Vector.y v / k).
Proof.
  unfold Vector.div. intros H.
  apply bind_Ok in H as (vx & Hx & H). apply bind_Ok in H as (vy & Hy & H).
  apply fdiv_Ok in Hx as [Hk ->]. apply fdiv_Ok in Hy as [_ ->].
  inversion H. auto.
Qed.

Lemma unit_sqr (t : Vector.t) :
  Vector.abs t = 1 -> Vector.x t * Vector.x t + Vector.y t * Vector.y t = 1.
Proof.
  unfold Vector.abs. intros H.
  assert (Hs : 0 <= Vector.x t ^ 2 + Vector.y t ^ 2) by nra.
  pose proof (sqrt_sqrt _ Hs) as E. rewrite H in E. lra.
Qed.

Lemma abs_unit (x y : R) : x * x + y * y = 1 -> Vector.abs (Vector.make x y) = 1.
Proof.
  intros H. unfold Vector.abs. cbn [Vector.x Vector.y].
  replace (x ^ 2 + y ^ 2) with 1 by (rewrite <- H; ring). apply sqrt_1.
Qed.

(** The angle computed by [calculate_arc] has the cosine [C] and the sine [S]
    of the turn from [op] to [om]. *)
Lemma adjusted_acos (C S d : R) :
  C * C + S * S = 1 ->
  let theta := acos C in
  let theta := if Rle_dec d 0 then theta - 2 * PI else theta in
  let theta := if Rle_dec S 0 then - theta else theta in
  cos theta = C /\ sin theta = S.
Proof.
  intros H.
  assert (HC : -1 <= C <= 1) by nra.
  assert (Hsin : sin (acos C) = Rabs S).
  { rewrite sin_acos by exact HC. rewrite <- sqrt_Rsqr_abs. f_equal.
    unfold Rsqr. lra. }
  pose proof (cos_acos C HC) as Hcos.
  assert (Hp : forall a, cos (a - 2 * PI) = cos a /\ sin (a - 2 * PI) = sin a).
  { intros a. rewrite cos_minus, sin_minus, cos_2PI, sin_2PI. split; ring. }
  cbv zeta. destruct (Rle_dec d 0), (Rle_dec S 0);
    rewrite ?cos_neg, ?sin_neg;
    try (destruct (Hp (acos C)) as [-> ->]); rewrite Hcos, Hsin; split; trivial.
  all: unfold Rabs; destruct (Rcase_abs S); lra.
Qed.

(** The algebra behind [calculate_arc], on coordinates: [w] is the chord,
    [a] and [b] its components along the tangent and its normal, [s] the
    signed radius. *)
Section ArcAlgebra.
Variables tx ty wx wy s : R.
Hypothesis Ht : tx * tx + ty * ty = 1.
Let a := tx * wx + ty * wy.
Let b := - ty * wx + tx * wy.
Let ww := wx * wx + wy * wy.
Hypothesis Hb : b <> 0.
Hypothesis Hs : s = ww / (2 * b).

Lemma chord_sqr : ww = a * a + b * b.
Proof. unfold ww, a, b. nsatz. Qed.

Lemma chord_nonzero : ww <> 0.
Proof. rewrite chord_sqr. nra. Qed.

Lemma radius_nonzero : s <> 0.
Proof.
  rewrite Hs. pose proof chord_nonzero. intros E.
  apply (f_equal (fun q => q * (2 * b))) in E. field_simplify in E; lra.
Qed.

Lemma chord_radius : ww = 2 * b * s.
Proof. rewrite Hs. field. exact Hb. Qed.

Lemma op_dot_om :
  ((ty * s) * (wx + ty * s) + (- tx * s) * (wy - tx * s)) / (s * s)
  = (a * a - b * b) / ww.
Proof.
  pose proof radius_nonzero as Hs0.
  replace ((ty * s) * (wx + ty * s) + (- tx * s) * (wy - tx * s))
    with (s * s * (tx * tx + ty * ty) - s * b) by (unfold b; ring).
  rewrite Ht. replace (a * a - b * b) with (ww - 2 * b * b)
    by (rewrite chord_sqr; ring).
  rewrite chord_radius. field. split; assumption.
Qed.

Lemma op_cross_om :
  ((ty * s) * (wy - tx * s) - (- tx * s) * (wx + ty * s)) / (s * s)
  = 2 * a * b / ww.
Proof.
  pose proof radius_nonzero as Hs0.
  replace ((ty * s) * (wy - tx * s) - (- tx * s) * (wx + ty * s))
    with (s * a) by (unfold a; ring).
  rewrite chord_radius. field. split; assumption.
Qed.

Lemma turn_unit :
  let C := (a * a - b * b) / ww in
  let S := 2 * a * b / ww in
  C * C + S * S = 1.
Proof.
  pose proof chord_nonzero as Hw. cbv zeta.
  replace ((a * a - b * b) / ww * ((a * a - b * b) / ww)
           + 2 * a * b / ww * (2 * a * b / ww))
    with ((a * a + b * b) * (a * a + b * b) / (ww * ww)) by (field; exact Hw).
  rewrite <- chord_sqr. field. exact Hw.
Qed.

Lemma turned_tangent :
  let C := (a * a - b * b) / ww in
  let S := 2 * a * b / ww in
  tx * C - ty * S = wx * (2 * a / ww) - tx
  /\ tx * S + ty * C = wy * (2 * a / ww) - ty.
Proof.
  pose proof chord_nonzero as Hw. cbv zeta.
  assert (Ex : wx = a * tx - b * ty) by (unfold a, b; nsatz).
  assert (Ey : wy = a * ty + b * tx) by (unfold a, b; nsatz).
  split.
  - apply (Rmult_eq_reg_r ww); [|exact Hw].
    replace ((tx * ((a * a - b * b) / ww) - ty * (2 * a * b / ww)) * ww)
      with (tx * (a * a - b * b) - ty * (2 * a * b)) by (field; exact Hw).
    replace ((wx * (2 * a / ww) - tx) * ww) with (2 * a * wx - tx * ww)
      by (field; exact Hw).
    rewrite chord_sqr, Ex. ring.
  - apply (Rmult_eq_reg_r ww); [|exact Hw].
    replace ((tx * (2 * a * b / ww) + ty * ((a * a - b * b) / ww)) * ww)
      with (tx * (2 * a * b) + ty * (a * a - b * b)) by (field; exact Hw).
    replace ((wy * (2 * a / ww) - ty) * ww) with (2 * a * wy - ty * ww)
      by (field; exact Hw).
    rewrite chord_sqr, Ey. ring.
Qed.
End ArcAlgebra.

Lemma calculate_arc_turn (pm p t_ : Vector.t) (d r theta : R) :
  Vector.abs t_ = 1 ->
  calculate_arc pm d p t_ = Ok (r, theta) ->
  Vector.dot (Vector.sub pm p) (Vector.sub pm p) <> 0
  /\ rotate theta t_ = mirrored t_ (Vector.sub pm p).
Proof.
  intros Ht H. apply unit_sqr in Ht.
  unfold calculate_arc in H.
  apply bind_Ok in H as (s & Hs & H). apply fdiv_Ok in Hs as [Hb Hs].
  apply bind_Ok in H as (op & Hop & H). apply Vector_div_Ok in Hop as [Hr Hop].
  apply bind_Ok in H as (om & Hom & H). apply Vector_div_Ok in Hom as [_ Hom].
  apply bind_Ok in H as (th & Hth & H). apply py_acos_Ok in Hth as [_ Hth].
  injection H as _ Eth.
  destruct pm as [mx my], p as [px py], t_ as [tx ty].
  unfold Vector.sub, Vector.dot, Vector.ortho, Vector.add, Vector.scale,
    Vector.matmul, mirrored, rotate in *. simpl in *.
  set (wx := mx - px) in *. set (wy := my - py) in *.
  assert (Hb0 : - ty * wx + tx * wy <> 0) by lra.
  assert (Hs' : s = (wx * wx + wy * wy) / (2 * (- ty * wx + tx * wy))) by exact Hs.
  clear Hs Hb.
  assert (Habs : Rabs s * Rabs s = s * s).
  { unfold Rabs. destruct (Rcase_abs s); ring. }
  pose proof (op_dot_om tx ty wx wy s Ht Hb0 Hs') as HC.
  pose proof (op_cross_om tx ty wx wy s Ht Hb0 Hs') as HS.
  pose proof (turn_unit tx ty wx wy s Ht Hb0 Hs') as HU.
  pose proof (turned_tangent tx ty wx wy s Ht Hb0 Hs') as HT.
  pose proof (chord_nonzero tx ty wx wy s Ht Hb0 Hs') as Hw.
  cbv zeta in HU, HT.
  set (a := tx * wx + ty * wy) in *. set (b := - ty * wx + tx * wy) in *.
  set (ww := wx * wx + wy * wy) in *.
  assert (EC : Vector.x op * Vector.x om + Vector.y op * Vector.y om
               = (a * a - b * b) / ww).
  { rewrite <- HC, Hop, Hom. simpl. rewrite <- Habs. unfold wx, wy. field. exact Hr. }
  assert (ES : Vector.x op * Vector.y om - Vector.y op * Vector.x om
               = 2 * a * b / ww).
  { rewrite <- HS, Hop, Hom. simpl. rewrite <- Habs. unfold wx, wy. field. exact Hr. }
  rewrite EC in Hth. rewrite ES in Eth. subst th.
  destruct (adjusted_acos _ _ d HU) as [Hcos Hsin]. cbv zeta in Hcos, Hsin.
  rewrite Eth in Hcos, Hsin. split; [exact Hw|].
  rewrite Hcos, Hsin. destruct HT as [-> ->]. f_equal; field; exact Hw.
Qed.

(** Mirroring a unit vector [t_] at a chord along the bisector of [t_] and
    another unit vector [u] yields [u]. *)
Lemma mirrored_bisector (t_ u w : Vector.t) (k : R) :
  Vector.dot t_ t_ = 1 -> Vector.dot u u = 1 ->
  w = Vector.scale (Vector.add t_ u) k ->
  Vector.dot w w <> 0 ->
  mirrored t_ w = u.
Proof.
  destruct t_ as [tx ty], u as [ux uy]. intros Ht Hu -> Hw.
  unfold mirrored, Vector.dot, Vector.scale, Vector.add, Vector.sub in *.
  simpl in *.
  assert (Hww : (tx + ux) * k * ((tx + ux) * k) + (ty + uy) * k * ((ty + uy) * k)
                = k * k * (2 * (1 + (tx * ux + ty * uy)))) by nsatz.
  rewrite Hww in *.
  assert (Hk : k <> 0) by (intros ->; apply Hw; ring).
  assert (Hc : 1 + (tx * ux + ty * uy) <> 0) by (intros E; apply Hw; rewrite E; ring).
  replace (2 * (tx * ((tx + ux) * k) + ty * ((ty + uy) * k)))
    with (2 * k * (1 + (tx * ux + ty * uy))) by nsatz.
  f_equal; field; auto.
Qed.

Lemma join_point_chords (p1 t1 p2 t2 : Vector.t) (d : R) :
  let pm := join_point p1 t1 p2 t2 d in
  let v := Vector.sub p2 p1 in
  Vector.sub pm p1
  = Vector.scale (Vector.add v (Vector.scale (Vector.sub t1 t2) d)) 0.5
  /\ Vector.sub pm p2
     = Vector.scale (Vector.sub (Vector.scale (Vector.sub t1 t2) d) v) 0.5.
Proof.
  destruct p1, p2, t1, t2. unfold join_point, Vector.sub, Vector.add, Vector.scale.
  simpl. split; f_equal; lra.
Qed.

Lemma biarc_shared_tangent (p1 t1 p2 t2 : Vector.t) (d : R) :
  Vector.abs t1 = 1 -> Vector.abs t2 = 1 ->
  biarc_equation (Vector.sub p2 p1) t1 t2 d ->
  let pm := join_point p1 t1 p2 t2 d in
  Vector.dot (Vector.sub pm p1) (Vector.sub pm p1) <> 0 ->
  Vector.dot (Vector.sub pm p2) (Vector.sub pm p2) <> 0 ->
  mirrored t1 (Vector.sub pm p1) = mirrored t2 (Vector.sub pm p2).
Proof.
  intros H1 H2 HE pm Hw1 Hw2.
  apply unit_sqr in H1, H2.
  destruct (join_point_chords p1 t1 p2 t2 d) as [E1 E2]. fold pm in E1, E2.
  rewrite E1 in Hw1 |- *. rewrite E2 in Hw2 |- *. clear E1 E2 pm.
  set (v := Vector.sub p2 p1) in *. clearbody v. clear p1 p2.
  destruct v as [vx vy], t1 as [ax ay], t2 as [bx by_].
  unfold biarc_equation, Vector.dot, Vector.add, Vector.sub, Vector.scale in *.
  simpl in *.
  assert (Hd : d <> 0).
  { intros ->. apply Hw1. assert (vx * vx + vy * vy = 0) by lra.
    destruct (Rplus_sqr_eq_0 vx vy H). subst. ring. }
  set (u := Vector.make ((vx - d * (ax + bx)) / (2 * d))
                        ((vy - d * (ay + by_)) / (2 * d))).
  assert (Hu : Vector.dot u u = 1).
  { unfold u, Vector.dot. simpl.
    replace ((vx - d * (ax + bx)) / (2 * d) * ((vx - d * (ax + bx)) / (2 * d))
             + (vy - d * (ay + by_)) / (2 * d) * ((vy - d * (ay + by_)) / (2 * d)))
      with (((vx * vx + vy * vy) - 2 * (vx * (ax + bx) + vy * (ay + by_)) * d
             + d * d * ((ax * ax + ay * ay) + (bx * bx + by_ * by_)
                        + 2 * (ax * bx + ay * by_))) / (4 * d * d))
      by (field; exact Hd).
    rewrite H1, H2.
    replace (vx * vx + vy * vy - 2 * (vx * (ax + bx) + vy * (ay + by_)) * d
             + d * d * (1 + 1 + 2 * (ax * bx + ay * by_)))
      with (4 * d * d) by lra.
    field. exact Hd. }
  assert (Eh : 0.5 = / 2) by lra.
  transitivity u.
  - apply (mirrored_bisector _ u _ d); auto.
    + unfold u, Vector.scale, Vector.add. simpl. rewrite Eh. f_equal; field; exact Hd.
  - symmetry. apply (mirrored_bisector _ u _ (- d)); auto.
    + unfold u, Vector.scale, Vector.add. simpl. rewrite Eh. f_equal; field; exact Hd.
Qed.

Lemma general_offset_solves (v t1 t2 : Vector.t) (root d : R) :
  let vt := Vector.dot v (Vector.add t1 t2) in
  2 * (1 - Vector.dot t1 t2) <> 0 ->
  py_sqrt (vt ^ 2 + 2 * (1 - Vector.dot t1 t2) * Vector.dot v v) = Ok root ->
  fdiv (- vt + root) (2 * (1 - Vector.dot t1 t2)) = Ok d ->
  biarc_equation v t1 t2 d.
Proof.
  intros vt Hden Hroot Hd. unfold biarc_equation. fold vt.
  apply py_sqrt_Ok in Hroot as [HD Hroot]. apply fdiv_Ok in Hd as [_ Hd].
  set (q := 1 - Vector.dot t1 t2) in *. set (vv := Vector.dot v v) in *.
  assert (Hq : q <> 0) by lra.
  assert (Hr : root = 2 * q * d + vt) by (rewrite Hd; field; exact Hq).
  pose proof (sqrt_sqrt _ HD) as Hsq. rewrite <- Hroot, Hr in Hsq.
  apply (Rmult_eq_reg_l (2 * q)); [|lra]. rewrite Rmult_0_r.
  replace (2 * q * (2 * q * (d * d) + 2 * vt * d - vv))
    with ((2 * q * d + vt) * (2 * q * d + vt) - (vt ^ 2 + 2 * q * vv)) by ring.
  lra.
Qed.

Lemma parallel_offset_solves (v t1 t2 : Vector.t) (d : R) :
  let vt := Vector.dot v (Vector.add t1 t2) in
  2 * (1 - Vector.dot t1 t2) = 0 ->
  fdiv (0.5 * Vector.dot v v) vt = Ok d ->
  biarc_equation v t1 t2 d.
Proof.
  intros vt Hden Hd. unfold biarc_equation. fold vt.
  apply fdiv_Ok in Hd as [Hvt Hd].
  replace (1 - Vector.dot t1 t2) with 0 by lra. rewrite Hd.
  replace 0.5 with (/ 2) by lra. field. exact Hvt.
Qed.

Lemma arcs_shared_tangent (p1 t1 p2 t2 : Vector.t) (d r1 th1 r2 th2 : R) :
  Vector.abs t1 = 1 -> Vector.abs t2 = 1 ->
  biarc_equation (Vector.sub p2 p1) t1 t2 d ->
  calculate_arc (join_point p1 t1 p2 t2 d) d p1 t1 = Ok (r1, th1) ->
  calculate_arc (join_point p1 t1 p2 t2 d) d p2 t2 = Ok (r2, th2) ->
  rotate th1 t1 = rotate th2 t2.
Proof.
  intros H1 H2 HE Ha1 Ha2.
  apply calculate_arc_turn in Ha1 as [Hw1 ->]; [|exact H1].
  apply calculate_arc_turn in Ha2 as [Hw2 ->]; [|exact H2].
  now apply biarc_shared_tangent.
Qed.

Lemma unit_dot_one (t1 t2 : Vector.t) :
  Vector.abs t1 = 1 -> Vector.abs t2 = 1 ->
  2 * (1 - Vector.dot t1 t2) = 0 -> t1 = t2.
Proof.
  intros H1 H2 H. apply unit_sqr in H1, H2.
  destruct t1 as [ax ay], t2 as [bx by_]. unfold Vector.dot in *. simpl in *.
  assert (E : (ax - bx) * (ax - bx) + (ay - by_) * (ay - by_) = 0).
  { replace ((ax - bx) * (ax - bx) + (ay - by_) * (ay - by_))
      with ((ax * ax + ay * ay) + (bx * bx + by_ * by_)
            - 2 * (ax * bx + ay * by_)) by ring.
    rewrite H1, H2. lra. }
  destruct (Rplus_sqr_eq_0 (ax - bx) (ay - by_) E). f_equal; lra.
Qed.

Lemma rotate_half_turn (t_ : Vector.t) : rotate PI t_ = rotate (- PI) t_.
Proof. unfold rotate. now rewrite cos_neg, sin_neg, sin_PI, Ropp_0. Qed.

Lemma biarc_rotated_tangents (p1 t1 p2 t2 : Vector.t) (b : biarc) :
  Vector.abs t1 = 1 -> Vector.abs t2 = 1 ->
  biarc_interpolation p1 t1 p2 t2 = Ok b ->
  rotate (theta1 b) t1 = rotate (theta2 b) t2.
Proof.
  intros H1 H2 H. unfold biarc_interpolation in H.
  destruct (Req_dec_T (2 * (1 - Vector.dot t1 t2)) 0) as [Hden|Hden].
  - destruct (Req_dec_T (Vector.dot (Vector.sub p2 p1) (Vector.add t1 t2)) 0)
      as [Hvt|Hvt].
    + rewrite (unit_dot_one t1 t2 H1 H2 Hden).
      destruct (Rlt_dec _ 0); injection H as <-; simpl;
        [|symmetry]; apply rotate_half_turn.
    + apply bind_Ok in H as (d & Hd & H).
      apply bind_Ok in H as ([r1 th1] & Ha1 & H).
      apply bind_Ok in H as ([r2 th2] & Ha2 & H). injection H as <-. simpl.
      eapply arcs_shared_tangent; eauto.
      now apply parallel_offset_solves.
  - apply bind_Ok in H as (root & Hroot & H).
    apply bind_Ok in H as (d & Hd & H).
    apply bind_Ok in H as ([r1 th1] & Ha1 & H).
    apply bind_Ok in H as ([r2 th2] & Ha2 & H). injection H as <-. simpl.
    eapply arcs_shared_tangent; eauto.
    eapply general_offset_solves; eauto.
Qed.

Lemma rotate_polar (a theta : R) :
  rotate theta (polar a 1) = polar (a + theta) 1.
Proof.
  unfold rotate, polar. simpl. rewrite cos_plus, sin_plus. f_equal; ring.
Qed.

Lemma polar_same_direction (a b : R) :
  polar a 1 = polar b 1 -> same_direction a b.
Proof.
  unfold polar. intros H. injection H as Hc Hs. rewrite !Rmult_1_r in Hc, Hs.
  assert (Hcos : cos (a - b) = 1).
  { rewrite cos_minus, Hc, Hs. pose proof (sin2_cos2 b) as E. unfold Rsqr in E. lra. }
  assert (Hsin : sin ((a - b) / 2) = 0).
  { replace (a - b) with (2 * ((a - b) / 2)) in Hcos by field.
    rewrite cos_2a_sin in Hcos.
    assert (E : sin ((a - b) / 2) * sin ((a - b) / 2) = 0) by lra.
    now apply Rmult_integral in E as [E|E]. }
  apply sin_eq_0_0 in Hsin as [k Hk]. exists k. lra.
Qed.

Lemma cos_sin_bound (C S : R) : C * C + S * S = 1 -> -1 <= C <= 1.
Proof. intros H. nra. Qed.

Lemma calculate_arc_returns (pm p t_ : Vector.t) (d : R) :
  Vector.abs t_ = 1 ->
  Vector.dot (Vector.ortho t_) (Vector.sub pm p) <> 0 ->
  exists r theta, calculate_arc pm d p t_ = Ok (r, theta).
Proof.
  intros Ht Hb. apply unit_sqr in Ht. unfold calculate_arc.
  rewrite fdiv_nonzero by lra. simpl.
  destruct pm as [mx my], p as [px py], t_ as [tx ty].
  unfold Vector.sub, Vector.dot, Vector.ortho, Vector.add, Vector.scale,
    Vector.matmul, Vector.div in *. simpl in *.
  set (wx := mx - px) in *. set (wy := my - py) in *.
  set (s := (wx * wx + wy * wy) / (2 * (- ty * wx + tx * wy))).
  assert (Hs0 : s <> 0) by (now apply (radius_nonzero tx ty wx wy)).
  assert (Hr : Rabs s <> 0) by (now apply Rabs_no_R0).
  rewrite !fdiv_nonzero by exact Hr. simpl.
  assert (Habs : Rabs s * Rabs s = s * s).
  { unfold Rabs. destruct (Rcase_abs s); ring. }
  pose proof (op_dot_om tx ty wx wy s Ht Hb eq_refl) as HC.
  pose proof (turn_unit tx ty wx wy s Ht Hb eq_refl) as HU. cbv zeta in HU.
  match goal with |- context [py_acos ?c] =>
    replace c with (((tx * wx + ty * wy) * (tx * wx + ty * wy)
                     - (- ty * wx + tx * wy) * (- ty * wx + tx * wy))
                    / (wx * wx + wy * wy))
  end.
  2:{ rewrite <- HC, <- Habs. unfold wx, wy. field. exact Hr. }
  unfold py_acos.
  apply cos_sin_bound in HU.
  destruct (Rlt_dec _ (-1)); [lra|]. destruct (Rlt_dec 1 _); [lra|].
  simpl. eauto.
Qed.

(** An S-curve between parallel tangents: two quarter circles of radius 1. *)
Example calculate_arc_quarter_1 :
  calculate_arc (Vector.make 1 1) 1 (Vector.make 0 0) (Vector.make 1 0)
  = Ok (1, PI / 2).
Proof.
  unfold calculate_arc, Vector.div, Vector.sub, Vector.dot, Vector.ortho,
    Vector.add, Vector.scale, Vector.matmul. simpl.
  rewrite fdiv_nonzero by lra. simpl.
  replace (((1 - 0) * (1 - 0) + (1 - 0) * (1 - 0)) / (2 * (- 0 * (1 - 0) + 1 * (1 - 0))))
    with 1 by (field; lra).
  rewrite Rabs_R1. rewrite !fdiv_nonzero by lra. simpl.
  replace ((0 - (0 + - 0 * 1)) / 1 * ((1 - (0 + - 0 * 1)) / 1)
           + (0 - (0 + 1 * 1)) / 1 * ((1 - (0 + 1 * 1)) / 1)) with 0 by (field; lra).
  unfold py_acos. destruct (Rlt_dec 0 (-1)); [lra|]. destruct (Rlt_dec 1 0); [lra|].
  simpl. rewrite acos_0. destruct (Rle_dec 1 0); [lra|].
  destruct (Rle_dec _ 0); [lra|]. reflexivity.
Qed.

Example calculate_arc_quarter_2 :
  calculate_arc (Vector.make 1 1) 1 (Vector.make 2 2) (Vector.make 1 0)
  = Ok (1, PI / 2).
Proof.
  unfold calculate_arc, Vector.div, Vector.sub, Vector.dot, Vector.ortho,
    Vector.add, Vector.scale, Vector.matmul. simpl.
  rewrite fdiv_nonzero by lra. simpl.
  replace (((1 - 2) * (1 - 2) + (1 - 2) * (1 - 2)) / (2 * (- 0 * (1 - 2) + 1 * (1 - 2))))
    with (- 1) by (field; lra).
  replace (Rabs (-1)) with 1 by (unfold Rabs; destruct (Rcase_abs (-1)); lra).
  rewrite !fdiv_nonzero by lra. simpl.
  replace ((2 - (2 + - 0 * -1)) / 1 * ((1 - (2 + - 0 * -1)) / 1)
           + (2 - (2 + 1 * -1)) / 1 * ((1 - (2 + 1 * -1)) / 1)) with 0 by (field; lra).
  unfold py_acos. destruct (Rlt_dec 0 (-1)); [lra|]. destruct (Rlt_dec 1 0); [lra|].
  simpl. rewrite acos_0. destruct (Rle_dec 1 0); [lra|].
  destruct (Rle_dec _ 0); [lra|]. reflexivity.
Qed.

Example biarc_s_curve :
  biarc_interpolation (Vector.make 0 0) (Vector.make 1 0)
                      (Vector.make 2 2) (Vector.make 1 0)
  = Ok (Arcs 1 (PI / 2) 1 (PI / 2)).
Proof.
  unfold biarc_interpolation, join_point, Vector.sub, Vector.add, Vector.dot,
    Vector.scale. simpl.
  destruct (Req_dec_T (2 * (1 - (1 * 1 + 0 * 0))) 0) as [_|H]; [|lra].
  destruct (Req_dec_T ((2 - 0) * (1 + 1) + (2 - 0) * (0 + 0)) 0) as [H|_]; [lra|].
  rewrite fdiv_nonzero by lra. simpl.
  replace (0.5 * ((2 - 0) * (2 - 0) + (2 - 0) * (2 - 0))
           / ((2 - 0) * (1 + 1) + (2 - 0) * (0 + 0))) with 1
    by (replace 0.5 with (/ 2) by lra; field; lra).
  replace ((0 + 2 + (1 - 1) * 1) * 0.5) with 1 by lra.
  replace ((0 + 2 + (0 - 0) * 1) * 0.5) with 1 by lra.
  rewrite calculate_arc_quarter_1. simpl.
  rewrite calculate_arc_quarter_2. reflexivity.
Qed.

(** The perpendicular chord between parallel tangents: two half turns. *)
Example biarc_semicircles :
  biarc_interpolation (Vector.make 0 0) (Vector.make 1 0)
                      (Vector.make 0 2) (Vector.make 1 0)
  = Ok (Semicircles (Vector.make 0 0.5) PI (Vector.make 0 1.5) (- PI)).
Proof.
  unfold biarc_interpolation, Vector.sub, Vector.add, Vector.dot,
    Vector.scale, Vector.matmul. simpl.
  destruct (Req_dec_T (2 * (1 - (1 * 1 + 0 * 0))) 0) as [_|H]; [|lra].
  destruct (Req_dec_T ((0 - 0) * (1 + 1) + (2 - 0) * (0 + 0)) 0) as [_|H]; [|lra].
  destruct (Rlt_dec _ 0) as [_|H]; [|lra]. do 2 f_equal; f_equal; lra.
Qed.

(** C6. Over the reals, for unit tangents [t1] and [t2], the arcs that
    [biarc_interpolation] returns share their tangent at the join point:
    [t1] turned by [theta1] is [t2] turned by [theta2]; in terms of the
    directions [a1], [a2] of the tangents, [a1 + theta1] and [a2 + theta2]
    are equal modulo [2 pi].  This holds for both shapes of the result, the
    two arcs of the general case and the two half turns of the case of
    parallel tangents across a perpendicular chord. *)
Theorem biarc_interpolation_C1 (p1 t1 p2 t2 : Vector.t) (b : biarc) :
  p1 <> p2 ->
  Vector.abs t1 = 1 -> Vector.abs t2 = 1 ->
  biarc_interpolation p1 t1 p2 t2 = Ok b ->
  rotate (theta1 b) t1 = rotate (theta2 b) t2
  /\ forall a1 a2 : R,
      t1 = polar a1 1 -> t2 = polar a2 1 ->
      same_direction (a1 + theta1 b) (a2 + theta2 b).
Proof.
  intros _ H1 H2 H.
  pose proof (biarc_rotated_tangents p1 t1 p2 t2 b H1 H2 H) as Hrot.
  split; [exact Hrot|]. intros a1 a2 -> ->.
  rewrite !rotate_polar in Hrot. now apply polar_same_direction.
Qed.

Lemma biarc_interpolation_C1_witness :
  let b := Arcs 1 (PI / 2) 1 (PI / 2) in
  biarc_interpolation (Vector.make 0 0) (Vector.make 1 0)
                      (Vector.make 2 2) (Vector.make 1 0) = Ok b
  /\ rotate (theta1 b) (Vector.make 1 0) = rotate (theta2 b) (Vector.make 1 0)
  /\ forall a1 a2 : R,
      Vector.make 1 0 = polar a1 1 -> Vector.make 1 0 = polar a2 1 ->
      same_direction (a1 + theta1 b) (a2 + theta2 b).
Proof.
  intros b. split; [exact biarc_s_curve|].
  apply (biarc_interpolation_C1 (Vector.make 0 0) (Vector.make 1 0)
                                (Vector.make 2 2) (Vector.make 1 0) b).
  - intros E. injection E as E _. lra.
  - apply abs_unit. lra.
  - apply abs_unit. lra.
  - exact biarc_s_curve.
Defined.

End Biarc.

(** * The writer: delimiter balance, indexers, section indices *)

Section Writer.
Local Open Scope Z_scope.

Example splitlines_examples :
  STFOutput.splitlines "a(
 b
)" = ["a("; " b"; ")"]
  /\ STFOutput.splitlines "" = []
  /\ STFOutput.splitlines (String STFOutput.newline "") = [""]
  /\ STFOutput.splitlines
       (String "a" (String (ascii_of_nat 13) (String STFOutput.newline "b")))
     = ["a"; "b"].
Proof. repeat split; reflexivity. Qed.

(** A balanced record is written indented and leaves the count unchanged. *)
Example write_balanced :
  STFOutput.write (STFOutput.make "t.dat" "T0" (Some "") 0)
    "TrackSections ( 2
  TrackSection (
)
)"
  = (Ok tt,
     STFOutput.make "t.dat" "T0"
       (Some "TrackSections ( 2
	TrackSection (
	)
)
") 0).
Proof. vm_compute. reflexivity. Qed.

(** A line that starts with the closing delimiter at count zero fails the
    assertion, whatever follows it. *)
Lemma write_lines_closing_at_zero (line : string) (lines : list string)
    (text : string) :
  STFOutput.startswith (STFOutput.lstrip line) ")" = true ->
  STFOutput.write_lines (line :: lines) 0 text = (Raise AssertionError, 0).
Proof. intros H. simpl. rewrite H. reflexivity. Qed.

Example write_closing_at_zero :
  STFOutput.write (STFOutput.make "t.dat" "T0" (Some "") 0) "  )"
  = (Raise AssertionError, STFOutput.make "t.dat" "T0" (Some "") 0).
Proof. vm_compute. reflexivity. Qed.

(** C7 (the code departs from the claim). A closing delimiter that does not
    start its line passes the assertion of [write]: at count zero the write
    of the line [x )] succeeds and leaves the count at [-1]. *)
Theorem write_leaves_negative_balance :
  STFOutput.write (STFOutput.make "t.dat" "T0" (Some "") 0) "x )"
  = (Ok tt,
     STFOutput.make "t.dat" "T0" (Some (String "x" (String " " (String ")"
                                   (String STFOutput.newline "")))))
                    (-1)).
Proof. vm_compute. reflexivity. Qed.

(** The same with a line that starts with the delimiter and closes twice. *)
Example write_double_close :
  snd (STFOutput.write (STFOutput.make "t.dat" "T0" (Some "") 1) "))")
  = STFOutput.make "t.dat" "T0" (Some (String ")" (String ")"
                                   (String STFOutput.newline "")))) (-1).
Proof. vm_compute. reflexivity. Qed.

(** After that every further line fails, and [close_parentheses] writes
    nothing: the missing delimiter goes unnoticed when the file is closed. *)
Example close_after_negative_balance :
  let w := snd (STFOutput.write (STFOutput.make "t.dat" "T0" (Some "") 0) "x )") in
  STFOutput.close_parentheses w = (Ok tt, w)
  /\ fst (STFOutput.write w "y") = Raise AssertionError.
Proof. vm_compute. split; reflexivity. Qed.

(** ** Indexers *)

Lemma get_or_add_new (self : Indexer.t) (item : oid) (store : Indexer.attrs_store) :
  Indexer.indices self !! item = None ->
  Indexer.get_or_add self item store
  = (Indexer.next_index self,
     Indexer.make (Indexer.key self) (Indexer.next_index self + 1)
                  (<[item := Indexer.next_index self]> (Indexer.indices self)),
     Indexer.set_attr store item (Indexer.key self)
                      (Indexer.AInt (Indexer.next_index self))).
Proof. intros H. unfold Indexer.get_or_add. now rewrite H. Qed.

Lemma get_or_add_known (self : Indexer.t) (item : oid) (idx : Z)
    (store : Indexer.attrs_store) :
  Indexer.indices self !! item = Some idx ->
  Indexer.get_or_add self item store = (idx, self, store).
Proof. intros H. unfold Indexer.get_or_add. now rewrite H. Qed.

Lemma consecutive_cons (f : Z) (n : nat) :
  (fun k => f + Z.of_nat k) <$> seq 0 (S n)
  = f :: ((fun k => f + 1 + Z.of_nat k) <$> seq 0 n).
Proof.
  simpl. f_equal; [lia|]. rewrite <- fmap_S_seq, <- list_fmap_compose.
  apply list_fmap_ext. intros ? k _. simpl. lia.
Qed.

(** Registering new, pairwise distinct items hands out the next indices in
    order and keeps what was registered before. *)
Lemma get_or_add_all_new (items : list oid) :
  forall (self : Indexer.t) (store : Indexer.attrs_store),
  NoDup items ->
  (forall item, item ∈ items -> Indexer.indices self !! item = None) ->
  exists self' store',
    Indexer.get_or_add_all self items store
    = ((fun k => Indexer.next_index self + Z.of_nat k) <$> seq 0 (length items),
       self', store')
    /\ Indexer.next_index self' = Indexer.next_index self + Z.of_nat (length items)
    /\ (forall k item, items !! k = Some item ->
          Indexer.indices self' !! item
          = Some (Indexer.next_index self + Z.of_nat k))
    /\ (forall item idx, Indexer.indices self !! item = Some idx ->
          Indexer.indices self' !! item = Some idx).
Proof.
  induction items as [|item items IH]; intros self store Hnd Hnew.
  - exists self, store. simpl. repeat split; [lia| |auto].
    intros k item Hk. now rewrite lookup_nil in Hk.
  - apply NoDup_cons in Hnd as [Hnotin Hnd].
    cbn [Indexer.get_or_add_all]. rewrite get_or_add_new by (apply Hnew; left).
    set (self1 := Indexer.make _ _ _). set (store1 := Indexer.set_attr _ _ _ _).
    destruct (IH self1 store1 Hnd) as (self' & store' & Hall & Hnext & Hidx & Hold).
    { intros j Hj. unfold self1. simpl. rewrite lookup_insert_ne.
      - apply Hnew. now right.
      - intros ->. contradiction. }
    exists self', store'. rewrite Hall.
    change (length (item :: items)) with (S (length items)).
    rewrite consecutive_cons. unfold self1 in *. simpl in Hnext, Hidx, Hold.
    split; [reflexivity|]. split; [|split].
    + rewrite Hnext. lia.
    + intros [|k] j Hk; simpl in Hk.
      * injection Hk as <-. rewrite (Hold item (Indexer.next_index self)).
        -- f_equal. lia.
        -- apply lookup_insert_eq.
      * rewrite (Hidx k j Hk). f_equal. lia.
    + intros j idx Hj. apply Hold. rewrite lookup_insert_ne; [exact Hj|].
      intros ->. rewrite Hnew in Hj by left. discriminate.
Qed.

(** C5. An indexer created with first index [f] gives [N] pairwise distinct
    items, registered in order, the indices [f, f+1, ..., f+N-1], which
    increase strictly; registering any of them again returns the index it
    got first and changes neither the indexer (no index is used up) nor the
    attributes. *)
Theorem indexer_assigns_consecutive_ids (key : string) (f : Z)
    (items : list oid) (store : Indexer.attrs_store) :
  NoDup items ->
  let '(idxs, self, _) :=
    Indexer.get_or_add_all (Indexer.init key f) items store in
  idxs = (fun k => f + Z.of_nat k) <$> seq 0 (length items)
  /\ (forall i j a b, idxs !! i = Some a -> idxs !! j = Some b ->
        (i < j)%nat -> a < b)
  /\ (forall k item store', items !! k = Some item ->
        Indexer.get_or_add self item store' = (f + Z.of_nat k, self, store')).
Proof.
  intros Hnd.
  destruct (get_or_add_all_new items (Indexer.init key f) store Hnd)
    as (self & store' & Hall & _ & Hidx & _).
  { intros item _. apply lookup_empty. }
  rewrite Hall. simpl. repeat split.
  - intros i j a b Hi Hj Hlt.
    rewrite list_lookup_fmap in Hi, Hj.
    destruct (seq 0 (length items) !! i) as [ki|] eqn:Ei; [|discriminate].
    destruct (seq 0 (length items) !! j) as [kj|] eqn:Ej; [|discriminate].
    apply lookup_seq in Ei as [-> _]. apply lookup_seq in Ej as [-> _].
    simpl in Hi, Hj. injection Hi as <-. injection Hj as <-. lia.
  - intros k item store'' Hk. apply get_or_add_known. now apply Hidx.
Qed.

Lemma indexer_assigns_consecutive_ids_witness :
  let '(idxs, self, _) :=
    Indexer.get_or_add_all (Indexer.init "or_section_index" 40000)
                           [7; 3; 9]%positive ∅ in
  idxs = (fun k => 40000 + Z.of_nat k) <$> seq 0 3
  /\ (forall i j a b, idxs !! i = Some a -> idxs !! j = Some b ->
        (i < j)%nat -> a < b)
  /\ (forall k item store', [7; 3; 9]%positive !! k = Some item ->
        Indexer.get_or_add self item store' = (40000 + Z.of_nat k, self, store')).
Proof.
  apply (indexer_assigns_consecutive_ids "or_section_index" 40000
                                         [7; 3; 9]%positive ∅).
  apply (bool_decide_unpack _). vm_compute. exact I.
Defined.

Example indexer_run :
  fst (fst (Indexer.get_or_add_all (Indexer.init "or_tdb_index" 1)
                                   [7; 3; 7; 9; 3]%positive ∅))
  = [1; 2; 1; 3; 2].
Proof. vm_compute. reflexivity. Qed.

(** ** Section indices *)

(** C8. The section index of a segment is even when the segment is straight
    or a left curve, and odd when it is a right curve. *)
Theorem section_index_parity (self : ORWriter.t) (segment : Railgraphs.EdgeSegment.t)
    (store : Indexer.attrs_store) :
  let '(idx, _, _) := ORWriter._get_section_index self segment store in
  ((Railgraphs.EdgeSegment.radius segment = 0
    \/ Railgraphs.EdgeSegment.radius segment < 0)%R -> Z.even idx = true)
  /\ ((Railgraphs.EdgeSegment.radius segment > 0)%R -> Z.odd idx = true).
Proof.
  unfold ORWriter._get_section_index.
  destruct (Indexer.get_or_add _ _ _) as [[idx ix] st].
  case_bool_decide as Hr.
  - split; intros H.
    + replace (2 * idx - 40000) with (2 * (idx - 20000)) by lia.
      apply Z.even_mul.
    + lra.
  - split; intros H.
    + lra.
    + replace (2 * idx - 40000 + 1) with (2 * (idx - 20000) + 1) by lia.
      apply Z.odd_odd.
Qed.

End Writer.

(** * The graph model *)

Section GraphModel.
Import Geometry Railgraphs Routes.
Local Open Scope R_scope.

(** ** Running computations on the store *)

Lemma bind_run {A B : Type} (m : M A) (k : A -> M B) (st st' : State) (a : A) :
  m st = Ok (a, st') -> (m ≫= k) st = k a st'.
Proof. intros H. unfold mbind, M_bind. now rewrite H. Qed.

Lemma bind_assoc {A B C : Type} (m : M A) (k1 : A -> M B) (k2 : B -> M C)
    (st : State) :
  ((m ≫= k1) ≫= k2) st = (m ≫= fun a => k1 a ≫= k2) st.
Proof.
  unfold mbind, M_bind. destruct (m st) as [[a st']|err]; reflexivity.
Qed.

Lemma mret_bind {A B : Type} (a : A) (k : A -> M B) (st : State) :
  (mret a ≫= k) st = k a st.
Proof. reflexivity. Qed.

Lemma get_node_run (st : State) (n : oid) (x : Node.t) :
  node_heap st !! n = Some x -> get_node n st = Ok (x, st).
Proof. intros H. unfold get_node. now rewrite H. Qed.

Lemma get_edge_run (st : State) (e : oid) (x : Edge.t) :
  edge_heap st !! e = Some x -> get_edge e st = Ok (x, st).
Proof. intros H. unfold get_edge. now rewrite H. Qed.

Lemma set_node_pose_run (st : State) (n : oid) (x : Node.t) (p : Pose.t) :
  node_heap st !! n = Some x ->
  set_node_pose n p st
  = put_node n (Node.make p (Node.incoming x) (Node.outgoing x) (Node.s x)
                          (Node.graph x)) st.
Proof.
  intros H. unfold set_node_pose. now rewrite (bind_run _ _ st st x (get_node_run _ _ _ H)).
Qed.

(** ** [End.add_edge] with length zero *)

(** C9. [End.add_edge] with [length = 0] returns the end it was called on and
    leaves the whole store as it was: no node, edge or segment is created,
    and no pose, segment list or distance [s] changes. *)
Theorem End_add_edge_zero_length (self : End) (radius : R) (extend_edge : bool)
    (st : State) :
  End_add_edge self 0 radius extend_edge st = Ok (self, st).
Proof.
  unfold End_add_edge. destruct (Req_dec_T 0 0) as [_|H]; [reflexivity|].
  now contradiction H.
Qed.

(** ** Float remainder and the angle between directions *)

Lemma fmod_eq (a m : R) (k : Z) :
  0 < m -> 0 <= a - IZR k * m < m -> fmod a m = a - IZR k * m.
Proof.
  intros Hm [Hlo Hhi]. unfold fmod.
  replace (Int_part (a / m)) with k; [reflexivity|].
  apply Int_part_spec. split.
  - apply (Rmult_lt_reg_r m); [exact Hm|].
    replace ((a / m - 1) * m) with (a - m) by (field; lra). lra.
  - apply (Rmult_le_reg_r m); [exact Hm|].
    replace (a / m * m) with a by (field; lra). lra.
Qed.

Lemma fmod_small (a m : R) : 0 <= a < m -> fmod a m = a.
Proof.
  intros H. rewrite (fmod_eq a m 0); [simpl; ring|lra|simpl; lra].
Qed.

Lemma angle_between_eq (alpha beta : R) (k : Z) :
  - PI <= beta - alpha - 2 * IZR k * PI < PI ->
  angle_between alpha beta = beta - alpha - 2 * IZR k * PI.
Proof.
  intros H. unfold angle_between, angle_between'. simpl.
  pose proof PI_RGT_0 as Hpi.
  rewrite (fmod_eq _ _ k); [ring|lra|lra].
Qed.

(** ** [Node.calculate_direction] *)

Lemma map_M_run {A B : Type} (f : A -> M B) (g : A -> B) (l : list A) (st : State) :
  (forall a, a ∈ l -> f a st = Ok (g a, st)) ->
  map_M f l st = Ok (map g l, st).
Proof.
  induction l as [|a l IH]; intros H; simpl; [reflexivity|].
  rewrite (bind_run _ _ st st (g a)) by (apply H; left).
  rewrite (bind_run _ _ st st (map g l)); [reflexivity|].
  apply IH. intros b Hb. apply H. now right.
Qed.

Lemma Edge_start_run (st : State) (e : oid) (x : Edge.t) (seg : EdgeSegment.t)
    (rest : list EdgeSegment.t) :
  edge_heap st !! e = Some x -> Edge.segments x = seg :: rest ->
  Edge_start e st = Ok (EdgeSegment.start seg, st).
Proof.
  intros He Hs. unfold Edge_start.
  rewrite (bind_run _ _ st st x) by now apply get_edge_run.
  now rewrite Hs.
Qed.

Lemma Edge_end_run (st : State) (e : oid) (x : Edge.t) (seg : EdgeSegment.t) :
  edge_heap st !! e = Some x -> last (Edge.segments x) = Some seg ->
  Edge_end e st = Ok (EdgeSegment.end_ seg, st).
Proof.
  intros He Hs. unfold Edge_end.
  rewrite (bind_run _ _ st st x) by now apply get_edge_run.
  now rewrite Hs.
Qed.

Lemma Edge_length_run (st : State) (e : oid) (x : Edge.t) :
  edge_heap st !! e = Some x -> Edge.segments x <> [] ->
  Edge_length e st = Ok (sum_lengths (Edge.segments x), st).
Proof.
  intros He Hs. unfold Edge_length.
  rewrite (bind_run _ _ st st x) by now apply get_edge_run.
  destruct (Edge.segments x); [contradiction|reflexivity].
Qed.

Lemma directions_run (st : State) (n : oid) (x : Node.t)
    (ins outs : oid -> R) :
  node_heap st !! n = Some x ->
  (forall e, e ∈ Node.incoming x ->
     exists p, Edge_end e st = Ok (p, st) /\ Pose.direction p = ins e) ->
  (forall e, e ∈ Node.outgoing x ->
     exists p, Edge_start e st = Ok (p, st) /\ Pose.direction p = outs e) ->
  directions n st
  = Ok (map ins (Node.incoming x) ++ map outs (Node.outgoing x), st).
Proof.
  intros Hn Hin Hout. unfold directions.
  rewrite (bind_run _ _ st st x) by now apply get_node_run.
  rewrite (bind_run _ _ st st (map ins (Node.incoming x))).
  2:{ apply map_M_run. intros e He. destruct (Hin e He) as (p & Hp & <-).
      now rewrite (bind_run _ _ st st p). }
  rewrite (bind_run _ _ st st (map outs (Node.outgoing x))); [reflexivity|].
  apply map_M_run. intros e He. destruct (Hout e He) as (p & Hp & <-).
  now rewrite (bind_run _ _ st st p).
Qed.

Lemma switch_119_directions :
  directions 1 Scenario.switch_119
  = Ok ([0; 0.661 * PI; 1.339 * PI], Scenario.switch_119).
Proof.
  pose proof PI_RGT_0 as Hpi.
  rewrite (directions_run _ _ (Node.make (Pose.make Scenario.origin 0) []
                                         [2; 3; 4]%positive 0 true)
             (fun _ => 0)
             (fun e => if decide (e = 2%positive) then 0
                       else if decide (e = 3%positive) then 0.661 * PI
                       else 1.339 * PI)).
  - reflexivity.
  - reflexivity.
  - intros e He. simpl in He. now apply elem_of_nil in He.
  - intros e He. simpl in He.
    apply elem_of_cons in He as [->|He];
      [|apply elem_of_cons in He as [->|He];
        [|apply elem_of_cons in He as [->|He]; [|now apply elem_of_nil in He]]];
      eexists; (split; [eapply Edge_start_run; reflexivity|]); simpl;
      apply fmod_small; lra.
Qed.

(** C3 (the code departs from the claim). The threshold of
    [calculate_direction] is [0.66 pi], that is 118.8 degrees, not 120: at the
    node of [switch_119] it returns [True] and takes the first incident
    direction for the tip, although that direction is no more than 120
    degrees away from the second one. *)
Theorem calculate_direction_accepts_below_120_degrees :
  exists st',
    directions 1 Scenario.switch_119
    = Ok ([0; 0.661 * PI; 1.339 * PI], Scenario.switch_119)
    /\ calculate_direction 1 Scenario.switch_119 = Ok (true, st')
    /\ Node.pose <$> node_heap st' !! 1%positive
       = Some (Pose.raw Scenario.origin 0)
    /\ Rabs (angle_between 0 (0.661 * PI)) <= 2 * PI / 3.
Proof.
  pose proof PI_RGT_0 as Hpi.
  assert (A1 : angle_between 0 (0.661 * PI) = 0.661 * PI).
  { rewrite (angle_between_eq _ _ 0); simpl; lra. }
  assert (A2 : angle_between 0 (1.339 * PI) = - (0.661 * PI)).
  { rewrite (angle_between_eq _ _ 1); simpl; lra. }
  eexists. split; [exact switch_119_directions|]. split; [|split].
  - unfold calculate_direction.
    rewrite (bind_run _ _ _ _ _ switch_119_directions). cbv beta.
    erewrite bind_run by (apply get_node_run; reflexivity). cbv beta iota.
    cbn [find_tip is_tip_direction forallb app].
    rewrite A1, A2, Rabs_Ropp. rewrite (Rabs_right (0.661 * PI)) by lra.
    rewrite !bool_decide_eq_true_2 by lra. cbn [andb]. cbv iota.
    erewrite bind_run by (apply set_node_pose_run; reflexivity).
    reflexivity.
  - simpl. rewrite lookup_insert_eq. simpl. unfold Pose.make.
    do 2 f_equal. apply fmod_small. lra.
  - rewrite A1. rewrite Rabs_right by lra. lra.
Qed.

(** ** [Node.ends], [Node.connected_ends] *)

Lemma End_pose_source_run (st : State) (e : oid) (x : Edge.t)
    (seg : EdgeSegment.t) (rest : list EdgeSegment.t) :
  edge_heap st !! e = Some x -> Edge.segments x = seg :: rest ->
  End_pose (source_end e) st = Ok (EdgeSegment.start seg, st).
Proof. apply Edge_start_run. Qed.

Lemma End_pose_target_run (st : State) (e : oid) (x : Edge.t)
    (seg : EdgeSegment.t) :
  edge_heap st !! e = Some x -> last (Edge.segments x) = Some seg ->
  End_pose (target_end e) st = Ok (EdgeSegment.end_ seg, st).
Proof. apply Edge_end_run. Qed.

Lemma End_curvature_run (st : State) (e : End) (x : Edge.t) :
  edge_heap st !! edge e = Some x ->
  exists c, End_curvature e st = Ok (c, st).
Proof.
  intros He. unfold End_curvature, End_radius.
  destruct e as [e []]; simpl in *.
  - eexists. erewrite bind_run.
    2:{ erewrite bind_run by (apply get_edge_run; exact He). reflexivity. }
    reflexivity.
  - eexists. erewrite bind_run.
    2:{ erewrite bind_run by (apply get_edge_run; exact He). reflexivity. }
    reflexivity.
Qed.

Lemma map_M_ok {A B : Type} (f : A -> M B) (l : list A) (st : State) :
  (forall a, a ∈ l -> exists b, f a st = Ok (b, st)) ->
  exists bs, map_M f l st = Ok (bs, st).
Proof.
  induction l as [|a l IH]; intros H; simpl; [eexists; reflexivity|].
  destruct (H a) as [b Hb]; [left|].
  destruct IH as [bs Hbs]; [intros; apply H; now right|].
  exists (b :: bs). rewrite (bind_run _ _ st st b Hb).
  now rewrite (bind_run _ _ st st bs Hbs).
Qed.

Lemma insert_by_key_perm {A : Type} (x : R * A) (l : list (R * A)) :
  insert_by_key x l ≡ₚ x :: l.
Proof.
  induction l as [|y l IH]; simpl; [reflexivity|].
  destruct (Rlt_dec (fst x) (fst y)); [reflexivity|].
  rewrite IH. apply perm_swap.
Qed.

Lemma sort_by_key_perm {A : Type} (l : list (R * A)) :
  sort_by_key l ≡ₚ map snd l.
Proof.
  unfold sort_by_key.
  assert (H : forall acc, fold_left (fun sorted x => insert_by_key x sorted) l acc
                          ≡ₚ acc ++ l).
  { induction l as [|x l IH]; intros acc; simpl.
    - now rewrite app_nil_r.
    - rewrite IH, insert_by_key_perm. simpl. apply Permutation_middle. }
  now rewrite H.
Qed.

Lemma elem_of_tail {A : Type} (a : A) (l : list A) : a ∈ tail l -> a ∈ l.
Proof. destruct l; simpl; [auto|]. intros H. now right. Qed.

(** [ends] sorts the ends at the node by their angle to the node. *)
Lemma ends_run (st : State) (n : oid) (x : Node.t) (key : End -> R) :
  node_heap st !! n = Some x ->
  let all := map target_end (Node.incoming x) ++ map source_end (Node.outgoing x) in
  (forall e, e ∈ all ->
     exists p, End_pose e st = Ok (p, st)
               /\ Rabs (angle_between (Pose.direction (Node.pose x))
                                      (Pose.direction p)) = key e) ->
  (forall e, e ∈ all -> is_Some (edge_heap st !! edge e)) ->
  ends n st = Ok (sort_by_key (map (fun e => (key e, e)) all), st).
Proof.
  intros Hn all Hpose Hedge. unfold ends.
  rewrite (bind_run _ _ st st x) by now apply get_node_run.
  fold all.
  rewrite (bind_run _ _ st st (map (fun e => (key e, e)) all)).
  2:{ apply map_M_run. intros e He. destruct (Hpose e He) as (p & Hp & <-).
      now rewrite (bind_run _ _ st st p). }
  destruct (map_M_ok End_curvature
              (tail (sort_by_key (map (fun e => (key e, e)) all))) st)
    as [cs Hcs].
  { intros e He.
    assert (Hin : e ∈ all).
    { apply elem_of_tail in He. rewrite sort_by_key_perm in He.
      rewrite map_map, map_id in He. exact He. }
    destruct (Hedge e Hin) as [xe Hxe]. now apply (End_curvature_run _ _ xe). }
  now rewrite (bind_run _ _ st st cs Hcs).
Qed.

Lemma End_node_run (st : State) (e : End) (x : Edge.t) :
  edge_heap st !! edge e = Some x ->
  End_node e st
  = Ok (match side e with SOURCE => Edge._source x | TARGET => Edge._target x end,
        st).
Proof.
  intros He. unfold End_node, Edge_source, Edge_target.
  destruct e as [e []]; simpl in *;
    now rewrite (bind_run _ _ st st x (get_edge_run _ _ _ He)).
Qed.

Lemma search_loop_done (fuel : nat) (end_node : oid) (current_end : option End)
    (predecessors : pred_map) (cnt : Z) (st : State) :
  search_loop fuel end_node current_end ([], predecessors, cnt) st
  = Ok (Some (current_end, predecessors), st).
Proof. destruct fuel; reflexivity. Qed.

Lemma build_path_done (fuel : nat) (predecessors : pred_map) (pth : list End) :
  build_path fuel predecessors None pth = Ok (Some pth).
Proof. destruct fuel; reflexivity. Qed.

Lemma pred_lookup_head (p : pred_map) (e : End) (v : option End) :
  pred_lookup ((e, v) :: p) e = Some v.
Proof.
  unfold pred_lookup. simpl. now rewrite bool_decide_eq_true_2.
Qed.

Lemma pred_lookup_tail (p : pred_map) (e e' : End) (v : option End) :
  e' <> e -> pred_lookup ((e', v) :: p) e = pred_lookup p e.
Proof.
  intros H. unfold pred_lookup. simpl. now rewrite bool_decide_eq_false_2.
Qed.

(** ** [find_shortest_path] on a single edge *)

Section OneEdge.
Variables (st : State) (a b e : oid) (xa xb : Node.t) (xe : Edge.t).
Hypothesis Ha : node_heap st !! a = Some xa.
Hypothesis Ha_in : Node.incoming xa = [].
Hypothesis Ha_out : Node.outgoing xa = [e].
Hypothesis Hb : node_heap st !! b = Some xb.
Hypothesis Hb_in : Node.incoming xb = [e].
Hypothesis Hb_out : Node.outgoing xb = [].
Hypothesis He : edge_heap st !! e = Some xe.
Hypothesis He_source : Edge._source xe = Some a.
Hypothesis He_target : Edge._target xe = Some b.
Hypothesis He_segments : Edge.segments xe <> [].

Lemma one_edge_ends_source : ends a st = Ok ([source_end e], st).
Proof.
  destruct (Edge.segments xe) as [|seg rest] eqn:Hs; [contradiction|].
  rewrite (ends_run st a xa
             (fun _ => Rabs (angle_between (Pose.direction (Node.pose xa))
                                           (Pose.direction (EdgeSegment.start seg)))));
    rewrite ?Ha_in, ?Ha_out; simpl; auto.
  - intros e' He'. apply list_elem_of_singleton in He' as ->.
    eexists. split; [eapply End_pose_source_run; eauto|reflexivity].
  - intros e' He'. apply list_elem_of_singleton in He' as ->. simpl. eauto.
Qed.

Lemma one_edge_ends_target : ends b st = Ok ([target_end e], st).
Proof.
  destruct (last (Edge.segments xe)) as [seg|] eqn:Hs.
  2:{ apply last_None in Hs. contradiction. }
  rewrite (ends_run st b xb
             (fun _ => Rabs (angle_between (Pose.direction (Node.pose xb))
                                           (Pose.direction (EdgeSegment.end_ seg)))));
    rewrite ?Hb_in, ?Hb_out; simpl; auto.
  - intros e' He'. apply list_elem_of_singleton in He' as ->.
    eexists. split; [eapply End_pose_target_run; eauto|reflexivity].
  - intros e' He'. apply list_elem_of_singleton in He' as ->. simpl. eauto.
Qed.

(** Nothing leads on from the far end of the edge. *)
Lemma one_edge_connected_ends :
  connected_ends b (target_end e) st = Ok ([], st).
Proof.
  unfold connected_ends.
  rewrite (bind_run _ _ _ _ _ one_edge_ends_target). cbv beta.
  rewrite bool_decide_eq_true_2 by (apply list_elem_of_singleton; reflexivity).
  destruct (decide (target_end e = target_end e)); [reflexivity|contradiction].
Qed.

(** The search from [a] for any node other than [b] runs out of entries and
    still answers with the path over the edge. *)
Lemma find_shortest_path_one_edge (fuel : nat) (c : oid) :
  c <> b ->
  find_shortest_path (S fuel) (from_node a) c st
  = Ok (Some (Path.make [source_end e] 0 0), st).
Proof.
  intros Hc. unfold find_shortest_path.
  rewrite (bind_run _ _ _ _ _ one_edge_ends_source). cbv beta.
  cbn [push_starts edge source_end]. rewrite bind_assoc.
  rewrite (bind_run _ _ _ _ _ (Edge_length_run st e xe He He_segments)). cbv beta.
  rewrite mret_bind. cbn [heappush pred_set].
  erewrite bind_run.
  2:{ cbn [search_loop].
      cbn [other_end side source_end edge target_end].
      rewrite (bind_run _ _ _ _ _ (End_node_run st (target_end e) xe He)).
      cbv beta. cbn [side target_end]. rewrite He_target.
      destruct (decide (Some b = Some c)) as [E|_]; [congruence|].
      cbn [not_none]. erewrite bind_run by reflexivity.
      rewrite (bind_run _ _ _ _ _ one_edge_connected_ends). cbv beta.
      cbn [relax_all]. erewrite bind_run by reflexivity.
      apply search_loop_done. }
  cbv beta iota.
  cbn [build_path]. rewrite pred_lookup_head, build_path_done. reflexivity.
Qed.

End OneEdge.

Lemma entry_lt_less (sa sb : R) (ca cb : Z) (ea eb : End) :
  sa < sb -> entry_lt (sa, ca, ea) (sb, cb, eb) = true.
Proof. intros H. unfold entry_lt. destruct (Rlt_dec sa sb); [reflexivity|lra]. Qed.

Lemma entry_lt_greater (sa sb : R) (ca cb : Z) (ea eb : End) :
  sb < sa -> entry_lt (sa, ca, ea) (sb, cb, eb) = false.
Proof.
  intros H. unfold entry_lt. destruct (Rlt_dec sa sb); [lra|].
  destruct (Rlt_dec sb sa); [reflexivity|lra].
Qed.

Lemma entry_lt_asym (x y : entry) : entry_lt x y = true -> entry_lt y x = false.
Proof.
  destruct x as [[sa ca] ea], y as [[sb cb] eb]. unfold entry_lt.
  destruct (Rlt_dec sa sb) as [H|H]; destruct (Rlt_dec sb sa) as [H'|H'];
    intros Hc; try reflexivity; try discriminate; [exfalso; lra|].
  apply Z.ltb_lt in Hc. apply Z.ltb_ge. lia.
Qed.

(** ** [find_shortest_path] on two parallel routes *)

(** *** The ends at a node where two ends meet *)

Lemma End_pose_runs (st : State) (e : End) (x : Edge.t) :
  edge_heap st !! edge e = Some x -> Edge.segments x <> [] ->
  exists p, End_pose e st = Ok (p, st).
Proof.
  intros He Hne. destruct e as [e []]; cbn [edge] in He.
  - destruct (Edge.segments x) as [|seg rest] eqn:Hs; [contradiction|].
    eexists. now apply (End_pose_source_run st e x seg rest).
  - destruct (last (Edge.segments x)) as [seg|] eqn:Hs.
    + eexists. now apply (End_pose_target_run st e x seg).
    + apply last_None in Hs. contradiction.
Qed.

Lemma ends_of_two (st : State) (n : oid) (x : Node.t) (u v : End) :
  node_heap st !! n = Some x -> incident x ≡ₚ [u; v] ->
  (forall e, e ∈ [u; v] ->
     exists y, edge_heap st !! edge e = Some y /\ Edge.segments y <> []) ->
  ends n st = Ok ([u; v], st) \/ ends n st = Ok ([v; u], st).
Proof.
  intros Hn Hperm Hsegs.
  set (key := fun e : End =>
         match End_pose e st with
         | Ok (p, _) => Rabs (angle_between (Pose.direction (Node.pose x))
                                            (Pose.direction p))
         | Raise _ => 0
         end).
  assert (Hin : forall e, e ∈ incident x ->
            exists y, edge_heap st !! edge e = Some y /\ Edge.segments y <> []).
  { intros e He. apply Hsegs. now rewrite <- Hperm. }
  assert (E : ends n st
              = Ok (sort_by_key (map (fun e => (key e, e)) (incident x)), st)).
  { apply (ends_run st n x key Hn).
    - intros e He. destruct (Hin e He) as (y & Hy & Hne).
      destruct (End_pose_runs st e y Hy Hne) as [p Hp].
      exists p. split; [exact Hp|]. unfold key. now rewrite Hp.
    - intros e He. destruct (Hin e He) as (y & Hy & _). now exists y. }
  rewrite E.
  assert (P : sort_by_key (map (fun e => (key e, e)) (incident x)) ≡ₚ [u; v]).
  { rewrite sort_by_key_perm, map_map, map_id. exact Hperm. }
  symmetry in P. apply Permutation_length_2_inv in P as [-> | ->]; auto.
Qed.

(** From one of the two ends the search is led on to the other. *)
Lemma connected_of_two (st : State) (n : oid) (x : Node.t) (u v : End) :
  node_heap st !! n = Some x -> incident x ≡ₚ [u; v] ->
  (forall e, e ∈ [u; v] ->
     exists y, edge_heap st !! edge e = Some y /\ Edge.segments y <> []) ->
  connected_ends n u st = Ok ([v], st).
Proof.
  intros Hn Hperm Hsegs. unfold connected_ends.
  destruct (ends_of_two st n x u v Hn Hperm Hsegs) as [E|E];
    rewrite (bind_run _ _ _ _ _ E); cbv beta.
  - rewrite bool_decide_eq_true_2 by left.
    now destruct (decide (u = u)).
  - rewrite bool_decide_eq_true_2 by (right; left).
    destruct (decide (u = v)) as [->|_]; reflexivity.
Qed.

(** *** What a route says about the store *)

Lemma leg_tracked (st : State) (a b : oid) (e : End) :
  leg st a e b ->
  exists y, edge_heap st !! edge e = Some y /\ Edge.segments y <> [].
Proof. intros (y & Hy & Hne & _). eauto. Qed.

Lemma leg_far_node (st : State) (a b : oid) (e : End) :
  leg st a e b -> End_node (other_end e) st = Ok (Some b, st).
Proof.
  intros (y & Hy & _ & Hside).
  destruct e as [e []]; cbn [side edge other_end] in *.
  - rewrite (End_node_run st (target_end e) y Hy). cbn [side target_end].
    now destruct Hside as [_ ->].
  - rewrite (End_node_run st (source_end e) y Hy). cbn [side source_end].
    now destruct Hside as [_ ->].
Qed.

Lemma leg_length_run (st : State) (e : End) :
  (exists y, edge_heap st !! edge e = Some y /\ Edge.segments y <> []) ->
  Edge_length (edge e) st = Ok (leg_length st e, st).
Proof.
  intros (y & Hy & Hne). unfold leg_length. rewrite Hy.
  now apply Edge_length_run.
Qed.

Lemma leg_length_lookup (st : State) (e : End) (x : Edge.t) :
  edge_heap st !! edge e = Some x ->
  leg_length st e = sum_lengths (Edge.segments x).
Proof. intros H. unfold leg_length. now rewrite H. Qed.

Lemma other_end_edge (e : End) : edge (other_end e) = edge e.
Proof. now destruct e as [e []]. Qed.

(** Every end of a route has an edge with segments. *)
Lemma route_tracked (st : State) (l : list End) :
  forall a b e, route st a l b -> e ∈ l ->
  exists y, edge_heap st !! edge e = Some y /\ Edge.segments y <> [].
Proof.
  induction l as [|e0 l IH]; intros a b e Hr He; [contradiction Hr|].
  cbn [route] in Hr. destruct l as [|e1 l].
  - apply list_elem_of_singleton in He as ->. exact (leg_tracked _ _ _ _ Hr).
  - destruct Hr as (mid & _ & Hleg & _ & Hrest).
    apply elem_of_cons in He as [->|He].
    + exact (leg_tracked _ _ _ _ Hleg).
    + exact (IH mid b e Hrest He).
Qed.

(** At the last end of a route the search has arrived. *)
Lemma route_arrives (st : State) (l : list End) :
  forall a b e, route st a (l ++ [e]) b ->
  End_node (other_end e) st = Ok (Some b, st).
Proof.
  induction l as [|e0 l IH]; intros a b e Hr.
  - exact (leg_far_node _ _ _ _ Hr).
  - change ((e0 :: l) ++ [e]) with (e0 :: (l ++ [e])) in Hr. cbn [route] in Hr.
    destruct (l ++ [e]) as [|e1 l'] eqn:El; [now destruct l|].
    destruct Hr as (mid & _ & _ & _ & Hrest). rewrite <- El in Hrest.
    exact (IH mid b e Hrest).
Qed.

(** At any other end the search comes to a node that is not the target,
    and is led on to the next end of the route. *)
Lemma route_leads_on (st : State) (l : list End) :
  forall a b e e' l', route st a (l ++ e :: e' :: l') b ->
  exists mid, mid <> b
    /\ End_node (other_end e) st = Ok (Some mid, st)
    /\ connected_ends mid (other_end e) st = Ok ([e'], st).
Proof.
  induction l as [|e0 l IH]; intros a b e e' l' Hr.
  - cbn [app route] in Hr. destruct Hr as (mid & Hmid & Hleg & Hjoint & Hrest).
    exists mid. split; [exact Hmid|]. split; [exact (leg_far_node _ _ _ _ Hleg)|].
    destruct Hjoint as (x & Hx & Hperm).
    apply (connected_of_two st mid x _ _ Hx Hperm).
    intros e1 He1. apply elem_of_cons in He1 as [->|He1].
    + rewrite other_end_edge. exact (leg_tracked _ _ _ _ Hleg).
    + apply list_elem_of_singleton in He1 as ->.
      apply (route_tracked st (e' :: l') mid b); [exact Hrest|left].
  - change ((e0 :: l) ++ e :: e' :: l') with (e0 :: (l ++ e :: e' :: l')) in Hr.
    cbn [route] in Hr.
    destruct (l ++ e :: e' :: l') as [|e1 l1] eqn:El; [now destruct l|].
    destruct Hr as (mid & _ & _ & _ & Hrest). rewrite <- El in Hrest.
    exact (IH mid b e e' l' Hrest).
Qed.

(** *** Lengths of routes *)

Lemma route_length_from (st : State) (l : list End) (acc : R) :
  fold_left (fun acc e => acc + leg_length st e) l acc
  = acc + route_length st l.
Proof.
  unfold route_length. revert acc.
  induction l as [|e l IH]; intros acc; cbn [fold_left]; [ring|].
  rewrite (IH (acc + leg_length st e)), (IH (0 + leg_length st e)). ring.
Qed.

Lemma route_length_app (st : State) (l1 l2 : list End) :
  route_length st (l1 ++ l2) = route_length st l1 + route_length st l2.
Proof.
  unfold route_length at 1. rewrite fold_left_app.
  fold (route_length st l1). apply route_length_from.
Qed.

Lemma route_length_snoc (st : State) (l : list End) (e : End) :
  route_length st (l ++ [e]) = route_length st l + leg_length st e.
Proof. unfold route_length. now rewrite fold_left_app. Qed.

Lemma route_length_nonneg (st : State) (l : list End) :
  (forall e, e ∈ l -> 0 <= leg_length st e) -> 0 <= route_length st l.
Proof.
  induction l as [|e l IH] using rev_ind; intros H.
  - unfold route_length. cbn. lra.
  - rewrite route_length_snoc.
    assert (0 <= route_length st l) by (apply IH; intros; apply H; set_solver).
    assert (0 <= leg_length st e) by (apply H; set_solver). lra.
Qed.

(** *** The predecessors *)

Lemma pred_lookup_app (p : pred_map) (e k : End) (v : option End) :
  pred_lookup (p ++ [(e, v)]) k
  = match pred_lookup p k with
    | Some r => Some r
    | None => if decide (e = k) then Some v else None
    end.
Proof.
  induction p as [|[e0 v0] p IH].
  - cbn. unfold pred_lookup. cbn.
    destruct (decide (e = k)) as [->|Hne].
    + now rewrite bool_decide_eq_true_2.
    + now rewrite bool_decide_eq_false_2.
  - change (((e0, v0) :: p) ++ [(e, v)]) with ((e0, v0) :: (p ++ [(e, v)])).
    destruct (decide (e0 = k)) as [->|Hne].
    + now rewrite !pred_lookup_head.
    + now rewrite !pred_lookup_tail by exact Hne.
Qed.

Lemma linked_snoc (p : pred_map) (l : list End) (e e' : End) :
  linked p (l ++ [e]) -> pred_lookup p e' = None ->
  linked (p ++ [(e', Some e)]) ((l ++ [e]) ++ [e']).
Proof.
  intros Hl Hnew i k Hk. rewrite pred_lookup_app.
  destruct (decide (i < length (l ++ [e]))%nat) as [Hi|Hi].
  - rewrite lookup_app_l in Hk by exact Hi. rewrite (Hl i k Hk).
    destruct i as [|j]; [reflexivity|].
    rewrite (lookup_app_l (l ++ [e]) [e']) by lia. reflexivity.
  - rewrite lookup_app_r in Hk by lia.
    destruct (i - length (l ++ [e]))%nat as [|?] eqn:Ei; [|discriminate].
    injection Hk as <-. rewrite Hnew. rewrite decide_True by reflexivity.
    assert (i = length (l ++ [e])) as -> by lia.
    rewrite length_app. cbn [length].
    replace (length l + 1)%nat with (S (length l)) by lia.
    rewrite (lookup_app_l (l ++ [e]) [e']) by (rewrite length_app; cbn; lia).
    rewrite lookup_app_r by lia. now rewrite Nat.sub_diag.
Qed.

(** Along linked predecessors [build_path] collects the ends up to the one
    it starts from. *)
Lemma build_path_linked (p : pred_map) (l : list End) :
  linked p l ->
  forall i e acc fuel, l !! i = Some e -> (i < fuel)%nat ->
  build_path fuel p (Some e) acc = Ok (Some (take (S i) l ++ acc)).
Proof.
  intros Hl. induction i as [|j IH]; intros e acc fuel He Hfuel;
    (destruct fuel as [|fuel]; [lia|]); cbn [build_path]; rewrite (Hl _ e He).
  - rewrite build_path_done. destruct l as [|e0 l]; [discriminate|].
    injection He as ->. reflexivity.
  - destruct (l !! j) as [e'|] eqn:Ej.
    2:{ apply lookup_ge_None in Ej. apply lookup_lt_Some in He. lia. }
    rewrite (IH e' (e :: acc) fuel eq_refl) by lia.
    rewrite (take_S_r l (S j) e He), <- app_assoc. reflexivity.
Qed.

(** *** The search *)

Section TwoRoutes.
Variables (st : State) (s t : oid) (RA RB : list End).
Hypothesis HA : route st s RA t.
Hypothesis HB : route st s RB t.
Hypothesis Hdistinct : NoDup (RA ++ RB).
Hypothesis Hnonneg : forall e, e ∈ RA -> 0 <= leg_length st e.
Hypothesis Hshorter : route_length st RA < route_length st RB.

Lemma prefix_shorter (A1 A2 : list End) (a : End) :
  RA = A1 ++ a :: A2 -> route_length st (A1 ++ [a]) < route_length st RB.
Proof.
  intros E. apply Rle_lt_trans with (route_length st RA); [|exact Hshorter].
  rewrite E. replace (A1 ++ a :: A2) with ((A1 ++ [a]) ++ A2)
    by now rewrite <- app_assoc.
  rewrite (route_length_app st (A1 ++ [a]) A2).
  assert (0 <= route_length st A2); [|lra].
  apply route_length_nonneg. intros e He. apply Hnonneg.
  rewrite E. set_solver.
Qed.

(** The loop of the search, from the moment when the ends up to [a] of the
    one route and up to [b] of the other have been found, and [a] and [b]
    wait in the heap. *)
Lemma search_two_routes (fuel : nat) :
  forall (A1 A2 B1 B2 : list End) (a b : End) (heap : list entry)
         (preds : pred_map) (cnt : Z) (cur : option End),
  RA = A1 ++ a :: A2 -> RB = B1 ++ b :: B2 ->
  (length A2 + length B2 < fuel)%nat ->
  (exists ca cb,
     let ea := (route_length st (A1 ++ [a]), ca, a) in
     let eb := (route_length st (B1 ++ [b]), cb, b) in
     (heap = [ea; eb] /\ entry_lt eb ea = false)
     \/ (heap = [eb; ea] /\ entry_lt ea eb = false)) ->
  linked preds (A1 ++ [a]) ->
  (forall e, e ∉ (A1 ++ [a]) ++ (B1 ++ [b]) -> pred_lookup preds e = None) ->
  exists preds' z,
    search_loop fuel t cur (heap, preds, cnt) st = Ok (Some (Some z, preds'), st)
    /\ last RA = Some z /\ linked preds' RA.
Proof.
  induction fuel as [|fuel IH];
    intros A1 A2 B1 B2 a b heap preds cnt cur EA EB Hfuel Hheap Hlinked Hfresh;
    [lia|].
  destruct Hheap as (ca & cb & Hheap). cbv zeta in Hheap.
  destruct Hheap as [[-> Hord]|[-> Hord]].
  - (* the end [a] of the shorter route is taken *)
    cbn [search_loop]. destruct A2 as [|a' A2].
    + assert (Harr : End_node (other_end a) st = Ok (Some t, st)).
      { apply (route_arrives st A1 s). now rewrite <- EA. }
      rewrite (bind_run _ _ _ _ _ Harr). cbv beta.
      rewrite decide_True by reflexivity.
      exists preds, a. split; [reflexivity|]. rewrite EA.
      split; [apply last_snoc|exact Hlinked].
    + destruct (route_leads_on st A1 s t a a' A2) as (mid & Hmid & Hnode & Hconn);
        [now rewrite <- EA|].
      rewrite (bind_run _ _ _ _ _ Hnode). cbv beta.
      rewrite decide_False by congruence.
      cbn [not_none]. rewrite mret_bind.
      rewrite (bind_run _ _ _ _ _ Hconn). cbv beta.
      assert (Hnew : pred_lookup preds a' = None).
      { apply Hfresh. intros Hin.
        rewrite EA, EB in Hdistinct.
        replace ((A1 ++ a :: a' :: A2) ++ B1 ++ b :: B2)
          with ((A1 ++ [a]) ++ a' :: (A2 ++ B1 ++ b :: B2)) in Hdistinct
          by (rewrite <- !app_assoc; reflexivity).
        apply NoDup_app in Hdistinct as (_ & Hd & Hd').
        apply NoDup_cons in Hd' as [Hd' _].
        apply elem_of_app in Hin as [Hin|Hin]; [exact (Hd a' Hin ltac:(left))|].
        apply Hd'. set_unfold. tauto. }
      assert (Hlen : Edge_length (edge a') st = Ok (leg_length st a', st)).
      { apply leg_length_run. apply (route_tracked st RA s t); [exact HA|].
        rewrite EA. set_solver. }
      cbn [relax_all relax]. rewrite Hnew.
      rewrite !bind_assoc, (bind_run _ _ _ _ _ Hlen). cbv beta.
      rewrite !mret_bind.
      apply (IH (A1 ++ [a]) A2 B1 B2 a' b).
      * rewrite EA, <- app_assoc. reflexivity.
      * exact EB.
      * cbn [length] in Hfuel. lia.
      * exists cnt, cb. cbv zeta. rewrite (route_length_snoc st (A1 ++ [a]) a').
        cbn [heappush].
        destruct (entry_lt (route_length st (A1 ++ [a]) + leg_length st a', cnt, a')
                           (route_length st (B1 ++ [b]), cb, b)) eqn:E.
        -- left. split; [reflexivity|]. now apply entry_lt_asym.
        -- right. split; reflexivity.
      * now apply linked_snoc.
      * intros e He. rewrite pred_lookup_app.
        rewrite Hfresh by (set_unfold; tauto).
        rewrite decide_False; [reflexivity|]. intros <-. apply He. set_solver.
  - (* the end [b] of the longer route is taken: it is not its last *)
    cbn [search_loop]. destruct B2 as [|b' B2].
    + exfalso. pose proof (prefix_shorter A1 A2 a EA) as Hlt.
      rewrite EB in Hlt. rewrite (entry_lt_less _ _ ca cb a b Hlt) in Hord.
      discriminate.
    + destruct (route_leads_on st B1 s t b b' B2) as (mid & Hmid & Hnode & Hconn);
        [now rewrite <- EB|].
      rewrite (bind_run _ _ _ _ _ Hnode). cbv beta.
      rewrite decide_False by congruence.
      cbn [not_none]. rewrite mret_bind.
      rewrite (bind_run _ _ _ _ _ Hconn). cbv beta.
      assert (Hnew : pred_lookup preds b' = None).
      { apply Hfresh. intros Hin.
        rewrite EA, EB in Hdistinct.
        replace ((A1 ++ a :: A2) ++ B1 ++ b :: b' :: B2)
          with (((A1 ++ a :: A2) ++ (B1 ++ [b])) ++ b' :: B2) in Hdistinct
          by (rewrite <- !app_assoc; reflexivity).
        apply NoDup_app in Hdistinct as (_ & Hd & _).
        apply (Hd b'); [|left].
        set_unfold. tauto. }
      assert (Hlen : Edge_length (edge b') st = Ok (leg_length st b', st)).
      { apply leg_length_run. apply (route_tracked st RB s t); [exact HB|].
        rewrite EB. set_solver. }
      cbn [relax_all relax]. rewrite Hnew.
      rewrite !bind_assoc, (bind_run _ _ _ _ _ Hlen). cbv beta.
      rewrite !mret_bind.
      apply (IH A1 A2 (B1 ++ [b]) B2 a b').
      * exact EA.
      * rewrite EB, <- app_assoc. reflexivity.
      * cbn [length] in Hfuel. lia.
      * exists ca, cnt. cbv zeta. rewrite (route_length_snoc st (B1 ++ [b]) b').
        cbn [heappush].
        destruct (entry_lt (route_length st (B1 ++ [b]) + leg_length st b', cnt, b')
                           (route_length st (A1 ++ [a]), ca, a)) eqn:E.
        -- right. split; [reflexivity|]. now apply entry_lt_asym.
        -- left. split; reflexivity.
      * intros i k Hk. rewrite pred_lookup_app, (Hlinked i k Hk). reflexivity.
      * intros e He. rewrite pred_lookup_app.
        rewrite Hfresh by (set_unfold; tauto).
        rewrite decide_False; [reflexivity|]. intros <-. apply He. set_solver.
Qed.

End TwoRoutes.

(** C4. Two routes lead from the start node to the end node, over any number
    of edges each; they are parallel: they share no end, the two of them are
    all that meets at the start node, and at a node between two edges of a
    route nothing else meets.  The lengths of the edges of the one route sum
    to 100, those of the other to 200, and no edge of the first has a negative
    length.  Then [find_shortest_path] from the start node to the end node
    returns the path that consists of exactly the ends of the route of length
    100, in the order of travel, with both offsets zero; as many iterations as
    the two routes have edges suffice. *)
Theorem find_shortest_path_takes_shorter_route (st : State) (s t : oid)
    (xs : Node.t) (a b : End) (A B : list End) (fuel : nat) :
  node_heap st !! s = Some xs -> incident xs ≡ₚ [a; b] ->
  route st s (a :: A) t -> route st s (b :: B) t ->
  NoDup ((a :: A) ++ (b :: B)) ->
  (forall e, e ∈ a :: A -> 0 <= leg_length st e) ->
  route_length st (a :: A) = 100 -> route_length st (b :: B) = 200 ->
  (length A + length B < fuel)%nat ->
  find_shortest_path fuel (from_node s) t st
  = Ok (Some (Path.make (a :: A) 0 0), st).
Proof.
  intros Hs Hperm HA HB Hdistinct Hnonneg H100 H200 Hfuel.
  assert (Hshorter : route_length st (a :: A) < route_length st (b :: B))
    by (rewrite H100, H200; lra).
  assert (Hta : exists y, edge_heap st !! edge a = Some y /\ Edge.segments y <> []).
  { apply (route_tracked st (a :: A) s t); [exact HA|left]. }
  assert (Htb : exists y, edge_heap st !! edge b = Some y /\ Edge.segments y <> []).
  { apply (route_tracked st (b :: B) s t); [exact HB|left]. }
  assert (Hab : a <> b).
  { intros ->. change ((b :: A) ++ b :: B) with (b :: (A ++ b :: B)) in Hdistinct.
    apply NoDup_cons in Hdistinct as [Hd _]. apply Hd.
    apply elem_of_app. right. left. }
  pose proof (leg_length_run st a Hta) as La.
  pose proof (leg_length_run st b Htb) as Lb.
  assert (Ra : route_length st ([] ++ [a]) = leg_length st a)
    by (unfold route_length; cbn [app fold_left]; lra).
  assert (Rb : route_length st ([] ++ [b]) = leg_length st b)
    by (unfold route_length; cbn [app fold_left]; lra).
  assert (Hfresh : forall preds, (forall e, pred_lookup preds e
                     = if decide (e = a) then Some None
                       else if decide (e = b) then Some None else None) ->
            forall e, e ∉ ([] ++ [a]) ++ ([] ++ [b]) -> pred_lookup preds e = None).
  { intros preds Hp e He. rewrite Hp.
    destruct (decide (e = a)) as [->|_]; [exfalso; apply He; left|].
    destruct (decide (e = b)) as [->|_]; [exfalso; apply He; right; left|].
    reflexivity. }
  assert (Hlinked : forall preds, (forall e, pred_lookup preds e
                     = if decide (e = a) then Some None
                       else if decide (e = b) then Some None else None) ->
            linked preds ([] ++ [a])).
  { intros preds Hp i e He. destruct i as [|i]; [|discriminate].
    injection He as <-. rewrite Hp. now rewrite decide_True. }
  assert (Hsearch : forall heap preds cnt,
            (exists ca cb,
               let ea := (route_length st ([] ++ [a]), ca, a) in
               let eb := (route_length st ([] ++ [b]), cb, b) in
               (heap = [ea; eb] /\ entry_lt eb ea = false)
               \/ (heap = [eb; ea] /\ entry_lt ea eb = false)) ->
            (forall e, pred_lookup preds e
                     = if decide (e = a) then Some None
                       else if decide (e = b) then Some None else None) ->
            (found ← search_loop fuel t None (heap, preds, cnt);
             match found with
             | None => mret None
             | Some (current_end, predecessors) =>
                 pth ← lift (build_path fuel predecessors current_end []);
                 mret ((fun ends => Path.make ends 0 0) <$> pth)
             end) st = Ok (Some (Path.make (a :: A) 0 0), st)).
  { intros heap preds cnt Hheap Hp.
    destruct (search_two_routes st s t (a :: A) (b :: B) HA HB Hdistinct Hnonneg
                Hshorter fuel [] A [] B a b heap preds cnt None eq_refl eq_refl
                Hfuel Hheap (Hlinked preds Hp) (Hfresh preds Hp))
      as (preds' & z & Hrun & Hlast & Hl).
    rewrite (bind_run _ _ _ _ _ Hrun). cbv beta iota.
    assert (Hz : (a :: A) !! length A = Some z).
    { rewrite last_lookup in Hlast. exact Hlast. }
    unfold lift. rewrite (build_path_linked preds' (a :: A) Hl (length A) z [] fuel Hz)
      by lia.
    rewrite app_nil_r, take_ge by (cbn [length]; lia). reflexivity. }
  unfold find_shortest_path.
  assert (Hsegs : forall e, e ∈ [a; b] ->
            exists y, edge_heap st !! edge e = Some y /\ Edge.segments y <> []).
  { intros e He. apply elem_of_cons in He as [->|He]; [exact Hta|].
    apply list_elem_of_singleton in He as ->. exact Htb. }
  destruct (ends_of_two st s xs a b Hs Hperm Hsegs) as [E|E];
    rewrite (bind_run _ _ _ _ _ E); cbv beta.
  - cbn [push_starts]. rewrite bind_assoc, (bind_run _ _ _ _ _ La). cbv beta.
    rewrite bind_assoc, (bind_run _ _ _ _ _ Lb). cbv beta.
    cbn [push_starts]. rewrite mret_bind.
    apply Hsearch.
    + exists 0%Z, (0 + 1)%Z. cbv zeta. rewrite Ra, Rb. cbn [heappush].
      destruct (entry_lt (leg_length st b, (0 + 1)%Z, b) (leg_length st a, 0%Z, a))
        eqn:Elt.
      * right. split; [reflexivity|]. now apply entry_lt_asym.
      * left. split; reflexivity.
    + intros e. cbn [pred_set fst]. rewrite decide_False by exact Hab.
      cbn [pred_set].
      destruct (decide (e = a)) as [->|Hea]; [now rewrite pred_lookup_head|].
      rewrite pred_lookup_tail by congruence.
      destruct (decide (e = b)) as [->|Heb]; [now rewrite pred_lookup_head|].
      rewrite pred_lookup_tail by congruence. reflexivity.
  - cbn [push_starts]. rewrite bind_assoc, (bind_run _ _ _ _ _ Lb). cbv beta.
    rewrite bind_assoc, (bind_run _ _ _ _ _ La). cbv beta.
    cbn [push_starts]. rewrite mret_bind.
    apply Hsearch.
    + exists (0 + 1)%Z, 0%Z. cbv zeta. rewrite Ra, Rb. cbn [heappush].
      destruct (entry_lt (leg_length st a, (0 + 1)%Z, a) (leg_length st b, 0%Z, b))
        eqn:Elt.
      * left. split; [reflexivity|]. now apply entry_lt_asym.
      * right. split; reflexivity.
    + intros e. cbn [pred_set fst]. rewrite decide_False by congruence.
      cbn [pred_set].
      destruct (decide (e = a)) as [->|Hea].
      * rewrite pred_lookup_tail by congruence. now rewrite pred_lookup_head.
      * destruct (decide (e = b)) as [->|Heb]; [now rewrite pred_lookup_head|].
        rewrite !pred_lookup_tail by congruence. reflexivity.
Qed.

Lemma find_shortest_path_takes_shorter_route_witness :
  find_shortest_path 4 (from_node 1) 2 Scenario.long_routes
  = Ok (Some (Path.make [source_end 10; source_end 11] 0 0),
        Scenario.long_routes).
Proof.
  apply (find_shortest_path_takes_shorter_route Scenario.long_routes 1 2
           (Scenario.node_at 0 0 [] [10; 12]%positive)
           (source_end 10) (source_end 12) [source_end 11]
           [target_end 13; source_end 14]).
  - reflexivity.
  - reflexivity.
  - exists 3%positive. split; [discriminate|]. split; [|split].
    + eexists. split; [reflexivity|]. split; [discriminate|]. split; reflexivity.
    + eexists. split; reflexivity.
    + eexists. split; [reflexivity|]. split; [discriminate|]. split; reflexivity.
  - exists 4%positive. split; [discriminate|]. split; [|split].
    + eexists. split; [reflexivity|]. split; [discriminate|]. split; reflexivity.
    + eexists. split; reflexivity.
    + exists 5%positive. split; [discriminate|]. split; [|split].
      * eexists. split; [reflexivity|]. split; [discriminate|]. split; reflexivity.
      * eexists. split; reflexivity.
      * eexists. split; [reflexivity|]. split; [discriminate|]. split; reflexivity.
  - repeat (apply NoDup_cons; split;
            [rewrite ?elem_of_cons, elem_of_nil; intros H;
             repeat destruct H as [H|H]; try discriminate; exact H|]).
    apply NoDup_nil_2.
  - intros e He.
    apply elem_of_cons in He as [->|He];
      [|apply list_elem_of_singleton in He as ->];
      erewrite leg_length_lookup by reflexivity;
      unfold sum_lengths; cbn; lra.
  - unfold route_length. cbn [fold_left].
    erewrite !leg_length_lookup by reflexivity.
    unfold sum_lengths. cbn. lra.
  - unfold route_length. cbn [fold_left].
    erewrite !leg_length_lookup by reflexivity.
    unfold sum_lengths. cbn. lra.
  - cbn. lia.
Defined.

(** C1 (the code departs from the claim). In [edge_and_island] node 3 has no
    edge at all, so nothing reaches it; [find_shortest_path] from node 1 to
    node 3 nevertheless returns a path, the one over the only edge. *)
Theorem find_shortest_path_unreachable_not_empty (fuel : nat) :
  degree 3 Scenario.edge_and_island = Ok (O, Scenario.edge_and_island)
  /\ find_shortest_path (S fuel) (from_node 1) 3 Scenario.edge_and_island
     = Ok (Some (Path.make [source_end 4] 0 0), Scenario.edge_and_island).
Proof.
  split; [reflexivity|].
  eapply (find_shortest_path_one_edge Scenario.edge_and_island 1 2 4);
    try reflexivity; discriminate.
Qed.

End GraphModel.

(** * Contraction of edges *)

Section Contraction.
Import Geometry Railgraphs Placement.
Local Open Scope R_scope.

(** ** Directions modulo a full turn *)

Lemma same_direction_refl (a : R) : same_direction a a.
Proof. exists 0%Z. simpl. ring. Qed.

Lemma same_direction_sym (a b : R) : same_direction a b -> same_direction b a.
Proof. intros [k ->]. exists (- k)%Z. rewrite opp_IZR. ring. Qed.

Lemma same_direction_trans (a b c : R) :
  same_direction a b -> same_direction b c -> same_direction a c.
Proof. intros [k ->] [l ->]. exists (k + l)%Z. rewrite plus_IZR. ring. Qed.

Lemma same_direction_plus (a b c d : R) :
  same_direction a b -> same_direction c d -> same_direction (a + c) (b + d).
Proof. intros [k ->] [l ->]. exists (k + l)%Z. rewrite plus_IZR. ring. Qed.


Lemma same_direction_cos (a b : R) : same_direction a b -> cos a = cos b.
Proof.
  intros [k ->]. replace (b + 2 * IZR k * PI) with (b + 2 * IZR k * PI) by ring.
  destruct k as [|p|p].
  - f_equal. simpl. ring.
  - rewrite <- (cos_period b (Pos.to_nat p)). f_equal.
    rewrite INR_IZR_INZ, positive_nat_Z. ring.
  - rewrite <- (cos_period (b + 2 * IZR (Z.neg p) * PI) (Pos.to_nat p)). f_equal.
    rewrite INR_IZR_INZ, positive_nat_Z.
    change (Z.neg p) with (- Z.pos p)%Z. rewrite opp_IZR. ring.
Qed.

Lemma same_direction_sin (a b : R) : same_direction a b -> sin a = sin b.
Proof.
  intros [k ->]. destruct k as [|p|p].
  - f_equal. simpl. ring.
  - rewrite <- (sin_period b (Pos.to_nat p)). f_equal.
    rewrite INR_IZR_INZ, positive_nat_Z. ring.
  - rewrite <- (sin_period (b + 2 * IZR (Z.neg p) * PI) (Pos.to_nat p)). f_equal.
    rewrite INR_IZR_INZ, positive_nat_Z.
    change (Z.neg p) with (- Z.pos p)%Z. rewrite opp_IZR. ring.
Qed.

Lemma fmod_bounds (a m : R) : 0 < m -> 0 <= fmod a m < m.
Proof.
  intros Hm. unfold fmod. destruct (base_Int_part (a / m)) as [Hlo Hhi].
  assert (E : a = a / m * m) by (field; lra).
  split.
  - apply Rmult_le_compat_r with (r := m) in Hlo; [|lra]. lra.
  - assert (H : a / m - IZR (Int_part (a / m)) < 1) by lra.
    apply Rmult_lt_compat_r with (r := m) in H; [|lra]. lra.
Qed.

Lemma fmod_same_direction (a : R) : same_direction (fmod a (2 * PI)) a.
Proof. exists (- Int_part (a / (2 * PI)))%Z. unfold fmod. rewrite opp_IZR. ring. Qed.

Lemma same_direction_fmod (a b : R) :
  same_direction a b -> fmod a (2 * PI) = fmod b (2 * PI).
Proof.
  intros [k ->]. pose proof PI_RGT_0 as Hpi.
  pose proof (fmod_bounds b (2 * PI) ltac:(lra)) as Hb.
  rewrite (fmod_eq _ _ (Int_part (b / (2 * PI)) + k)).
  - unfold fmod. rewrite plus_IZR. ring.
  - lra.
  - unfold fmod in Hb. rewrite plus_IZR. lra.
Qed.

(** ** A reversed segment runs over the same track *)

Lemma straight_true (seg : EdgeSegment.t) :
  EdgeSegment.radius seg = 0 -> EdgeSegment.straight seg = true.
Proof. intros H. unfold EdgeSegment.straight. now destruct (Req_dec_T _ 0). Qed.

Lemma straight_false (seg : EdgeSegment.t) :
  EdgeSegment.radius seg <> 0 -> EdgeSegment.straight seg = false.
Proof. intros H. unfold EdgeSegment.straight. now destruct (Req_dec_T _ 0). Qed.

Lemma reverse_direction (p : Pose.t) :
  same_direction (Pose.direction (Pose.reverse p)) (Pose.direction p + PI).
Proof. unfold Pose.reverse, Pose.make. simpl. apply fmod_same_direction. Qed.

Lemma half_turn_cos (a b : R) : same_direction a (b + PI) -> cos a = - cos b.
Proof. intros H. rewrite (same_direction_cos _ _ H). apply neg_cos. Qed.

Lemma half_turn_sin (a b : R) : same_direction a (b + PI) -> sin a = - sin b.
Proof. intros H. rewrite (same_direction_sin _ _ H). apply neg_sin. Qed.

Lemma travel_straight (seg : EdgeSegment.t) (s : R) :
  EdgeSegment.radius seg = 0 ->
  EdgeSegment.travel seg s
  = Pose.make (Vector.add (Pose.pos (EdgeSegment.start seg))
                          (polar (Pose.direction (EdgeSegment.start seg)) s))
              (Pose.direction (EdgeSegment.start seg)).
Proof. intros H. unfold EdgeSegment.travel. now rewrite straight_true. Qed.

Lemma travel_arc (seg : EdgeSegment.t) (s : R) :
  EdgeSegment.radius seg <> 0 ->
  EdgeSegment.travel seg s
  = Pose.make
      (Vector.add (EdgeSegment.center seg)
         (polar (Pose.direction (EdgeSegment.start seg) + 0.5 * PI
                 - s / EdgeSegment.radius seg) (EdgeSegment.radius seg)))
      (Pose.direction (EdgeSegment.start seg) - s / EdgeSegment.radius seg).
Proof. intros H. unfold EdgeSegment.travel. now rewrite straight_false. Qed.

(** Travelling [len - u] along the reversed segment reaches the point that
    [u] along the segment reaches, facing the other way. *)
Lemma travel_flip (seg : EdgeSegment.t) (u : R) :
  let q := EdgeSegment.travel seg u in
  let q' := EdgeSegment.travel (EdgeSegment.flip seg) (EdgeSegment.length seg - u) in
  Pose.pos q' = Pose.pos q
  /\ same_direction (Pose.direction q') (Pose.direction q + PI).
Proof.
  destruct seg as [i [[px py] d0] len r]. cbv zeta.
  cbn [EdgeSegment.length].
  destruct (Req_dec_T r 0) as [Hr|Hr].
  - subst r.
    rewrite (travel_straight (EdgeSegment.flip _)) by (cbn; ring).
    rewrite (travel_straight (EdgeSegment.make _ _ _ _) u) by reflexivity.
    unfold EdgeSegment.flip, EdgeSegment.end_.
    rewrite (travel_straight _ len) by reflexivity.
    cbn [EdgeSegment.start EdgeSegment.length Pose.pos Pose.direction Pose.make
         Pose.reverse].
    assert (Hdir : same_direction (fmod (fmod d0 (2 * PI) + PI) (2 * PI)) (d0 + PI)).
    { eapply same_direction_trans; [apply fmod_same_direction|].
      apply same_direction_plus; [apply fmod_same_direction|apply same_direction_refl]. }
    split.
    + unfold polar, Vector.add. cbn [Vector.x Vector.y].
      rewrite (half_turn_cos _ _ Hdir), (half_turn_sin _ _ Hdir). f_equal; ring.
    + eapply same_direction_trans; [apply fmod_same_direction|].
      eapply same_direction_trans; [exact Hdir|].
      apply same_direction_plus; [|apply same_direction_refl].
      apply same_direction_sym, fmod_same_direction.
  - rewrite (travel_arc (EdgeSegment.flip _)) by (cbn; lra).
    rewrite (travel_arc (EdgeSegment.make _ _ _ _) u) by exact Hr.
    unfold EdgeSegment.flip, EdgeSegment.end_, EdgeSegment.center.
    rewrite (travel_arc _ len) by exact Hr. unfold EdgeSegment.center.
    cbn [EdgeSegment.start EdgeSegment.length EdgeSegment.radius Pose.pos
         Pose.direction Pose.make Pose.reverse].
    set (d1 := fmod (fmod (d0 - len / r) (2 * PI) + PI) (2 * PI)).
    assert (Hdir : same_direction d1 (d0 - len / r + PI)).
    { eapply same_direction_trans; [apply fmod_same_direction|].
      apply same_direction_plus; [apply fmod_same_direction|apply same_direction_refl]. }
    assert (Hc : same_direction (d1 - 0.5 * PI) (d0 + 0.5 * PI - len / r)).
    { destruct Hdir as [k Hk]. exists k. rewrite Hk. lra. }
    assert (Hb : same_direction (d1 + 0.5 * PI - (len - u) / - r)
                                (d0 + 0.5 * PI - u / r + PI)).
    { destruct Hdir as [k Hk]. exists k. rewrite Hk. field_simplify_eq; [lra|exact Hr]. }
    split.
    + unfold polar, Vector.add. cbn [Vector.x Vector.y].
      rewrite (same_direction_cos _ _ Hc), (same_direction_sin _ _ Hc).
      rewrite (half_turn_cos _ _ Hb), (half_turn_sin _ _ Hb). f_equal; ring.
    + eapply same_direction_trans; [apply fmod_same_direction|].
      eapply same_direction_trans.
      2:{ apply same_direction_plus; [|apply same_direction_refl].
          apply same_direction_sym, fmod_same_direction. }
      destruct Hdir as [k Hk]. exists k. rewrite Hk. field_simplify_eq; [lra|exact Hr].
Qed.

(** ** Lengths of lists of segments *)

Lemma sum_lengths_from (segs : list EdgeSegment.t) (acc : R) :
  fold_left (fun acc seg => acc + EdgeSegment.length seg) segs acc
  = acc + sum_lengths segs.
Proof.
  unfold sum_lengths. revert acc.
  induction segs as [|seg segs IH]; intros acc; simpl; [ring|].
  rewrite (IH (acc + _)), (IH (0 + _)). ring.
Qed.

Lemma sum_lengths_nil : sum_lengths [] = 0.
Proof. reflexivity. Qed.

Lemma sum_lengths_cons (seg : EdgeSegment.t) (segs : list EdgeSegment.t) :
  sum_lengths (seg :: segs) = EdgeSegment.length seg + sum_lengths segs.
Proof. unfold sum_lengths at 1. simpl. rewrite sum_lengths_from. ring. Qed.

Lemma sum_lengths_app (l1 l2 : list EdgeSegment.t) :
  sum_lengths (l1 ++ l2) = sum_lengths l1 + sum_lengths l2.
Proof.
  induction l1 as [|seg l1 IH]; simpl.
  - rewrite sum_lengths_nil. ring.
  - rewrite !sum_lengths_cons, IH. ring.
Qed.

Lemma sum_lengths_flip (segs : list EdgeSegment.t) :
  sum_lengths (flip_segments segs) = sum_lengths segs.
Proof.
  unfold flip_segments. induction segs as [|seg segs IH]; simpl; [reflexivity|].
  rewrite sum_lengths_app, IH, !sum_lengths_cons, sum_lengths_nil. simpl. ring.
Qed.





(** ** The global pose of a pose inside a segment *)







(** ** The view after a flip *)



(** ** The view after a merge *)



(** ** Operations that leave the view alone *)

Lemma M_bind_inv {A B : Type} (m : M A) (k : A -> M B) (st st' : State) (b : B) :
  (m ≫= k) st = Ok (b, st') ->
  exists a st1, m st = Ok (a, st1) /\ k a st1 = Ok (b, st').
Proof.
  unfold mbind, M_bind. destruct (m st) as [[a st1]|err]; [eauto|discriminate].
Qed.

Lemma get_node_inv (n : oid) (st st' : State) (x : Node.t) :
  get_node n st = Ok (x, st') -> st' = st /\ node_heap st !! n = Some x.
Proof.
  unfold get_node. destruct (node_heap st !! n); intros H; inversion H; auto.
Qed.

Lemma get_edge_inv (e : oid) (st st' : State) (x : Edge.t) :
  get_edge e st = Ok (x, st') -> st' = st /\ edge_heap st !! e = Some x.
Proof.
  unfold get_edge. destruct (edge_heap st !! e); intros H; inversion H; auto.
Qed.

Lemma get_object_inv (o : oid) (st st' : State) (x : SceneryObject.t) :
  get_object o st = Ok (x, st') -> st' = st /\ object_heap st !! o = Some x.
Proof.
  unfold get_object. destruct (object_heap st !! o); intros H; inversion H; auto.
Qed.

Lemma lift_inv {A : Type} (r : result A) (st st' : State) (a : A) :
  lift r st = Ok (a, st') -> r = Ok a /\ st' = st.
Proof. unfold lift. destruct r; intros H; inversion H; auto. Qed.

Lemma mret_inv {A : Type} (a b : A) (st st' : State) :
  (mret a : M A) st = Ok (b, st') -> b = a /\ st' = st.
Proof. intros H. injection H as <- <-. auto. Qed.

Lemma keeps_ret {A : Type} (a : A) : keeps (mret a).
Proof. intros st a' st' H. inversion H. reflexivity. Qed.

Lemma keeps_bind {A B : Type} (m : M A) (k : A -> M B) :
  keeps m -> (forall a, keeps (k a)) -> keeps (m ≫= k).
Proof.
  intros Hm Hk st b st' H. apply M_bind_inv in H as (a & st1 & H1 & H2).
  rewrite (Hk a _ _ _ H2). exact (Hm _ _ _ H1).
Qed.

Lemma keeps_get_node (n : oid) : keeps (get_node n).
Proof. intros st a st' H. now apply get_node_inv in H as [-> _]. Qed.






Lemma keeps_raise {A : Type} (e : exn) : keeps (@raise A e).
Proof. intros st a st' H. discriminate. Qed.


Lemma keeps_not_none {A : Type} (o : option A) : keeps (not_none o).
Proof. destruct o; simpl; [apply keeps_ret|apply keeps_raise]. Qed.


Lemma view_edge_lookup (st : State) (e : oid) (x : Edge.t) :
  edge_heap st !! e = Some x ->
  v_edges (view st) !! e = Some (Edge.segments x, Edge.scenery_objects x).
Proof. intros H. unfold view. cbn. now rewrite lookup_fmap, H. Qed.











Lemma keeps_degree (n : oid) : keeps (degree n).
Proof.
  unfold degree. apply keeps_bind; [apply keeps_get_node|].
  intros x. apply keeps_ret.
Qed.

(** ** What [Edge.flip] does to the view *)

Lemma not_none_inv {A : Type} (o : option A) (st st' : State) (a : A) :
  not_none o st = Ok (a, st') -> o = Some a /\ st' = st.
Proof. destruct o; simpl; intros H; inversion H; auto. Qed.

Lemma Edge_length_inv (e : oid) (st st' : State) (len : R) :
  Edge_length e st = Ok (len, st') ->
  st' = st
  /\ forall segs objs, v_edges (view st) !! e = Some (segs, objs) -> segs <> [] ->
       len = sum_lengths segs.
Proof.
  unfold Edge_length. intros H.
  apply M_bind_inv in H as (x & st1 & H1 & H). apply get_edge_inv in H1 as [-> Hx].
  destruct (Edge.segments x) as [|seg segs0] eqn:Hs.
  - apply M_bind_inv in H as (src & st1 & H1 & H). apply not_none_inv in H1 as [_ ->].
    apply M_bind_inv in H as (tgt & st1 & H1 & H). apply not_none_inv in H1 as [_ ->].
    apply M_bind_inv in H as (a & st1 & H1 & H). apply get_node_inv in H1 as [-> _].
    apply M_bind_inv in H as (b & st1 & H1 & H). apply get_node_inv in H1 as [-> _].
    injection H as _ Hst. split; [now symmetry|]. intros segs objs He Hne.
    rewrite (view_edge_lookup st e x Hx) in He. injection He as <- _. congruence.
  - injection H as Hl Hst. split; [now symmetry|]. intros segs objs He _.
    rewrite (view_edge_lookup st e x Hx) in He. injection He as <- _.
    rewrite Hs. now symmetry.
Qed.



Lemma get_vector_inv (c : oid) (st st' : State) (v : Vector.t) :
  get_vector c st = Ok (v, st') -> st' = st /\ vector_heap st !! c = Some v.
Proof.
  unfold get_vector. destruct (vector_heap st !! c); intros H; inversion H; auto.
Qed.








Lemma flip_segments_not_nil (segs : list EdgeSegment.t) :
  segs <> [] -> flip_segments segs <> [].
Proof.
  unfold flip_segments. destruct segs as [|seg segs]; [contradiction|].
  simpl. intros _ E. now apply app_eq_nil in E as [_ E].
Qed.


(** ** [Edge.flip] moves no other edge *)





(** A computation that leaves the nodes alone moves no edge. *)
Lemma others_same_nodes {A : Type} (e : oid) (m : M A) :
  (forall st a st', m st = Ok (a, st') -> node_heap st' = node_heap st) ->
  keeps_others e m.
Proof. intros H st a st' Hm n. unfold others. now rewrite (H st a st' Hm). Qed.

Lemma others_get_node (e n : oid) : keeps_others e (get_node n).
Proof.
  apply others_same_nodes. intros st a st' H. now apply get_node_inv in H as [-> _].
Qed.

















(** ** What the merge of two edges does to the view *)












(** ** One round of [contract_edges] *)







(** ** The global pose of an object, read off the view *)

Lemma view_object_lookup_inv (st : State) (o : oid) (pobj : Placed.t) :
  v_objects (view st) !! o = Some pobj ->
  exists obj v,
    object_heap st !! o = Some obj
    /\ vector_heap st !! PoseRef.pos (SceneryObject.pose obj) = Some v
    /\ pobj = placed_as obj v.
Proof.
  unfold view. cbn [v_objects]. rewrite lookup_omap.
  destruct (object_heap st !! o) as [obj|]; [|discriminate].
  cbn [mbind option_bind]. unfold read_object.
  destruct (vector_heap st !! PoseRef.pos (SceneryObject.pose obj)) as [v|] eqn:Hv;
    [|discriminate].
  cbn [mbind option_bind]. intros [= <-]. eauto.
Qed.

Lemma global_pose_run (o e : oid) (obj : SceneryObject.t) (v : Vector.t)
    (x : Edge.t) (st : State) :
  object_heap st !! o = Some obj ->
  vector_heap st !! PoseRef.pos (SceneryObject.pose obj) = Some v ->
  SceneryObject.relative_to obj = Some e ->
  edge_heap st !! e = Some x ->
  Edge.segments x <> [] ->
  global_pose o st
  = Ok (segments_to_global (Edge.segments x) (Placed.pose (placed_as obj v)) 0
                           true true true, st).
Proof.
  intros Hobj Hv Hrel Hx Hne. unfold global_pose.
  rewrite (bind_run _ _ st st obj) by (unfold get_object; now rewrite Hobj).
  rewrite Hrel.
  rewrite (bind_run _ _ st st (Placed.pose (placed_as obj v))).
  2:{ unfold read_pose.
      rewrite (bind_run _ _ st st v) by (unfold get_vector; now rewrite Hv).
      reflexivity. }
  unfold Edge_to_global, get_edge, mbind, M_bind.
  rewrite Hx. destruct (Edge.segments x); [contradiction|reflexivity].
Qed.


(** ** The graph [bend] *)


Lemma PI_above_3 : 3 < PI.
Proof. pose proof PI2_3_2. lra. Qed.




Lemma to_global_extended (seg : EdgeSegment.t) (other : Pose.t) (offset : R) :
  EdgeSegment.to_global seg other offset true true
  = Some (placed (EdgeSegment.travel seg (Vector.x (Pose.pos other) - offset))
                 other).
Proof.
  unfold EdgeSegment.to_global. cbn [negb]. now rewrite !andb_false_r.
Qed.

Lemma zero_direction : fmod 0 (2 * PI) = 0.
Proof. pose proof PI_RGT_0. apply fmod_small. lra. Qed.






(** ** Objects built on one pose *)

Lemma bend_shared_run :
  contract_edges Scenario.bend_shared
  = Ok ([(2, 4); (5, 4)]%positive, Scenario.bend_shared_contracted).
Proof.
  with_strategy transparent [gmap_empty]
    lazy -[Rplus Rminus Rmult Rdiv Ropp Rinv IZR PI cos sin fmod Pose.make
           Pose.reverse polar sum_lengths EdgeSegment.travel EdgeSegment.end_
           shifted_pose flipped_pose Vector.abs Scenario.line Scenario.curve
           Scenario.on_curve Scenario.beyond_line].
  reflexivity.
Qed.

Lemma bend_shared_fit : edges_fit Scenario.bend_shared.
Proof.
  pose proof PI_above_3 as Hpi.
  split.
  - intros e segs objs He. unfold view in He. cbn [v_edges] in He.
    rewrite lookup_fmap in He. apply fmap_Some in He as (x & Hx & Heq).
    unfold Scenario.bend_shared in Hx. cbn [edge_heap] in Hx.
    apply lookup_insert_Some in Hx as [[<- <-]|[_ Hx]];
      [|apply lookup_insert_Some in Hx as [[<- <-]|[_ Hx]];
        [|now rewrite lookup_empty in Hx]];
      injection Heq as -> ->; cbn; (split; [discriminate|]);
      (split; [repeat constructor; cbn; lra|]).
    + split; [constructor|]. intros o Ho. now apply not_elem_of_nil in Ho.
    + split.
      { apply NoDup_cons. split; [|apply NoDup_singleton].
        intros E%list_elem_of_singleton. discriminate. }
      intros o Ho. apply elem_of_cons in Ho as [->|Ho];
        [|apply list_elem_of_singleton in Ho as ->];
        eexists; (split; [reflexivity|reflexivity]).
  - intros o pobj e Hpobj Hrel.
    destruct (view_object_lookup_inv _ o pobj Hpobj) as (obj & v & Hobj & _ & ->).
    unfold Scenario.bend_shared in Hobj. cbn [object_heap] in Hobj.
    apply lookup_insert_Some in Hobj as [[<- <-]|[_ Hobj]];
      [|apply lookup_insert_Some in Hobj as [[<- <-]|[_ Hobj]];
        [|now rewrite lookup_empty in Hobj]];
      injection Hrel as <-; eexists _, _; (split; [reflexivity|]);
      first [left | right; left].
Qed.

Lemma bend_shared_inside : inside_object Scenario.bend_shared 7.
Proof.
  pose proof PI_above_3 as Hpi.
  eexists _, 5%positive, _, _. split; [reflexivity|].
  split; [reflexivity|]. split; [reflexivity|].
  exists [], Scenario.curve, []. split; [reflexivity|].
  rewrite sum_lengths_nil. cbn. lra.
Qed.

Lemma turned_back (a : R) :
  0 < a < 2 * PI -> fmod (0 + fmod (0 - a) (2 * PI)) (2 * PI) = 2 * PI - a.
Proof.
  intros Ha.
  rewrite (fmod_eq (0 - a) (2 * PI) (-1)); [|lra|simpl; lra].
  rewrite fmod_small; simpl; lra.
Qed.

Lemma shared_before :
  exists p, global_pose 7 Scenario.bend_shared = Ok (Some p, Scenario.bend_shared)
            /\ Pose.direction p = 2 * PI - 1 / 10.
Proof.
  pose proof PI_above_3 as Hpi.
  eexists. split.
  - rewrite (global_pose_run 7 5 _ _ _ Scenario.bend_shared eq_refl eq_refl eq_refl
               eq_refl) by discriminate.
    cbn [Edge.segments Placed.pose segments_to_global andb].
    rewrite to_global_extended. reflexivity.
  - rewrite travel_arc by (cbn; lra).
    unfold placed, Pose.make. cbn. rewrite zero_direction.
    replace ((1 - 0) / 10) with (1 / 10) by lra. apply turned_back. lra.
Qed.

Lemma shared_after :
  exists p, global_pose 7 Scenario.bend_shared_contracted
            = Ok (Some p, Scenario.bend_shared_contracted)
            /\ Pose.direction p = 2 * PI - 21 / 10.
Proof.
  pose proof PI_above_3 as Hpi.
  eexists. split.
  - rewrite (global_pose_run 7 4 _ _ _ Scenario.bend_shared_contracted
               eq_refl eq_refl eq_refl eq_refl) by discriminate.
    cbn [Edge.segments Placed.pose segments_to_global andb].
    assert (Hcut : EdgeSegment.to_global Scenario.line
                     (Placed.pose
                        (placed_as (Scenario.object_on 4 10)
                           (Vector.make (1 + sum_lengths [Scenario.line]
                                           + sum_lengths [Scenario.line]) 2)))
                     0 true false = None).
    { unfold EdgeSegment.to_global. cbn [negb]. rewrite andb_false_r.
      rewrite (bool_decide_eq_true_2 (_ > _)); [reflexivity|].
      unfold sum_lengths. cbn. lra. }
    rewrite Hcut. unfold EdgeSegment.to_global. cbn [negb].
    rewrite andb_false_r. rewrite (bool_decide_eq_false_2 (_ < 0));
      [reflexivity|]. unfold sum_lengths. cbn. lra.
  - rewrite travel_arc by (cbn; lra).
    unfold placed, Pose.make, sum_lengths. cbn. rewrite zero_direction.
    replace ((1 + (0 + 20) + (0 + 20) - (0 + 20)) / 10) with (21 / 10) by lra.
    apply turned_back. lra.
Qed.

(** The condition that no two objects share a vector cannot be left out.
    In [bend_shared] every edge has segments, lists its objects once each,
    and both objects lie inside the curve, at one position: they were built
    on one [Pose].  [contract_edges] moves the one vector on once for each
    object, by 40 in all where the absorbing edge is 20 long, and the
    global pose of the object 7 turns by two radians. *)
Example contract_edges_moves_shared_position :
  edges_fit Scenario.bend_shared /\ inside_object Scenario.bend_shared 7
  /\ exists p p',
    global_pose 7 Scenario.bend_shared = Ok (Some p, Scenario.bend_shared)
    /\ contract_edges Scenario.bend_shared
       = Ok ([(2, 4); (5, 4)]%positive, Scenario.bend_shared_contracted)
    /\ global_pose 7 Scenario.bend_shared_contracted
       = Ok (Some p', Scenario.bend_shared_contracted)
    /\ p <> p'.
Proof.
  split; [exact bend_shared_fit|]. split; [exact bend_shared_inside|].
  destruct shared_before as (p & Hrun & Hd).
  destruct shared_after as (p' & Hrun' & Hd').
  exists p, p'. split; [exact Hrun|]. split; [exact bend_shared_run|].
  split; [exact Hrun'|]. intros E. rewrite E, Hd' in Hd. lra.
Qed.

End Contraction.

(** * Further properties of [geometry.py] *)

Section GeometryFacts.
Import Geometry.
Local Open Scope R_scope.

Lemma full_turn_positive : 0 < 2 * PI.
Proof. pose proof PI_RGT_0. lra. Qed.

Lemma fmod_idempotent (a : R) : fmod (fmod a (2 * PI)) (2 * PI) = fmod a (2 * PI).
Proof. apply fmod_small. apply fmod_bounds. apply full_turn_positive. Qed.

(** [Pose.__init__] keeps the direction modulo a full turn and stores it in
    the range from 0 (included) to [2 pi] (excluded), so that building a
    pose from the fields of a pose changes nothing. *)
Theorem Pose_init_normalises (pos : Vector.t) (direction : R) :
  let p := Pose.make pos direction in
  Pose.pos p = pos
  /\ 0 <= Pose.direction p < 2 * PI
  /\ same_direction (Pose.direction p) direction
  /\ Pose.make (Pose.pos p) (Pose.direction p) = p.
Proof.
  cbv zeta. unfold Pose.make. cbn [Pose.pos Pose.direction].
  split; [reflexivity|]. split; [apply fmod_bounds, full_turn_positive|].
  split; [apply fmod_same_direction|]. now rewrite fmod_idempotent.
Qed.

(** In exact arithmetic (floats read as real numbers): [Pose.reverse] keeps
    the position and turns by half a turn; reversing twice gives the pose
    with its direction normalised, which is the pose itself when it was
    built by [Pose.__init__]. *)
Theorem Pose_reverse_twice (p : Pose.t) :
  Pose.pos (Pose.reverse p) = Pose.pos p
  /\ same_direction (Pose.direction (Pose.reverse p)) (Pose.direction p + PI)
  /\ Pose.reverse (Pose.reverse p) = Pose.make (Pose.pos p) (Pose.direction p).
Proof.
  split; [reflexivity|]. split; [apply reverse_direction|].
  unfold Pose.reverse, Pose.make. cbn [Pose.pos Pose.direction]. f_equal.
  apply same_direction_fmod.
  destruct (fmod_same_direction (Pose.direction p + PI)) as [k Hk].
  exists (k + 1)%Z. rewrite Hk, plus_IZR. simpl. ring.
Qed.

Lemma unit_polar (a : R) : cos a * cos a + sin a * sin a = 1.
Proof. pose proof (sin2_cos2 a) as H. unfold Rsqr in H. lra. Qed.

Lemma vector_there_and_back (self : Pose.t) (p : Vector.t) :
  Pose.to_local_vector self (Pose.to_global_vector self p) = p
  /\ Pose.to_global_vector self (Pose.to_local_vector self p) = p.
Proof.
  destruct self as [[sx sy] d], p as [px py].
  pose proof (unit_polar d) as H.
  unfold Pose.to_local_vector, Pose.to_global_vector, polar, Vector.ortho,
    Vector.add, Vector.sub, Vector.scale, Vector.dot.
  cbn [Pose.pos Pose.direction Vector.x Vector.y].
  split; f_equal; nsatz.
Qed.

(** [Pose.to_local] undoes [Pose.to_global], and the other way round: on a
    vector the round trip gives the vector back, on a pose it gives the pose
    with its direction normalised, which is the pose itself when it was
    built by [Pose.__init__]. *)
Theorem Pose_round_trip (self other : Pose.t) (p : Vector.t) :
  Pose.to_local_vector self (Pose.to_global_vector self p) = p
  /\ Pose.to_global_vector self (Pose.to_local_vector self p) = p
  /\ Pose.to_local self (Pose.to_global self other)
     = Pose.make (Pose.pos other) (Pose.direction other)
  /\ Pose.to_global self (Pose.to_local self other)
     = Pose.make (Pose.pos other) (Pose.direction other).
Proof.
  destruct (vector_there_and_back self p) as [V1 V2].
  split; [exact V1|]. split; [exact V2|].
  destruct (vector_there_and_back self (Pose.pos other)) as [E1 E2].
  unfold Pose.to_local, Pose.to_global, Pose.make.
  cbn [Pose.pos Pose.direction]. rewrite E1, E2. split; f_equal.
  - apply same_direction_fmod.
    destruct (fmod_same_direction (Pose.direction self + Pose.direction other))
      as [k Hk].
    exists k. rewrite Hk. ring.
  - apply same_direction_fmod.
    destruct (fmod_same_direction (Pose.direction other - Pose.direction self))
      as [k Hk].
    exists k. rewrite Hk. ring.
Qed.

Lemma angle_between_bounds (alpha beta : R) :
  - PI <= angle_between alpha beta < PI
  /\ same_direction (alpha + angle_between alpha beta) beta.
Proof.
  unfold angle_between, angle_between'. cbn [as_direction].
  pose proof (fmod_bounds (beta - alpha + PI) (2 * PI) full_turn_positive) as Hb.
  split; [lra|].
  destruct (fmod_same_direction (beta - alpha + PI)) as [k Hk].
  exists k. rewrite Hk. ring.
Qed.

(** In exact arithmetic (floats read as real numbers): [angle_between]
    returns the angle that leads from [alpha] to [beta], in the range from
    [- pi] (included) to [pi] (excluded): the angle to the opposite
    direction is [- pi], never [pi]. *)
Theorem angle_between_range (alpha beta : R) :
  - PI <= angle_between alpha beta < PI
  /\ same_direction (alpha + angle_between alpha beta) beta
  /\ angle_between alpha alpha = 0
  /\ angle_between alpha (alpha + PI) = - PI.
Proof.
  pose proof PI_RGT_0 as Hpi.
  destruct (angle_between_bounds alpha beta) as [Hr Hc].
  split; [exact Hr|]. split; [exact Hc|].
  unfold angle_between, angle_between'. cbn [as_direction]. split.
  - replace (alpha - alpha + PI) with PI by ring.
    rewrite fmod_small by lra. ring.
  - replace (alpha + PI - alpha + PI) with (2 * PI) by ring.
    rewrite (fmod_eq _ _ 1) by (simpl; lra). simpl. ring.
Qed.

Lemma abs_zero (v : Vector.t) : Vector.abs v = 0 -> v = Vector.make 0 0.
Proof.
  destruct v as [vx vy]. unfold Vector.abs. cbn [Vector.x Vector.y]. intros H.
  apply sqrt_eq_0 in H; [|nra].
  assert (vx = 0) by nra. assert (vy = 0) by nra. now subst.
Qed.

(** [Vector.norm] raises [ZeroDivisionError] on the zero vector; on any other
    vector it returns the vector of length 1 that points the same way. *)
Theorem Vector_norm_unit (v : Vector.t) :
  (v = Vector.make 0 0 -> Vector.norm v = Raise ZeroDivisionError)
  /\ (v <> Vector.make 0 0 ->
      exists u, Vector.norm v = Ok u
                /\ Vector.abs u = 1
                /\ Vector.scale u (Vector.abs v) = v).
Proof.
  split.
  - intros ->. unfold Vector.norm, Vector.abs. cbn [Vector.x Vector.y].
    replace (0 ^ 2 + 0 ^ 2) with 0 by ring. rewrite sqrt_0.
    unfold fdiv. destruct (Req_dec_T 0 0); [reflexivity|contradiction].
  - intros Hv.
    assert (Hn : Vector.abs v <> 0) by (intros E; now apply abs_zero in E).
    unfold Vector.norm. rewrite !fdiv_nonzero by exact Hn.
    eexists. split; [reflexivity|].
    destruct v as [vx vy]. unfold Vector.abs in *. cbn [Vector.x Vector.y] in *.
    set (l := sqrt (vx ^ 2 + vy ^ 2)) in *.
    assert (Hl : l * l = vx ^ 2 + vy ^ 2) by (apply sqrt_sqrt; nra).
    split.
    + apply abs_unit. field_simplify_eq; [|exact Hn]. nra.
    + unfold Vector.scale. cbn [Vector.x Vector.y]. f_equal; field; exact Hn.
Qed.

Lemma fdiv_zero (a b : R) : b = 0 -> fdiv a b = Raise ZeroDivisionError.
Proof. intros ->. unfold fdiv. destruct (Req_dec_T 0 0); [reflexivity|contradiction]. Qed.

(** [calculate_arc] divides by zero when the tangent at [p] points at the
    join point, or away from it. *)
Lemma calculate_arc_flat (pm p t_ : Vector.t) (d : R) :
  Vector.dot (Vector.ortho t_) (Vector.sub pm p) = 0 ->
  calculate_arc pm d p t_ = Raise ZeroDivisionError.
Proof.
  intros H. unfold calculate_arc. rewrite fdiv_zero; [reflexivity|].
  rewrite H. ring.
Qed.

(** In exact arithmetic (floats read as real numbers):
    [biarc_interpolation] cannot join two points by a straight line: when
    both tangents point along the line from [p1] to [p2] (or both against
    it), the centre of the first arc is at infinity and the function raises
    [ZeroDivisionError]. *)
Theorem biarc_interpolation_straight_raises (p1 t : Vector.t) (k : R) :
  Vector.abs t = 1 -> k <> 0 ->
  biarc_interpolation p1 t (Vector.add p1 (Vector.scale t k)) t
  = Raise ZeroDivisionError.
Proof.
  intros Ht Hk. apply unit_sqr in Ht.
  unfold biarc_interpolation.
  set (p2 := Vector.add p1 (Vector.scale t k)).
  assert (Hflat : forall d,
            calculate_arc (join_point p1 t p2 t d) d p1 t = Raise ZeroDivisionError).
  { intros d. apply calculate_arc_flat.
    subst p2. destruct p1 as [px py], t as [tx ty].
    unfold join_point, Vector.dot, Vector.ortho, Vector.sub, Vector.add,
      Vector.scale. cbn [Vector.x Vector.y].
    assert (Eh : 0.5 = / 2) by lra. rewrite Eh. field. }
  destruct (Req_dec_T (2 * (1 - Vector.dot t t)) 0) as [_|Hd].
  2:{ exfalso. apply Hd. unfold Vector.dot. rewrite Ht. ring. }
  destruct (Req_dec_T (Vector.dot (Vector.sub p2 p1) (Vector.add t t)) 0)
    as [Hvt|Hvt].
  { exfalso. subst p2. destruct p1 as [px py], t as [tx ty].
    unfold Vector.dot, Vector.sub, Vector.add, Vector.scale in Hvt.
    cbn [Vector.x Vector.y] in *. nra. }
  rewrite fdiv_nonzero by exact Hvt. cbn [mbind result_bind].
  rewrite Hflat. reflexivity.
Qed.

Lemma biarc_interpolation_straight_raises_witness :
  biarc_interpolation (Vector.make 0 0) (Vector.make 1 0)
    (Vector.add (Vector.make 0 0) (Vector.scale (Vector.make 1 0) 10))
    (Vector.make 1 0)
  = Raise ZeroDivisionError.
Proof.
  apply (biarc_interpolation_straight_raises (Vector.make 0 0) (Vector.make 1 0) 10).
  - apply abs_unit. ring.
  - lra.
Defined.

Lemma calculate_arc_outcome (pm p t_ : Vector.t) (d : R) :
  Vector.abs t_ = 1 ->
  (exists r theta, calculate_arc pm d p t_ = Ok (r, theta))
  \/ calculate_arc pm d p t_ = Raise ZeroDivisionError.
Proof.
  intros Ht.
  destruct (Req_dec_T (Vector.dot (Vector.ortho t_) (Vector.sub pm p)) 0) as [E|E].
  - right. now apply calculate_arc_flat.
  - left. now apply calculate_arc_returns.
Qed.

Lemma py_sqrt_nonneg (a : R) : 0 <= a -> py_sqrt a = Ok (sqrt a).
Proof. intros H. unfold py_sqrt. destruct (Rlt_dec a 0); [lra|reflexivity]. Qed.

(** In exact arithmetic [biarc_interpolation] on unit tangents never leaves
    the domain of [math.sqrt] or [math.acos]: it returns, or it raises
    [ZeroDivisionError]. *)
Theorem biarc_interpolation_outcome (p1 t1 p2 t2 : Vector.t) :
  Vector.abs t1 = 1 -> Vector.abs t2 = 1 ->
  (exists b, biarc_interpolation p1 t1 p2 t2 = Ok b)
  \/ biarc_interpolation p1 t1 p2 t2 = Raise ZeroDivisionError.
Proof.
  intros H1 H2.
  assert (Harcs : forall d,
    let pm := join_point p1 t1 p2 t2 d in
    (exists b, ('(r1, theta1) ← calculate_arc pm d p1 t1;
                '(r2, theta2) ← calculate_arc pm d p2 t2;
                Ok (Arcs r1 theta1 r2 theta2)) = Ok b)
    \/ ('(r1, theta1) ← calculate_arc pm d p1 t1;
         '(r2, theta2) ← calculate_arc pm d p2 t2;
         Ok (Arcs r1 theta1 r2 theta2)) = Raise ZeroDivisionError).
  { intros d pm.
    destruct (calculate_arc_outcome pm p1 t1 d H1) as [(r1 & th1 & ->)| ->];
      [|now right].
    destruct (calculate_arc_outcome pm p2 t2 d H2) as [(r2 & th2 & ->)| ->];
      [|now right].
    left. eexists. reflexivity. }
  unfold biarc_interpolation.
  destruct (Req_dec_T (2 * (1 - Vector.dot t1 t2)) 0) as [Hd|Hd].
  - destruct (Req_dec_T _ 0) as [Hvt|Hvt].
    + destruct (Rlt_dec _ 0); left; eexists; reflexivity.
    + rewrite fdiv_nonzero by exact Hvt. cbn [mbind result_bind]. apply Harcs.
  - rewrite py_sqrt_nonneg.
    + cbn [mbind result_bind]. rewrite fdiv_nonzero by exact Hd.
      cbn [mbind result_bind]. apply Harcs.
    + apply Rplus_le_le_0_compat; [apply pow2_ge_0|].
      rewrite Rmult_assoc. apply Rmult_le_pos; [lra|]. apply Rmult_le_pos.
      * apply unit_sqr in H1, H2.
        destruct t1 as [ax ay], t2 as [bx b_y].
        unfold Vector.dot. cbn [Vector.x Vector.y] in *.
        pose proof (Rle_0_sqr (ax - bx)) as Hx.
        pose proof (Rle_0_sqr (ay - b_y)) as Hy. unfold Rsqr in Hx, Hy. lra.
      * unfold Vector.dot.
        pose proof (Rle_0_sqr (Vector.x (Vector.sub p2 p1))) as Hx.
        pose proof (Rle_0_sqr (Vector.y (Vector.sub p2 p1))) as Hy.
        unfold Rsqr in Hx, Hy. lra.
Qed.

Lemma biarc_interpolation_outcome_witness :
  (exists b, biarc_interpolation (Vector.make 0 0) (Vector.make 1 0)
               (Vector.make 10 0) (Vector.make 1 0) = Ok b)
  \/ biarc_interpolation (Vector.make 0 0) (Vector.make 1 0)
        (Vector.make 10 0) (Vector.make 1 0) = Raise ZeroDivisionError.
Proof.
  apply biarc_interpolation_outcome; apply abs_unit; ring.
Defined.

(** ** Polar coordinates *)

Lemma atan_ratio (x y : R) :
  x <> 0 ->
  let r := sqrt (x ^ 2 + y ^ 2) in
  cos (atan (y / x)) = Rabs x / r /\ sin (atan (y / x)) = y / x * Rabs x / r /\ r <> 0.
Proof.
  intros Hx r. rewrite cos_atan, sin_atan.
  set (q := sqrt (1 + (y / x)²)).
  assert (Hq : 0 < q).
  { apply sqrt_lt_R0. pose proof (Rle_0_sqr (y / x)). lra. }
  assert (Hqq : q * q = 1 + (y / x)²).
  { apply sqrt_sqrt. pose proof (Rle_0_sqr (y / x)). lra. }
  assert (Ha : 0 < Rabs x) by now apply Rabs_pos_lt.
  assert (Er : r = q * Rabs x).
  { apply sqrt_lem_1.
    - nra.
    - nra.
    - replace (q * Rabs x * (q * Rabs x)) with (q * q * (Rabs x * Rabs x)) by ring.
      rewrite Hqq. replace (Rabs x * Rabs x) with (x * x)
        by (unfold Rabs; destruct (Rcase_abs x); ring).
      unfold Rsqr. field. exact Hx. }
  assert (Hr : r <> 0) by (rewrite Er; nra).
  repeat split; [| |exact Hr]; rewrite Er; field; lra.
Qed.

Lemma atan2_cos_sin (x y : R) :
  (x <> 0 \/ y <> 0) ->
  let r := sqrt (x ^ 2 + y ^ 2) in
  cos (atan2 y x) * r = x /\ sin (atan2 y x) * r = y.
Proof.
  intros Hxy r. unfold atan2.
  destruct (Rlt_dec 0 x) as [Hpos|Hnpos].
  - destruct (atan_ratio x y ltac:(lra)) as (Hc & Hs & Hr). fold r in Hc, Hs, Hr.
    rewrite Hc, Hs, Rabs_pos_eq by lra. split; field; lra.
  - destruct (Rlt_dec x 0) as [Hneg|Hnneg].
    + destruct (atan_ratio x y ltac:(lra)) as (Hc & Hs & Hr). fold r in Hc, Hs, Hr.
      rewrite Rabs_left in Hc, Hs by exact Hneg.
      destruct (Rle_dec 0 y).
      * rewrite neg_cos, neg_sin, Hc, Hs. split; field; lra.
      * unfold Rminus. rewrite cos_plus, sin_plus, cos_neg, sin_neg, cos_PI, sin_PI.
        rewrite Hc, Hs. split; field; lra.
    + assert (x = 0) as -> by lra.
      assert (Er : r = Rabs y).
      { unfold r. replace (0 ^ 2 + y ^ 2) with (y²) by (unfold Rsqr; ring).
        apply sqrt_Rsqr_abs. }
      destruct (Rlt_dec 0 y) as [Hy|Hy].
      * rewrite cos_PI2, sin_PI2, Er, Rabs_pos_eq by lra. split; ring.
      * destruct (Rlt_dec y 0) as [Hy'|Hy']; [|exfalso; destruct Hxy; lra].
        rewrite cos_neg, sin_neg, cos_PI2, sin_PI2, Er, Rabs_left by lra.
        split; ring.
Qed.

Lemma polar_alpha_abs (v : Vector.t) : polar (Vector.alpha v) (Vector.abs v) = v.
Proof.
  destruct v as [vx vy]. unfold polar, Vector.alpha, Vector.abs.
  cbn [Vector.x Vector.y].
  destruct (Req_dec_T vx 0) as [Ex|Ex]; [destruct (Req_dec_T vy 0) as [Ey|Ey]|].
  - subst. replace (0 ^ 2 + 0 ^ 2) with 0 by ring. rewrite sqrt_0. f_equal; ring.
  - destruct (atan2_cos_sin vx vy (or_intror Ey)) as [-> ->]. reflexivity.
  - destruct (atan2_cos_sin vx vy (or_introl Ex)) as [-> ->]. reflexivity.
Qed.

(** A vector is given back by its direction and its length:
    [polar(v.alpha(), abs(v)) == v], the zero vector included. *)
Theorem polar_of_alpha_and_abs (v : Vector.t) :
  polar (Vector.alpha v) (Vector.abs v) = v.
Proof. apply polar_alpha_abs. Qed.

Lemma atan2_range (x y : R) : - PI < atan2 y x <= PI.
Proof.
  pose proof PI_RGT_0 as Hpi. unfold atan2.
  pose proof (atan_bound (y / x)) as Hb.
  destruct (Rlt_dec 0 x) as [Hpos|Hnpos]; [lra|].
  destruct (Rlt_dec x 0) as [Hneg|Hnneg].
  - destruct (Rle_dec 0 y) as [Hy|Hy].
    + assert (Hq : y / x <= 0).
      { pose proof (Rinv_lt_0_compat x Hneg). unfold Rdiv. nra. }
      assert (Hat : atan (y / x) <= 0).
      { rewrite <- atan_0. destruct Hq as [Hq|Hq].
        - apply Rlt_le, atan_increasing, Hq.
        - rewrite Hq. lra. }
      lra.
    + assert (Hq : 0 < y / x).
      { pose proof (Rinv_lt_0_compat x Hneg). unfold Rdiv. nra. }
      assert (Hat : 0 < atan (y / x)).
      { rewrite <- atan_0. apply atan_increasing, Hq. }
      lra.
  - destruct (Rlt_dec 0 y); [lra|]. destruct (Rlt_dec y 0); lra.
Qed.

Lemma alpha_polar (a r : R) :
  0 < r ->
  same_direction (Vector.alpha (polar a r)) a
  /\ - PI < Vector.alpha (polar a r) <= PI
  /\ Vector.abs (polar a r) = r.
Proof.
  intros Hr. pose proof (unit_polar a) as Hu.
  assert (Habs : Vector.abs (polar a r) = r).
  { unfold Vector.abs, polar. cbn [Vector.x Vector.y].
    replace ((cos a * r) ^ 2 + (sin a * r) ^ 2)
      with ((cos a * cos a + sin a * sin a) * (r * r)) by ring.
    rewrite Hu, Rmult_1_l. apply sqrt_square. lra. }
  split; [|split; [apply atan2_range|exact Habs]].
  apply polar_same_direction.
  pose proof (polar_alpha_abs (polar a r)) as E. rewrite Habs in E.
  unfold polar in *. injection E as Ex Ey. f_equal; nra.
Qed.

(** In exact arithmetic (floats read as real numbers): [Vector.alpha] of a
    vector built by [polar] with a positive length is the direction it was
    built from, brought into the range from [- pi] (excluded) to [pi]
    (included); its length is the length given. *)
Theorem alpha_of_polar (a r : R) :
  0 < r ->
  same_direction (Vector.alpha (polar a r)) a
  /\ - PI < Vector.alpha (polar a r) <= PI
  /\ Vector.abs (polar a r) = r.
Proof. apply alpha_polar. Qed.

Lemma alpha_of_polar_witness :
  same_direction (Vector.alpha (polar 7 2)) 7
  /\ - PI < Vector.alpha (polar 7 2) <= PI
  /\ Vector.abs (polar 7 2) = 2.
Proof. apply (alpha_of_polar 7 2). lra. Defined.

End GeometryFacts.

(** * Further properties of track segments *)

Section SegmentFacts.
Import Geometry Railgraphs Tracks.
Local Open Scope R_scope.

Lemma polar_quarter_turn (a r : R) :
  polar (a + 0.5 * PI) r = Vector.ortho (polar a r).
Proof.
  unfold polar, Vector.ortho. cbn [Vector.x Vector.y].
  replace (a + 0.5 * PI) with (a + PI / 2) by lra.
  rewrite cos_plus, sin_plus, cos_PI2, sin_PI2. f_equal; ring.
Qed.

Lemma polar_quarter_back (a r : R) :
  polar (a - 0.5 * PI) r = Vector.neg (Vector.ortho (polar a r)).
Proof.
  unfold polar, Vector.ortho, Vector.neg. cbn [Vector.x Vector.y].
  replace (a - 0.5 * PI) with (a - PI / 2) by lra.
  rewrite cos_minus, sin_minus, cos_PI2, sin_PI2. f_equal; ring.
Qed.

Lemma travel_nothing (seg : EdgeSegment.t) :
  EdgeSegment.travel seg 0
  = Pose.make (Pose.pos (EdgeSegment.start seg))
              (Pose.direction (EdgeSegment.start seg)).
Proof.
  destruct seg as [i [[px py] d0] len r].
  destruct (Req_dec_T r 0) as [Hr|Hr].
  - rewrite travel_straight by exact Hr.
    cbn [EdgeSegment.start Pose.pos Pose.direction]. f_equal.
    unfold polar, Vector.add. cbn [Vector.x Vector.y]. f_equal; ring.
  - rewrite travel_arc by exact Hr. unfold EdgeSegment.center.
    cbn [EdgeSegment.start EdgeSegment.radius Pose.pos Pose.direction].
    replace (0 / r) with 0 by (field; exact Hr). rewrite !Rminus_0_r. f_equal.
    rewrite polar_quarter_turn, polar_quarter_back.
    unfold polar, Vector.add, Vector.ortho, Vector.neg.
    cbn [Vector.x Vector.y]. f_equal; ring.
Qed.

Lemma abs_scaled_unit (a r : R) : Vector.abs (polar a r) = Rabs r.
Proof.
  unfold Vector.abs, polar. cbn [Vector.x Vector.y].
  replace ((cos a * r) ^ 2 + (sin a * r) ^ 2)
    with ((cos a * cos a + sin a * sin a) * r²) by (unfold Rsqr; ring).
  rewrite unit_polar, Rmult_1_l. apply sqrt_Rsqr_abs.
Qed.

Lemma sub_add_cancel (a b : Vector.t) : Vector.sub (Vector.add a b) a = b.
Proof.
  destruct a, b. unfold Vector.sub, Vector.add. cbn [Vector.x Vector.y].
  f_equal; ring.
Qed.

(** In exact arithmetic (floats read as real numbers): travelling no
    distance along a segment gives its start pose, its direction
    normalised.  A straight segment is followed at unit speed from its
    start, and every point of an arc lies on the circle around [center()]
    with the radius of the segment. *)
Theorem EdgeSegment_travel_distance (seg : EdgeSegment.t) (s : R) :
  EdgeSegment.travel seg 0
  = Pose.make (Pose.pos (EdgeSegment.start seg))
              (Pose.direction (EdgeSegment.start seg))
  /\ (EdgeSegment.radius seg = 0 ->
      Vector.abs (Vector.sub (Pose.pos (EdgeSegment.travel seg s))
                             (Pose.pos (EdgeSegment.start seg))) = Rabs s)
  /\ (EdgeSegment.radius seg <> 0 ->
      Vector.abs (Vector.sub (Pose.pos (EdgeSegment.travel seg s))
                             (EdgeSegment.center seg))
      = Rabs (EdgeSegment.radius seg)).
Proof.
  split; [apply travel_nothing|]. split; intros Hr.
  - rewrite travel_straight by exact Hr. cbn [Pose.make Pose.pos].
    rewrite sub_add_cancel. apply abs_scaled_unit.
  - rewrite travel_arc by exact Hr. cbn [Pose.make Pose.pos].
    rewrite sub_add_cancel. apply abs_scaled_unit.
Qed.

Lemma flip_twice_segment (seg : EdgeSegment.t) :
  EdgeSegment.flip (EdgeSegment.flip seg)
  = EdgeSegment.make (EdgeSegment.id seg)
      (Pose.make (Pose.pos (EdgeSegment.start seg))
                 (Pose.direction (EdgeSegment.start seg)))
      (EdgeSegment.length seg) (EdgeSegment.radius seg).
Proof.
  destruct (travel_flip seg 0) as [Hp0 Hd0]. rewrite Rminus_0_r in Hp0, Hd0.
  rewrite travel_nothing in Hp0, Hd0. cbn [Pose.make Pose.pos Pose.direction] in *.
  unfold EdgeSegment.flip at 1.
  cbn [EdgeSegment.flip EdgeSegment.id EdgeSegment.length EdgeSegment.radius].
  rewrite Ropp_involutive. f_equal.
  unfold EdgeSegment.end_ at 1, Pose.reverse, Pose.make.
  cbn [EdgeSegment.length EdgeSegment.flip] in *.
  cbn [Pose.pos Pose.direction]. rewrite Hp0. f_equal.
  apply same_direction_fmod.
  destruct Hd0 as [k Hk]. rewrite Hk.
  destruct (fmod_same_direction (Pose.direction (EdgeSegment.start seg))) as [j Hj].
  exists (k + j + 1)%Z. rewrite Hj, !plus_IZR. simpl. ring.
Qed.

(** In exact arithmetic (floats read as real numbers): [EdgeSegment.flip]
    keeps the track: the point at [length - u] of the reversed segment is
    the point at [u] of the segment, passed the other way; and reversing
    twice gives the segment back, its start direction normalised. *)
Theorem EdgeSegment_flip_reverses (seg : EdgeSegment.t) (u : R) :
  Pose.pos (EdgeSegment.travel (EdgeSegment.flip seg) (EdgeSegment.length seg - u))
  = Pose.pos (EdgeSegment.travel seg u)
  /\ same_direction
       (Pose.direction
          (EdgeSegment.travel (EdgeSegment.flip seg) (EdgeSegment.length seg - u)))
       (Pose.direction (EdgeSegment.travel seg u) + PI)
  /\ EdgeSegment.flip (EdgeSegment.flip seg)
     = EdgeSegment.make (EdgeSegment.id seg)
         (Pose.make (Pose.pos (EdgeSegment.start seg))
                    (Pose.direction (EdgeSegment.start seg)))
         (EdgeSegment.length seg) (EdgeSegment.radius seg).
Proof.
  destruct (travel_flip seg u) as [Hp Hd]. split; [exact Hp|]. split; [exact Hd|].
  apply flip_twice_segment.
Qed.

(** ** From global coordinates back to local ones *)

Lemma polar_same (a b r : R) : same_direction a b -> polar a r = polar b r.
Proof.
  intros H. unfold polar.
  now rewrite (same_direction_cos _ _ H), (same_direction_sin _ _ H).
Qed.

Lemma polar_other_way (a r : R) : polar a r = polar (a + PI) (- r).
Proof. unfold polar. rewrite neg_cos, neg_sin. f_equal; ring. Qed.

Lemma polar_sum (a r y : R) :
  Vector.add (polar a r) (Vector.scale (polar a 1) y) = polar a (r + y).
Proof.
  unfold polar, Vector.add, Vector.scale. cbn [Vector.x Vector.y]. f_equal; ring.
Qed.

Lemma fmod_of_same (a b : R) :
  same_direction a b -> 0 <= b < 2 * PI -> fmod a (2 * PI) = b.
Proof.
  intros H Hb. rewrite (same_direction_fmod _ _ H). now apply fmod_small.
Qed.

Lemma add_sub_assoc (c u w : Vector.t) :
  Vector.sub (Vector.add (Vector.add c u) w) c = Vector.add u w.
Proof.
  destruct c, u, w. unfold Vector.sub, Vector.add. cbn [Vector.x Vector.y].
  f_equal; ring.
Qed.

(** The point that [to_global] reaches from the arc, seen from the centre. *)
Lemma arc_point (seg : EdgeSegment.t) (x y : R) :
  EdgeSegment.radius seg <> 0 ->
  let q := EdgeSegment.travel seg x in
  Vector.sub
    (Vector.add (Pose.pos q)
                (Vector.scale (Vector.ortho (polar (Pose.direction q) 1)) y))
    (EdgeSegment.center seg)
  = polar (Pose.direction (EdgeSegment.start seg) + 0.5 * PI
           - x / EdgeSegment.radius seg)
          (EdgeSegment.radius seg + y).
Proof.
  intros Hr. cbv zeta. rewrite travel_arc by exact Hr.
  cbn [Pose.make Pose.pos Pose.direction]. rewrite add_sub_assoc.
  rewrite <- polar_quarter_turn.
  set (d0 := Pose.direction (EdgeSegment.start seg)).
  set (r := EdgeSegment.radius seg) in *.
  rewrite (polar_same (fmod (d0 - x / r) (2 * PI) + 0.5 * PI) (d0 + 0.5 * PI - x / r)).
  - apply polar_sum.
  - destruct (fmod_same_direction (d0 - x / r)) as [k Hk]. exists k. rewrite Hk. ring.
Qed.

Lemma to_local_arc (seg : EdgeSegment.t) (v : Vector.t) (offset : R)
    (extend_before extend_after : bool) :
  let x := Vector.x v - offset in
  let y := Vector.y v in
  let r := EdgeSegment.radius seg in
  r <> 0 ->
  0 <= x <= EdgeSegment.length seg ->
  EdgeSegment.length seg < 2 * PI * Rabs r ->
  (0 < r -> - r < y) -> (r < 0 -> y < - r) ->
  let q := EdgeSegment.travel seg x in
  to_local_vector seg
    (Vector.add (Pose.pos q)
                (Vector.scale (Vector.ortho (polar (Pose.direction q) 1)) y))
    offset extend_before extend_after
  = Some v.
Proof.
  intros x y r Hr Hx Hlen Hpos Hneg q. pose proof PI_RGT_0 as Hpi.
  unfold to_local_vector. rewrite straight_false by exact Hr.
  unfold arc_coordinates. subst q. rewrite arc_point by exact Hr.
  fold r. set (d0 := Pose.direction (EdgeSegment.start seg)).
  set (beta := d0 + 0.5 * PI - x / r).
  assert (Hv : Vector.make (offset + x) y = v).
  { destruct v as [vx vy]. subst x y. cbn [Vector.x Vector.y]. f_equal. ring. }
  destruct (Rdichotomy _ _ Hr) as [Hrn|Hrp].
  - (* a left curve: the centre is on the left *)
    rewrite bool_decide_eq_false_2 by lra.
    rewrite (polar_other_way beta (r + y)).
    destruct (alpha_polar (beta + PI) (- (r + y))) as (Ha & _ & Hd);
      [specialize (Hneg Hrn); lra|].
    rewrite Hd.
    assert (Hq : 0 <= x / - r < 2 * PI).
    { rewrite Rabs_left in Hlen by exact Hrn. split.
      - apply Rmult_le_pos; [lra|]. apply Rlt_le, Rinv_0_lt_compat. lra.
      - apply (Rmult_lt_reg_r (- r)); [lra|]. field_simplify; lra. }
    rewrite (fmod_of_same _ (x / - r)); [|
      destruct Ha as [k Hk]; exists (k + 1)%Z; rewrite Hk, plus_IZR; subst beta;
      simpl; field_simplify_eq; lra | exact Hq].
    rewrite Rabs_left by exact Hrn.
    replace (x / - r * - r) with x by (field; lra).
    rewrite bool_decide_eq_true_2 by lra.
    rewrite <- Hv. do 2 f_equal. ring.
  - (* a right curve: the centre is on the right *)
    rewrite bool_decide_eq_true_2 by lra.
    destruct (alpha_polar beta (r + y)) as (Ha & _ & Hd);
      [specialize (Hpos Hrp); lra|].
    rewrite Hd.
    assert (Hq : 0 <= x / r < 2 * PI).
    { rewrite Rabs_right in Hlen by lra. split.
      - apply Rmult_le_pos; [lra|]. apply Rlt_le, Rinv_0_lt_compat. lra.
      - apply (Rmult_lt_reg_r r); [lra|]. field_simplify; lra. }
    rewrite (fmod_of_same _ (x / r)); [|
      destruct Ha as [k Hk]; exists (- k)%Z; rewrite Hk, opp_IZR; subst beta;
      field_simplify_eq; lra | exact Hq].
    rewrite Rabs_right by lra.
    replace (x / r * r) with x by (field; lra).
    rewrite bool_decide_eq_true_2 by lra.
    rewrite <- Hv. do 2 f_equal. ring.
Qed.

Lemma to_local_straight (seg : EdgeSegment.t) (v : Vector.t) (offset : R)
    (extend_before extend_after : bool) :
  let x := Vector.x v - offset in
  let y := Vector.y v in
  EdgeSegment.radius seg = 0 ->
  0 <= x <= EdgeSegment.length seg ->
  let q := EdgeSegment.travel seg x in
  to_local_vector seg
    (Vector.add (Pose.pos q)
                (Vector.scale (Vector.ortho (polar (Pose.direction q) 1)) y))
    offset extend_before extend_after
  = Some v.
Proof.
  intros x y Hr Hx q. unfold to_local_vector. rewrite straight_true by exact Hr.
  subst q. rewrite travel_straight by exact Hr.
  cbn [Pose.make Pose.pos Pose.direction].
  set (d0 := Pose.direction (EdgeSegment.start seg)).
  rewrite (polar_same (fmod d0 (2 * PI)) d0 1) by apply fmod_same_direction.
  assert (E : Pose.to_local_vector (EdgeSegment.start seg)
                (Vector.add (Vector.add (Pose.pos (EdgeSegment.start seg)) (polar d0 x))
                            (Vector.scale (Vector.ortho (polar d0 1)) y))
              = Vector.make x y).
  { pose proof (unit_polar d0) as Hu. subst d0.
    destruct (EdgeSegment.start seg) as [[px py] d0].
    unfold Pose.to_local_vector, polar, Vector.ortho, Vector.add, Vector.sub,
      Vector.scale, Vector.dot.
    cbn [Pose.pos Pose.direction Vector.x Vector.y] in *. f_equal; nsatz. }
  unfold in_frame_vector. rewrite E. cbn [Vector.x Vector.y].
  rewrite (bool_decide_eq_false_2 (x < 0)) by lra.
  rewrite (bool_decide_eq_false_2 (x > _)) by lra. cbn [andb].
  destruct v as [vx vy]. subst x y. cbn [Vector.x Vector.y]. do 2 f_equal. ring.
Qed.

(** In exact arithmetic (floats read as real numbers):
    [EdgeSegment.to_local] undoes [EdgeSegment.to_global] for a point along
    the segment: its offset lies within the segment and, on an arc, the arc
    is less than a full circle and the point is on the near side of the
    centre. *)
Theorem EdgeSegment_to_local_undoes_to_global (seg : EdgeSegment.t)
    (v : Vector.t) (offset : R) (extend_before extend_after : bool) :
  let x := Vector.x v - offset in
  let y := Vector.y v in
  let r := EdgeSegment.radius seg in
  0 <= x <= EdgeSegment.length seg ->
  (r <> 0 -> EdgeSegment.length seg < 2 * PI * Rabs r) ->
  (0 < r -> - r < y) -> (r < 0 -> y < - r) ->
  exists p,
    to_global_vector seg v offset extend_before extend_after = Some p
    /\ to_local_vector seg p offset extend_before extend_after = Some v.
Proof.
  intros x y r Hx Hlen Hpos Hneg.
  eexists. split.
  - unfold to_global_vector. fold x y.
    rewrite (bool_decide_eq_false_2 (x < 0)) by lra.
    rewrite (bool_decide_eq_false_2 (x > _)) by lra. reflexivity.
  - destruct (Req_dec_T r 0) as [Hr|Hr].
    + now apply to_local_straight.
    + apply to_local_arc; auto.
Qed.

Lemma EdgeSegment_to_local_undoes_to_global_witness :
  exists p,
    to_global_vector Scenario.curve (Vector.make 1 2) 0 true true = Some p
    /\ to_local_vector Scenario.curve p 0 true true = Some (Vector.make 1 2).
Proof.
  pose proof PI_above_3 as Hpi.
  apply (EdgeSegment_to_local_undoes_to_global Scenario.curve (Vector.make 1 2) 0);
    cbn; try lra.
  intros _. rewrite Rabs_right by lra. lra.
Defined.

End SegmentFacts.

(** * Further properties of edges, nodes and paths *)

Section EdgeFacts.
Import Geometry Railgraphs Placement Tracks.
Local Open Scope R_scope.

(** ** [Edge.to_global] and [Edge.travel] *)

Lemma to_global_accepts (seg : EdgeSegment.t) (other : Pose.t) (offset : R)
    (extend_before extend_after : bool) :
  let x := Vector.x (Pose.pos other) - offset in
  (extend_before = true \/ 0 <= x) ->
  (extend_after = true \/ x <= EdgeSegment.length seg) ->
  EdgeSegment.to_global seg other offset extend_before extend_after
  = Some (placed (EdgeSegment.travel seg x) other).
Proof.
  intros x Hb Ha. unfold EdgeSegment.to_global. fold x.
  assert (E1 : bool_decide (x < 0) && negb extend_before = false).
  { destruct Hb as [->|Hb]; [apply andb_false_r|].
    rewrite bool_decide_eq_false_2 by lra. reflexivity. }
  assert (E2 : bool_decide (x > EdgeSegment.length seg) && negb extend_after = false).
  { destruct Ha as [->|Ha]; [apply andb_false_r|].
    rewrite bool_decide_eq_false_2 by lra. reflexivity. }
  rewrite E1, E2. reflexivity.
Qed.

Lemma to_global_rejects (seg : EdgeSegment.t) (other : Pose.t) (offset : R)
    (extend_before : bool) :
  Vector.x (Pose.pos other) - offset > EdgeSegment.length seg ->
  EdgeSegment.to_global seg other offset extend_before false = None.
Proof.
  intros H. unfold EdgeSegment.to_global.
  destruct (bool_decide _ && negb extend_before); [reflexivity|].
  rewrite bool_decide_eq_true_2 by exact H. reflexivity.
Qed.

(** A pose on the track, looking along it, is placed where [travel] goes. *)
Lemma placed_on_track (seg : EdgeSegment.t) (u s : R) :
  placed (EdgeSegment.travel seg u) (Pose.make (Vector.make s 0) 0)
  = EdgeSegment.travel seg u.
Proof.
  assert (E : forall P D, placed (Pose.make P D) (Pose.make (Vector.make s 0) 0)
                          = Pose.make P D).
  { intros [px py] D. unfold placed, Pose.make.
    cbn [Pose.pos Pose.direction Vector.x Vector.y].
    rewrite zero_direction, Rplus_0_l, fmod_idempotent. f_equal.
    unfold Vector.add, Vector.scale. cbn [Vector.x Vector.y]. f_equal; ring. }
  unfold EdgeSegment.travel. destruct (EdgeSegment.straight seg); apply E.
Qed.

Lemma segments_to_global_travel (s : R) (segs : list EdgeSegment.t) :
  forall (offset : R) (first : bool),
  segs <> [] -> (first = true \/ 0 <= s - offset) ->
  segments_to_global segs (Pose.make (Vector.make s 0) 0) offset true true first
  = segments_travel segs (s - offset).
Proof.
  induction segs as [|seg rest IH]; intros offset first Hne Hfirst;
    [contradiction|].
  cbn [segments_to_global segments_travel].
  destruct rest as [|seg' rest].
  - rewrite to_global_accepts; cbn [Pose.make Pose.pos Vector.x andb].
    + now rewrite placed_on_track.
    + destruct Hfirst as [->|H]; [now left|now right].
    + now left.
  - cbn [andb]. case_bool_decide as Hs.
    + rewrite to_global_accepts; cbn [Pose.make Pose.pos Vector.x].
      * now rewrite placed_on_track.
      * destruct Hfirst as [->|H]; [now left|now right].
      * now right.
    + rewrite to_global_rejects by (cbn [Pose.make Pose.pos Vector.x]; lra).
      rewrite IH; [|discriminate|right; lra].
      f_equal. ring.
Qed.

Lemma segments_travel_some (segs : list EdgeSegment.t) :
  forall s, segs <> [] -> is_Some (segments_travel segs s).
Proof.
  induction segs as [|seg rest IH]; intros s Hne; [contradiction|].
  cbn [segments_travel]. destruct rest as [|seg' rest]; [eauto|].
  destruct (bool_decide _); [eauto|]. apply IH. discriminate.
Qed.

(** In exact arithmetic (floats read as real numbers): on an edge with
    segments, [to_global] of the pose at offset [s] on the track, looking
    along it, is the pose that [travel(s)] returns, for every [s], before
    the start and beyond the end included. *)
Theorem Edge_to_global_is_travel (e : oid) (s : R) (x : Edge.t) (st : State) :
  edge_heap st !! e = Some x -> Edge.segments x <> [] ->
  exists q,
    Edge_travel e s st = Ok (q, st)
    /\ Edge_to_global e (Pose.make (Vector.make s 0) 0) (Some 0) true true st
       = Ok (Some q, st).
Proof.
  intros Hx Hne.
  pose proof (segments_to_global_travel s (Edge.segments x) 0 true Hne
                (or_introl eq_refl)) as E.
  rewrite Rminus_0_r in E.
  destruct (segments_travel_some (Edge.segments x) s Hne) as [q Hq].
  rewrite Hq in E.
  exists q. split.
  - unfold Edge_travel. rewrite (bind_run _ _ st st x) by now apply get_edge_run.
    now rewrite Hq.
  - unfold Edge_to_global. rewrite (bind_run _ _ st st x) by now apply get_edge_run.
    rewrite mret_bind. destruct (Edge.segments x) eqn:Hs; [contradiction|].
    rewrite mret_bind, E. reflexivity.
Qed.

Lemma Edge_to_global_is_travel_witness :
  exists q,
    Edge_travel 4 25 Scenario.bend_contracted = Ok (q, Scenario.bend_contracted)
    /\ Edge_to_global 4 (Pose.make (Vector.make 25 0) 0) (Some 0) true true
         Scenario.bend_contracted
       = Ok (Some q, Scenario.bend_contracted).
Proof.
  eapply (Edge_to_global_is_travel 4 25); [reflexivity|discriminate].
Defined.

(** On an edge without segments [Edge.to_global] builds one segment from
    node to node, transforms the pose with it and drops the result: the
    method returns [None] whatever the pose, while [start()] and [length()]
    are defined. *)
Theorem Edge_to_global_without_segments (e src tgt : oid) (x : Edge.t)
    (a b : Node.t) (other : Pose.t) (offset : option R)
    (extend_before extend_after : bool) (st : State) :
  edge_heap st !! e = Some x -> Edge.segments x = [] ->
  Edge._source x = Some src -> Edge._target x = Some tgt ->
  node_heap st !! src = Some a -> node_heap st !! tgt = Some b ->
  Edge_to_global e other offset extend_before extend_after st = Ok (None, st)
  /\ exists p len, Edge_start e st = Ok (p, st) /\ Edge_length e st = Ok (len, st).
Proof.
  intros Hx Hs Hsrc Htgt Ha Hb.
  assert (Hstart : exists p, Edge_start e st = Ok (p, st)).
  { unfold Edge_start. rewrite (bind_run _ _ st st x) by now apply get_edge_run.
    rewrite Hs, Hsrc, Htgt. cbn [not_none]. rewrite !mret_bind.
    rewrite (bind_run _ _ st st a) by now apply get_node_run.
    rewrite (bind_run _ _ st st b) by now apply get_node_run.
    eexists. reflexivity. }
  assert (Hlen : exists len, Edge_length e st = Ok (len, st)).
  { unfold Edge_length. rewrite (bind_run _ _ st st x) by now apply get_edge_run.
    rewrite Hs, Hsrc, Htgt. cbn [not_none]. rewrite !mret_bind.
    rewrite (bind_run _ _ st st a) by now apply get_node_run.
    rewrite (bind_run _ _ st st b) by now apply get_node_run.
    eexists. reflexivity. }
  destruct Hstart as [p Hp], Hlen as [len Hl]. split; [|eauto].
  unfold Edge_to_global. rewrite (bind_run _ _ st st x) by now apply get_edge_run.
  assert (Hoff : exists o,
            match offset with
            | Some offset => mret offset
            | None => src ← not_none (Edge._source x);
                      a ← get_node src; mret (Node.s a)
            end st = Ok (o, st)).
  { destruct offset as [o|]; [eexists; reflexivity|].
    rewrite Hsrc. cbn [not_none]. rewrite mret_bind.
    rewrite (bind_run _ _ st st a) by now apply get_node_run.
    eexists. reflexivity. }
  destruct Hoff as [o Ho]. rewrite (bind_run _ _ st st o Ho). rewrite Hs.
  rewrite bind_assoc, (bind_run _ _ st st p Hp).
  rewrite bind_assoc, (bind_run _ _ st st len Hl).
  reflexivity.
Qed.

Lemma Edge_to_global_without_segments_witness :
  let st := mkState
      (<[1 := Node.make (Pose.make (Vector.make 0 0) 0) [] [3] 0 true]>
         (<[2 := Node.make (Pose.make (Vector.make 10 0) 0) [3] [] 0 true]> ∅))%positive
      (<[3 := Edge.make (Some 1) (Some 2) [] [] true]> ∅)%positive
      ∅ ∅ (Graph.make [1; 2] [3] [])%positive 4%positive in
  Edge_to_global 3 (Pose.make (Vector.make 5 0) 0) (Some 0) true true st
  = Ok (None, st)
  /\ exists p len, Edge_start 3 st = Ok (p, st) /\ Edge_length 3 st = Ok (len, st).
Proof.
  cbv zeta.
  eapply (Edge_to_global_without_segments 3 1 2); reflexivity.
Defined.

(** ** What [Edge.flip] does to the edge *)

Lemma put_node_edges (n : oid) (y : Node.t) (st st' : State) (u : unit) :
  put_node n y st = Ok (u, st') -> edge_heap st' = edge_heap st.
Proof. intros H. now injection H as _ <-. Qed.

Lemma outgoing_remove_edges (n e : oid) (st st' : State) (u : unit) :
  outgoing_remove n e st = Ok (u, st') -> edge_heap st' = edge_heap st.
Proof.
  unfold outgoing_remove. intros H.
  apply M_bind_inv in H as (y & s1 & H1 & H). apply get_node_inv in H1 as [-> _].
  apply M_bind_inv in H as (l & s1 & H1 & H). apply lift_inv in H1 as [_ ->].
  now apply put_node_edges in H.
Qed.

Lemma incoming_remove_edges (n e : oid) (st st' : State) (u : unit) :
  incoming_remove n e st = Ok (u, st') -> edge_heap st' = edge_heap st.
Proof.
  unfold incoming_remove. intros H.
  apply M_bind_inv in H as (y & s1 & H1 & H). apply get_node_inv in H1 as [-> _].
  apply M_bind_inv in H as (l & s1 & H1 & H). apply lift_inv in H1 as [_ ->].
  now apply put_node_edges in H.
Qed.

Lemma outgoing_append_edges (n e : oid) (st st' : State) (u : unit) :
  outgoing_append n e st = Ok (u, st') -> edge_heap st' = edge_heap st.
Proof.
  unfold outgoing_append. intros H.
  apply M_bind_inv in H as (y & s1 & H1 & H). apply get_node_inv in H1 as [-> _].
  now apply put_node_edges in H.
Qed.

Lemma incoming_append_edges (n e : oid) (st st' : State) (u : unit) :
  incoming_append n e st = Ok (u, st') -> edge_heap st' = edge_heap st.
Proof.
  unfold incoming_append. intros H.
  apply M_bind_inv in H as (y & s1 & H1 & H). apply get_node_inv in H1 as [-> _].
  now apply put_node_edges in H.
Qed.

Lemma when_some_edges {A : Type} (o : option A) (body : A -> M unit)
    (st st' : State) (u : unit) :
  (forall a s s' u', body a s = Ok (u', s') -> edge_heap s' = edge_heap s) ->
  when_some o body st = Ok (u, st') -> edge_heap st' = edge_heap st.
Proof.
  intros Hbody H. destruct o as [a|]; simpl in H.
  - exact (Hbody a st st' u H).
  - apply mret_inv in H as [_ ->]. reflexivity.
Qed.

Lemma flip_objects_edges (e : oid) (objs : list oid) :
  forall st st', for_each objs (flip_object e) st = Ok (tt, st') ->
  edge_heap st' = edge_heap st.
Proof.
  induction objs as [|o objs IH]; intros st st' H; cbn [for_each] in H.
  - apply mret_inv in H as [_ ->]. reflexivity.
  - apply M_bind_inv in H as ([] & s1 & H1 & H). rewrite (IH s1 st' H).
    unfold flip_object in H1.
    apply M_bind_inv in H1 as (obj & s2 & H2 & H1).
    apply get_object_inv in H2 as [-> _].
    destruct (decide _).
    + apply M_bind_inv in H1 as ([] & s2 & H2 & H1). injection H2 as <-.
      apply M_bind_inv in H1 as (len & s2 & H2 & H1).
      apply Edge_length_inv in H2 as [-> _].
      apply M_bind_inv in H1 as (v & s2 & H2 & H1).
      apply get_vector_inv in H2 as [-> _].
      apply M_bind_inv in H1 as ([] & s2 & H2 & H1). injection H2 as <-.
      apply M_bind_inv in H1 as (v1 & s2 & H2 & H1).
      apply get_vector_inv in H2 as [-> _]. now injection H1 as <-.
    + apply mret_inv in H1 as [_ ->]. reflexivity.
Qed.

(** The edge that [Edge.flip] leaves in the store. *)
Lemma Edge_flip_edge (e : oid) (x : Edge.t) (st st' : State) :
  edge_heap st !! e = Some x -> Edge_flip e st = Ok (tt, st') ->
  edge_heap st'
  = <[e := Edge.make (Edge._target x) (Edge._source x)
                     (flip_segments (Edge.segments x))
                     (Edge.scenery_objects x) (Edge.graph x)]> (edge_heap st).
Proof.
  intros Hx H. unfold Edge_flip in H.
  apply M_bind_inv in H as (x0 & s0 & H0 & H). apply get_edge_inv in H0 as [-> Hx0].
  rewrite Hx in Hx0. injection Hx0 as <-.
  apply M_bind_inv in H as ([] & s1 & H1 & H).
  apply (when_some_edges _ _ _ _ _ (fun n => outgoing_remove_edges n e)) in H1.
  apply M_bind_inv in H as ([] & s2 & H2 & H).
  apply (when_some_edges _ _ _ _ _ (fun n => incoming_remove_edges n e)) in H2.
  apply M_bind_inv in H as ([] & s3 & H3 & H).
  unfold set_ends in H3.
  apply M_bind_inv in H3 as (x3 & s & Hg & H3). apply get_edge_inv in Hg as [-> Hx3].
  rewrite H2, H1, Hx in Hx3. injection Hx3 as <-. injection H3 as <-.
  apply M_bind_inv in H as ([] & s4 & H4 & H).
  apply (when_some_edges _ _ _ _ _ (fun n => incoming_append_edges n e)) in H4.
  apply M_bind_inv in H as ([] & s5 & H5 & H).
  apply (when_some_edges _ _ _ _ _ (fun n => outgoing_append_edges n e)) in H5.
  apply M_bind_inv in H as ([] & s6 & H6 & H).
  unfold set_segments in H6.
  apply M_bind_inv in H6 as (x6 & s & Hg & H6). apply get_edge_inv in Hg as [-> Hx6].
  rewrite H5, H4 in Hx6. cbn [edge_heap] in Hx6, H4.
  rewrite lookup_insert_eq in Hx6. injection Hx6 as <-. injection H6 as <-.
  apply flip_objects_edges in H. rewrite H. cbn [edge_heap].
  rewrite H5, H4, insert_insert_eq, H2, H1. reflexivity.
Qed.





(** ** Reversing an edge twice *)

Lemma flip_segments_twice (segs : list EdgeSegment.t) :
  Forall (fun seg => 0 <= Pose.direction (EdgeSegment.start seg) < 2 * PI) segs ->
  flip_segments (flip_segments segs) = segs.
Proof.
  intros Hn. unfold flip_segments. rewrite map_rev, rev_involutive, map_map.
  induction Hn as [|seg segs Hseg _ IH]; [reflexivity|].
  cbn [map]. rewrite IH, flip_twice_segment. f_equal.
  destruct seg as [i [pos d] len r]. cbn in *. unfold Pose.make.
  now rewrite fmod_small.
Qed.

(** The statements of [Edge.flip] before its last loop leave the objects
    and the vectors alone. *)
Lemma put_node_objects (n : oid) (y : Node.t) (st st' : State) (u : unit) :
  put_node n y st = Ok (u, st') ->
  object_heap st' = object_heap st /\ vector_heap st' = vector_heap st.
Proof. intros H. now injection H as _ <-. Qed.

Lemma put_edge_objects (e : oid) (y : Edge.t) (st st' : State) (u : unit) :
  put_edge e y st = Ok (u, st') ->
  object_heap st' = object_heap st /\ vector_heap st' = vector_heap st.
Proof. intros H. now injection H as _ <-. Qed.

Lemma outgoing_remove_objects (n e : oid) (st st' : State) (u : unit) :
  outgoing_remove n e st = Ok (u, st') ->
  object_heap st' = object_heap st /\ vector_heap st' = vector_heap st.
Proof.
  unfold outgoing_remove. intros H.
  apply M_bind_inv in H as (y & s1 & H1 & H). apply get_node_inv in H1 as [-> _].
  apply M_bind_inv in H as (l & s1 & H1 & H). apply lift_inv in H1 as [_ ->].
  now apply put_node_objects in H.
Qed.

Lemma incoming_remove_objects (n e : oid) (st st' : State) (u : unit) :
  incoming_remove n e st = Ok (u, st') ->
  object_heap st' = object_heap st /\ vector_heap st' = vector_heap st.
Proof.
  unfold incoming_remove. intros H.
  apply M_bind_inv in H as (y & s1 & H1 & H). apply get_node_inv in H1 as [-> _].
  apply M_bind_inv in H as (l & s1 & H1 & H). apply lift_inv in H1 as [_ ->].
  now apply put_node_objects in H.
Qed.

Lemma outgoing_append_objects (n e : oid) (st st' : State) (u : unit) :
  outgoing_append n e st = Ok (u, st') ->
  object_heap st' = object_heap st /\ vector_heap st' = vector_heap st.
Proof.
  unfold outgoing_append. intros H.
  apply M_bind_inv in H as (y & s1 & H1 & H). apply get_node_inv in H1 as [-> _].
  now apply put_node_objects in H.
Qed.

Lemma incoming_append_objects (n e : oid) (st st' : State) (u : unit) :
  incoming_append n e st = Ok (u, st') ->
  object_heap st' = object_heap st /\ vector_heap st' = vector_heap st.
Proof.
  unfold incoming_append. intros H.
  apply M_bind_inv in H as (y & s1 & H1 & H). apply get_node_inv in H1 as [-> _].
  now apply put_node_objects in H.
Qed.

Lemma when_some_objects {A : Type} (o : option A) (body : A -> M unit)
    (st st' : State) (u : unit) :
  (forall a s s' u', body a s = Ok (u', s') ->
     object_heap s' = object_heap s /\ vector_heap s' = vector_heap s) ->
  when_some o body st = Ok (u, st') ->
  object_heap st' = object_heap st /\ vector_heap st' = vector_heap st.
Proof.
  intros Hbody H. destruct o as [a|]; simpl in H.
  - exact (Hbody a st st' u H).
  - apply mret_inv in H as [_ ->]. auto.
Qed.

Lemma Edge_length_segments (e : oid) (y : Edge.t) (st st' : State) (len : R) :
  edge_heap st !! e = Some y -> Edge.segments y <> [] ->
  Edge_length e st = Ok (len, st') ->
  st' = st /\ len = sum_lengths (Edge.segments y).
Proof.
  intros Hy Hne H. rewrite (Edge_length_run st e y Hy Hne) in H.
  injection H as <- <-. auto.
Qed.

Lemma cells_on_alter (e k : oid) (objects : gmap oid SceneryObject.t)
    (objs : list oid) :
  cells_on e (alter (flip_obj e) k objects) objs = cells_on e objects objs.
Proof.
  unfold cells_on. induction objs as [|o objs IH]; [reflexivity|].
  cbn [omap list_omap]. change (list_omap ?f ?l) with (omap f l). rewrite IH.
  assert (E : (alter (flip_obj e) k objects !! o
               ≫= fun obj => if decide (SceneryObject.relative_to obj = Some e)
                             then Some (PoseRef.pos (SceneryObject.pose obj))
                             else None)
              = (objects !! o
                 ≫= fun obj => if decide (SceneryObject.relative_to obj = Some e)
                               then Some (PoseRef.pos (SceneryObject.pose obj))
                               else None)).
  { destruct (decide (o = k)) as [->|Hk]; [|now rewrite lookup_alter_ne by auto].
    rewrite lookup_alter_eq. destruct (objects !! k) as [obj|]; [|reflexivity].
    cbn [fmap option_fmap option_map mbind option_bind]. unfold flip_obj.
    destruct (decide (SceneryObject.relative_to obj = Some e)) as [Hr|Hr].
    - cbn [set_object_pose SceneryObject.relative_to SceneryObject.pose
           PoseRef_reverse PoseRef.pos].
      now rewrite decide_True by exact Hr.
    - now rewrite decide_False by exact Hr. }
  now rewrite E.
Qed.

(** The last loop of [Edge.flip]: every listing of an object of the edge
    reverses the pose of the object and mirrors the vector of its
    position. *)
Lemma flip_objects_heaps (e : oid) (y : Edge.t) (objs : list oid) :
  forall st st',
  edge_heap st !! e = Some y -> Edge.segments y <> [] ->
  for_each objs (flip_object e) st = Ok (tt, st') ->
  edge_heap st' = edge_heap st
  /\ object_heap st'
     = foldl (fun m o => alter (flip_obj e) o m) (object_heap st) objs
  /\ vector_heap st'
     = foldl (fun m c => alter (mirror (sum_lengths (Edge.segments y))) c m)
             (vector_heap st) (cells_on e (object_heap st) objs).
Proof.
  induction objs as [|o objs IH]; intros st st' Hy Hne H; cbn [for_each] in H.
  - apply mret_inv in H as [_ ->]. auto.
  - apply M_bind_inv in H as ([] & s1 & H1 & H).
    assert (Hstep : edge_heap s1 = edge_heap st
                    /\ object_heap s1 = alter (flip_obj e) o (object_heap st)
                    /\ vector_heap s1
                       = foldl (fun m c => alter (mirror (sum_lengths (Edge.segments y))) c m)
                               (vector_heap st) (cells_on e (object_heap st) [o])).
    { unfold flip_object in H1.
      apply M_bind_inv in H1 as (obj & s2 & H2 & H1).
      apply get_object_inv in H2 as [-> Hobj].
      assert (Ho : alter (flip_obj e) o (object_heap st)
                   = <[o := flip_obj e obj]> (object_heap st)).
      { apply map_eq. intros k. destruct (decide (k = o)) as [->|Hk].
        - now rewrite lookup_alter_eq, lookup_insert_eq, Hobj.
        - now rewrite lookup_alter_ne, lookup_insert_ne by auto. }
      unfold cells_on. cbn [omap list_omap]. rewrite Hobj.
      cbn [mbind option_bind]. rewrite Ho. unfold flip_obj.
      destruct (decide (SceneryObject.relative_to obj = Some e)) as [Hr|Hr].
      - apply M_bind_inv in H1 as ([] & s2 & H2 & H1). injection H2 as <-.
        apply M_bind_inv in H1 as (len & s2 & H2 & H1).
        apply (Edge_length_segments e y) in H2 as [-> ->]; [|exact Hy|exact Hne].
        apply M_bind_inv in H1 as (v & s2 & H2 & H1).
        apply get_vector_inv in H2 as [-> Hv]. cbn [vector_heap] in Hv.
        apply M_bind_inv in H1 as ([] & s2 & H2 & H1). injection H2 as <-.
        apply M_bind_inv in H1 as (v1 & s2 & H2 & H1).
        apply get_vector_inv in H2 as [-> Hv1]. cbn [vector_heap] in Hv1.
        cbn [PoseRef_reverse PoseRef.pos] in *.
        rewrite lookup_insert_eq in Hv1. injection Hv1 as <-.
        injection H1 as <-. cbn [edge_heap object_heap vector_heap foldl
                                  Vector.x Vector.y].
        split; [reflexivity|]. split; [reflexivity|].
        rewrite insert_insert_eq. apply map_eq. intros k.
        destruct (decide (k = PoseRef.pos (SceneryObject.pose obj))) as [->|Hk].
        + now rewrite lookup_alter_eq, lookup_insert_eq, Hv.
        + now rewrite lookup_alter_ne, lookup_insert_ne by auto.
      - apply mret_inv in H1 as [_ ->]. cbn [foldl].
        split; [reflexivity|]. split; [|reflexivity].
        symmetry. now apply insert_id. }
    destruct Hstep as (E1 & O1 & V1).
    destruct (IH s1 st') as (E & O & V); [now rewrite E1|exact Hne|exact H|].
    split; [congruence|]. split.
    + rewrite O, O1. reflexivity.
    + rewrite V, V1, O1, cells_on_alter. unfold cells_on.
      cbn [omap list_omap]. change (list_omap ?f ?l) with (omap f l).
      destruct (object_heap st !! o ≫= _); reflexivity.
Qed.

(** What [Edge.flip] leaves of the objects and of the vectors. *)
Lemma Edge_flip_objects (e : oid) (x : Edge.t) (st st' : State) :
  edge_heap st !! e = Some x -> Edge.segments x <> [] ->
  Edge_flip e st = Ok (tt, st') ->
  object_heap st'
  = foldl (fun m o => alter (flip_obj e) o m) (object_heap st)
          (Edge.scenery_objects x)
  /\ vector_heap st'
     = foldl (fun m c => alter (mirror (sum_lengths (Edge.segments x))) c m)
             (vector_heap st)
             (cells_on e (object_heap st) (Edge.scenery_objects x)).
Proof.
  intros Hx Hne H. unfold Edge_flip in H.
  apply M_bind_inv in H as (x0 & s0 & H0 & H). apply get_edge_inv in H0 as [-> Hx0].
  rewrite Hx in Hx0. injection Hx0 as <-.
  apply M_bind_inv in H as ([] & s1 & H1 & H).
  pose proof (when_some_edges _ _ _ _ _ (fun n => outgoing_remove_edges n e) H1) as E1.
  apply (when_some_objects _ _ _ _ _ (fun n => outgoing_remove_objects n e)) in H1
    as [O1 V1].
  apply M_bind_inv in H as ([] & s2 & H2 & H).
  pose proof (when_some_edges _ _ _ _ _ (fun n => incoming_remove_edges n e) H2) as E2.
  apply (when_some_objects _ _ _ _ _ (fun n => incoming_remove_objects n e)) in H2
    as [O2 V2].
  apply M_bind_inv in H as ([] & s3 & H3 & H).
  unfold set_ends in H3.
  apply M_bind_inv in H3 as (x3 & s & Hg & H3). apply get_edge_inv in Hg as [-> Hx3].
  rewrite E2, E1, Hx in Hx3. injection Hx3 as <-.
  assert (E3 : edge_heap s3 = <[e := Edge.make (Edge._target x) (Edge._source x)
                                   (Edge.segments x) (Edge.scenery_objects x)
                                   (Edge.graph x)]> (edge_heap s2))
    by now injection H3 as <-.
  apply put_edge_objects in H3 as [O3 V3].
  apply M_bind_inv in H as ([] & s4 & H4 & H).
  pose proof (when_some_edges _ _ _ _ _ (fun n => incoming_append_edges n e) H4) as E4.
  apply (when_some_objects _ _ _ _ _ (fun n => incoming_append_objects n e)) in H4
    as [O4 V4].
  apply M_bind_inv in H as ([] & s5 & H5 & H).
  pose proof (when_some_edges _ _ _ _ _ (fun n => outgoing_append_edges n e) H5) as E5.
  apply (when_some_objects _ _ _ _ _ (fun n => outgoing_append_objects n e)) in H5
    as [O5 V5].
  apply M_bind_inv in H as ([] & s6 & H6 & H).
  unfold set_segments in H6.
  apply M_bind_inv in H6 as (x6 & s & Hg & H6). apply get_edge_inv in Hg as [-> Hx6].
  rewrite E5, E4, E3, lookup_insert_eq in Hx6. injection Hx6 as <-.
  cbn [Edge._source Edge._target Edge.scenery_objects Edge.graph] in H6.
  set (y := Edge.make (Edge._target x) (Edge._source x)
                      (flip_segments (Edge.segments x)) (Edge.scenery_objects x)
                      (Edge.graph x)) in *.
  assert (E6 : edge_heap s6 !! e = Some y).
  { injection H6 as <-. cbn [edge_heap]. apply lookup_insert_eq. }
  apply put_edge_objects in H6 as [O6 V6].
  destruct (flip_objects_heaps e y (Edge.scenery_objects x) s6 st' E6)
    as (_ & O & V);
    [now apply flip_segments_not_nil|exact H|].
  cbn [y Edge.segments] in V. rewrite sum_lengths_flip in V.
  assert (Oall : object_heap s6 = object_heap st) by congruence.
  assert (Vall : vector_heap s6 = vector_heap st) by congruence.
  rewrite O, V, Oall, Vall. auto.
Qed.

(** Changing the same keys twice by a map that undoes itself changes
    nothing. *)
Lemma foldl_alter_swap {A : Type} (f : A -> A) (k : oid) (keys : list oid) :
  forall m : gmap oid A,
  alter f k (foldl (fun m o => alter f o m) m keys)
  = foldl (fun m o => alter f o m) (alter f k m) keys.
Proof.
  induction keys as [|a keys IH]; intros m; cbn [foldl]; [reflexivity|].
  rewrite IH. f_equal. destruct (decide (k = a)) as [->|Hne]; [reflexivity|].
  apply map_eq. intros j.
  destruct (decide (j = k)) as [Hk|Hk]; destruct (decide (j = a)) as [Ha|Ha].
  - congruence.
  - subst j. rewrite lookup_alter_eq, !lookup_alter_ne by congruence.
    now rewrite lookup_alter_eq.
  - subst j. rewrite lookup_alter_ne, !lookup_alter_eq by congruence.
    now rewrite lookup_alter_ne by congruence.
  - now rewrite !lookup_alter_ne by congruence.
Qed.

Lemma foldl_alter_twice {A : Type} (f : A -> A) (P : A -> Prop) :
  (forall a, P a -> f (f a) = a) -> (forall a, P a -> P (f a)) ->
  forall (keys : list oid) (m : gmap oid A),
  (forall k a, m !! k = Some a -> P a) ->
  foldl (fun m o => alter f o m) (foldl (fun m o => alter f o m) m keys) keys = m.
Proof.
  intros Hff HP. induction keys as [|k keys IH]; intros m Hm; cbn [foldl];
    [reflexivity|].
  rewrite foldl_alter_swap.
  assert (E : alter f k (alter f k m) = m).
  { apply map_eq. intros j. destruct (decide (j = k)) as [->|Hj].
    - rewrite !lookup_alter_eq. destruct (m !! k) as [a|] eqn:Ha; [|reflexivity].
      cbn. now rewrite (Hff a (Hm k a Ha)).
    - now rewrite !lookup_alter_ne by auto. }
  rewrite E. now apply IH.
Qed.

Lemma cells_on_foldl (e : oid) (keys objs : list oid) :
  forall objects : gmap oid SceneryObject.t,
  cells_on e (foldl (fun m o => alter (flip_obj e) o m) objects keys) objs
  = cells_on e objects objs.
Proof.
  induction keys as [|k keys IH]; intros objects; cbn [foldl]; [reflexivity|].
  now rewrite IH, cells_on_alter.
Qed.

Lemma flip_obj_twice (e : oid) (obj : SceneryObject.t) :
  (SceneryObject.relative_to obj = Some e ->
   0 <= PoseRef.direction (SceneryObject.pose obj) < 2 * PI) ->
  flip_obj e (flip_obj e obj) = obj.
Proof.
  intros Hd. unfold flip_obj.
  destruct (decide (SceneryObject.relative_to obj = Some e)) as [Hr|Hr].
  - cbn [set_object_pose SceneryObject.relative_to]. rewrite decide_True by exact Hr.
    destruct obj as [[c d] ty name rel render]. unfold set_object_pose, PoseRef_reverse.
    cbn [SceneryObject.pose SceneryObject.object_type SceneryObject.name
         SceneryObject.relative_to SceneryObject.render PoseRef.pos
         PoseRef.direction] in *.
    do 2 f_equal.
    rewrite (same_direction_fmod _ d); [apply fmod_small; auto|].
    destruct (fmod_same_direction (d + PI)) as [k Hk].
    exists (k + 1)%Z. rewrite Hk, plus_IZR. simpl. ring.
  - now rewrite decide_False by exact Hr.
Qed.

Lemma flip_obj_normalised (e : oid) (obj : SceneryObject.t) :
  SceneryObject.relative_to (flip_obj e obj) = Some e ->
  0 <= PoseRef.direction (SceneryObject.pose (flip_obj e obj)) < 2 * PI.
Proof.
  unfold flip_obj.
  destruct (decide (SceneryObject.relative_to obj = Some e)) as [Hr|Hr];
    [|intros; contradiction].
  intros _. cbn. apply fmod_bounds, full_turn_positive.
Qed.

Lemma mirror_twice (len : R) (v : Vector.t) : mirror len (mirror len v) = v.
Proof. destruct v as [x y]. unfold mirror. cbn. f_equal; ring. Qed.

(** In exact arithmetic, reversing an edge with segments and reversing it
    again restores the edges, the scenery objects and the vectors of their
    positions, when the start directions of the segments of the edge and
    the directions of the objects of the edge are normalised, as
    [Pose.__init__] leaves them.  This holds however the objects are
    listed, and also when objects share the vector of their position. *)
Theorem Edge_flip_twice (e : oid) (x : Edge.t) (st st1 st2 : State) :
  edge_heap st !! e = Some x -> Edge.segments x <> [] ->
  Forall (fun seg => 0 <= Pose.direction (EdgeSegment.start seg) < 2 * PI)
         (Edge.segments x) ->
  (forall o obj, object_heap st !! o = Some obj ->
     SceneryObject.relative_to obj = Some e ->
     0 <= PoseRef.direction (SceneryObject.pose obj) < 2 * PI) ->
  Edge_flip e st = Ok (tt, st1) -> Edge_flip e st1 = Ok (tt, st2) ->
  edge_heap st2 = edge_heap st
  /\ object_heap st2 = object_heap st
  /\ vector_heap st2 = vector_heap st.
Proof.
  intros Hx Hne Hsegs Hobjs H1 H2.
  pose proof (Edge_flip_edge e x st st1 Hx H1) as E1.
  set (x1 := Edge.make _ _ _ _ _) in E1.
  assert (Hx1 : edge_heap st1 !! e = Some x1)
    by (rewrite E1; apply lookup_insert_eq).
  assert (Hne1 : Edge.segments x1 <> []) by now apply flip_segments_not_nil.
  destruct (Edge_flip_objects e x st st1 Hx Hne H1) as [O1 V1].
  destruct (Edge_flip_objects e x1 st1 st2 Hx1 Hne1 H2) as [O2 V2].
  split; [|split].
  - rewrite (Edge_flip_edge e x1 st1 st2 Hx1 H2), E1, insert_insert_eq.
    subst x1. cbn [Edge._source Edge._target Edge.segments Edge.scenery_objects
                   Edge.graph].
    rewrite flip_segments_twice by exact Hsegs.
    apply insert_id. rewrite Hx. now destruct x.
  - rewrite O2, O1. cbn [x1 Edge.scenery_objects].
    apply (foldl_alter_twice (flip_obj e)
             (fun obj => SceneryObject.relative_to obj = Some e ->
                         0 <= PoseRef.direction (SceneryObject.pose obj) < 2 * PI)).
    + intros obj. apply flip_obj_twice.
    + intros obj _. apply flip_obj_normalised.
    + exact Hobjs.
  - rewrite V2, V1, O1. cbn [x1 Edge.scenery_objects Edge.segments].
    rewrite cells_on_foldl, sum_lengths_flip.
    apply (foldl_alter_twice _ (fun _ => True)); auto.
    intros v _. apply mirror_twice.
Qed.

Lemma bend_flip_twice_runs :
  exists st1 st2,
    Edge_flip 5 Scenario.bend = Ok (tt, st1) /\ Edge_flip 5 st1 = Ok (tt, st2).
Proof.
  eexists _, _. split.
  - with_strategy transparent [gmap_empty]
      lazy -[Rplus Rminus Rmult Rdiv Ropp Rinv IZR PI cos sin fmod Pose.make
             Pose.reverse polar sum_lengths EdgeSegment.travel EdgeSegment.end_
             EdgeSegment.flip shifted_pose flipped_pose Vector.abs Scenario.line
             Scenario.curve Scenario.on_curve Scenario.beyond_line].
    reflexivity.
  - with_strategy transparent [gmap_empty]
      lazy -[Rplus Rminus Rmult Rdiv Ropp Rinv IZR PI cos sin fmod Pose.make
             Pose.reverse polar sum_lengths EdgeSegment.travel EdgeSegment.end_
             EdgeSegment.flip shifted_pose flipped_pose Vector.abs Scenario.line
             Scenario.curve Scenario.on_curve Scenario.beyond_line].
    reflexivity.
Qed.

Lemma Edge_flip_twice_witness :
  exists st1 st2,
    Edge_flip 5 Scenario.bend = Ok (tt, st1) /\ Edge_flip 5 st1 = Ok (tt, st2)
    /\ edge_heap st2 = edge_heap Scenario.bend
    /\ object_heap st2 = object_heap Scenario.bend
    /\ vector_heap st2 = vector_heap Scenario.bend.
Proof.
  pose proof PI_RGT_0 as Hpi.
  destruct bend_flip_twice_runs as (st1 & st2 & H1 & H2).
  exists st1, st2. split; [exact H1|]. split; [exact H2|].
  apply (Edge_flip_twice 5
           (Edge.make (Some 2%positive) (Some 3%positive) [Scenario.curve]
                      [7%positive] true)
           Scenario.bend st1 st2);
    [reflexivity|discriminate| | |exact H1|exact H2].
  - constructor; [apply fmod_bounds, full_turn_positive|constructor].
  - intros o obj Hobj Hrel. unfold Scenario.bend in Hobj. cbn [object_heap] in Hobj.
    apply lookup_insert_Some in Hobj as [[<- <-]|[_ Hobj]]; [cbn; lra|].
    apply lookup_insert_Some in Hobj as [[<- <-]|[_ Hobj]];
      [discriminate|now rewrite lookup_empty in Hobj].
Defined.

End EdgeFacts.

(** * Further properties of nodes and ends *)

Section NodeFacts.
Import Geometry Railgraphs Placement Tracks.
Local Open Scope R_scope.

(** ** Reading leaves the store alone *)

Lemma Edge_start_inv (e : oid) (st st' : State) (p : Pose.t) :
  Edge_start e st = Ok (p, st') -> st' = st.
Proof.
  unfold Edge_start. intros H.
  apply M_bind_inv in H as (x & s1 & H1 & H). apply get_edge_inv in H1 as [-> _].
  destruct (Edge.segments x).
  - apply M_bind_inv in H as (src & s1 & H1 & H). apply not_none_inv in H1 as [_ ->].
    apply M_bind_inv in H as (tgt & s1 & H1 & H). apply not_none_inv in H1 as [_ ->].
    apply M_bind_inv in H as (a & s1 & H1 & H). apply get_node_inv in H1 as [-> _].
    apply M_bind_inv in H as (b & s1 & H1 & H). apply get_node_inv in H1 as [-> _].
    now apply mret_inv in H as [_ ->].
  - now apply mret_inv in H as [_ ->].
Qed.

Lemma Edge_end_inv (e : oid) (st st' : State) (p : Pose.t) :
  Edge_end e st = Ok (p, st') -> st' = st.
Proof.
  unfold Edge_end. intros H.
  apply M_bind_inv in H as (x & s1 & H1 & H). apply get_edge_inv in H1 as [-> _].
  destruct (last (Edge.segments x)).
  - now apply mret_inv in H as [_ ->].
  - apply M_bind_inv in H as (src & s1 & H1 & H). apply not_none_inv in H1 as [_ ->].
    apply M_bind_inv in H as (tgt & s1 & H1 & H). apply not_none_inv in H1 as [_ ->].
    apply M_bind_inv in H as (a & s1 & H1 & H). apply get_node_inv in H1 as [-> _].
    apply M_bind_inv in H as (b & s1 & H1 & H). apply get_node_inv in H1 as [-> _].
    now apply mret_inv in H as [_ ->].
Qed.

Lemma End_pose_inv (e : End) (st st' : State) (p : Pose.t) :
  End_pose e st = Ok (p, st') -> st' = st.
Proof.
  unfold End_pose. destruct (side e); [apply Edge_start_inv|apply Edge_end_inv].
Qed.

Lemma End_curvature_inv (e : End) (st st' : State) (c : R) :
  End_curvature e st = Ok (c, st') -> st' = st.
Proof.
  unfold End_curvature, End_radius. intros H.
  apply M_bind_inv in H as (r & s1 & H1 & H).
  apply M_bind_inv in H1 as (x & s2 & H2 & H1). apply get_edge_inv in H2 as [-> _].
  apply mret_inv in H as [_ ->].
  destruct (side e); now apply mret_inv in H1 as [_ ->].
Qed.

Lemma map_M_inv {A B : Type} (f : A -> M B) (P : A -> B -> Prop) (l : list A) :
  (forall a st st' b, f a st = Ok (b, st') -> st' = st /\ P a b) ->
  forall st st' bs, map_M f l st = Ok (bs, st') -> st' = st /\ Forall2 P l bs.
Proof.
  intros Hf. induction l as [|a l IH]; intros st st' bs H; cbn [map_M] in H.
  - apply mret_inv in H as [-> ->]. split; [reflexivity|constructor].
  - apply M_bind_inv in H as (b & s1 & H1 & H). apply Hf in H1 as [-> Hb].
    apply M_bind_inv in H as (bs' & s1 & H1 & H). apply IH in H1 as [-> Hbs].
    apply mret_inv in H as [-> ->]. split; [reflexivity|now constructor].
Qed.

(** What [Node.ends] returns, whenever it returns. *)
Lemma ends_inv (n : oid) (x : Node.t) (st st' : State) (l : list End) :
  node_heap st !! n = Some x -> ends n st = Ok (l, st') ->
  st' = st
  /\ l ≡ₚ map target_end (Node.incoming x) ++ map source_end (Node.outgoing x).
Proof.
  intros Hx H. unfold ends in H.
  apply M_bind_inv in H as (x0 & s1 & H1 & H). apply get_node_inv in H1 as [-> Hx0].
  rewrite Hx in Hx0. injection Hx0 as <-.
  apply M_bind_inv in H as (keyed & s1 & H1 & H).
  apply (map_M_inv _ (fun e ke => snd ke = e)) in H1 as [-> Hkeyed].
  2:{ intros e s s' ke He.
      apply M_bind_inv in He as (p & s2 & H2 & He). apply End_pose_inv in H2 as ->.
      apply mret_inv in He as [-> ->]. auto. }
  apply M_bind_inv in H as (cs & s1 & H1 & H).
  apply (map_M_inv _ (fun _ _ => True)) in H1 as [-> _].
  2:{ intros e s s' c He. apply End_curvature_inv in He. auto. }
  apply mret_inv in H as [-> ->]. split; [reflexivity|].
  rewrite sort_by_key_perm.
  assert (E : map snd keyed
              = map target_end (Node.incoming x) ++ map source_end (Node.outgoing x)).
  { induction Hkeyed as [|e ke es kes Hke _ IH]; [reflexivity|].
    cbn [map]. now rewrite Hke, IH. }
  now rewrite E.
Qed.

(** [Node.ends] changes nothing and returns every incident end: a
    rearrangement of the target ends of the incoming edges followed by the
    source ends of the outgoing edges, as many as the degree. *)
Theorem Node_ends_are_the_incident_ends (n : oid) (x : Node.t) (st st' : State)
    (l : list End) :
  node_heap st !! n = Some x -> ends n st = Ok (l, st') ->
  st' = st
  /\ l ≡ₚ map target_end (Node.incoming x) ++ map source_end (Node.outgoing x)
  /\ degree n st = Ok (length l, st).
Proof.
  intros Hx H. destruct (ends_inv n x st st' l Hx H) as [-> Hperm].
  split; [reflexivity|]. split; [exact Hperm|].
  unfold degree. rewrite (bind_run _ _ st st x) by now apply get_node_run.
  rewrite Hperm, length_app, !length_map. reflexivity.
Qed.

Lemma bend_ends_run : exists l, ends 2 Scenario.bend = Ok (l, Scenario.bend).
Proof.
  unfold ends. rewrite (bind_run _ _ Scenario.bend Scenario.bend
    (Node.make (Pose.reverse (EdgeSegment.end_ Scenario.line)) [4] [5] 20 true)%positive)
    by reflexivity.
  cbn [Node.incoming Node.outgoing map app].
  destruct (map_M_ok
    (fun e => p ← End_pose e;
              mret (Rabs (angle_between
                            (Pose.direction (Node.pose
                               (Node.make (Pose.reverse (EdgeSegment.end_ Scenario.line))
                                          [4] [5] 20 true)%positive))
                            (Pose.direction p)), e))
    [target_end 4; source_end 5]%positive Scenario.bend) as [keyed Hk].
  { intros e He. apply elem_of_cons in He as [->|He].
    - eexists. rewrite (bind_run _ _ _ _ _ (End_pose_target_run Scenario.bend 4 _
                          Scenario.line eq_refl eq_refl)). reflexivity.
    - apply list_elem_of_singleton in He as ->.
      eexists. rewrite (bind_run _ _ _ _ _ (End_pose_source_run Scenario.bend 5 _
                          Scenario.curve [] eq_refl eq_refl)). reflexivity. }
  rewrite (bind_run _ _ _ _ _ Hk). cbv beta.
  destruct (map_M_ok End_curvature (tail (sort_by_key keyed)) Scenario.bend)
    as [cs Hc].
  { intros e He. apply elem_of_tail in He.
    rewrite sort_by_key_perm in He.
    apply (map_M_inv _ (fun e ke => snd ke = e)) in Hk as [_ Hkeyed].
    2:{ intros e0 s s' ke He0.
        apply M_bind_inv in He0 as (p & s2 & H2 & He0). apply End_pose_inv in H2 as ->.
        apply mret_inv in He0 as [-> ->]. auto. }
    assert (E : map snd keyed = [target_end 4; source_end 5]%positive).
    { inversion Hkeyed as [|? ? ? ? H1 Hrest]; subst.
      inversion Hrest as [|? ? ? ? H2 Hnil]; subst. inversion Hnil; subst.
      cbn. now rewrite H1, H2. }
    rewrite E in He. apply elem_of_cons in He as [->|He].
    - apply (End_curvature_run Scenario.bend (target_end 4) _ eq_refl).
    - apply list_elem_of_singleton in He as ->.
      apply (End_curvature_run Scenario.bend (source_end 5) _ eq_refl). }
  rewrite (bind_run _ _ _ _ _ Hc). eexists. reflexivity.
Qed.

Lemma Node_ends_are_the_incident_ends_witness :
  exists l,
    ends 2 Scenario.bend = Ok (l, Scenario.bend)
    /\ l ≡ₚ [target_end 4; source_end 5]%positive
    /\ degree 2 Scenario.bend = Ok (length l, Scenario.bend).
Proof.
  destruct bend_ends_run as [l H]. exists l. split; [exact H|].
  apply (Node_ends_are_the_incident_ends 2
           (Node.make (Pose.reverse (EdgeSegment.end_ Scenario.line)) [4] [5] 20 true)%positive
           Scenario.bend Scenario.bend l); [reflexivity|exact H].
Defined.

(** ** Which ends can be reached from an end *)

Lemma connected_ends_inv (n : oid) (a : End) (st st' : State) (la : list End) :
  connected_ends n a st = Ok (la, st') ->
  exists e0 rest,
    ends n st = Ok (e0 :: rest, st')
    /\ a ∈ e0 :: rest
    /\ la = (if decide (a = e0) then rest else [e0]).
Proof.
  unfold connected_ends. intros H.
  apply M_bind_inv in H as (l & s1 & H1 & H).
  case_bool_decide as Hin; [|discriminate].
  destruct l as [|e0 rest]; [now apply elem_of_nil in Hin|].
  exists e0, rest.
  assert (s1 = st' /\ la = (if decide (a = e0) then rest else [e0])) as [-> ->].
  { destruct (decide (a = e0)); apply mret_inv in H as [-> ->]; auto. }
  auto.
Qed.

Lemma ends_same_store (n : oid) (st st' : State) (l : list End) :
  ends n st = Ok (l, st') -> st' = st.
Proof.
  intros H. pose proof H as H0. unfold ends in H0.
  apply M_bind_inv in H0 as (x & s2 & H2 & _). apply get_node_inv in H2 as [_ Hx].
  now destruct (ends_inv n x st st' l Hx H).
Qed.

(** [connected_ends] changes nothing; it returns all other ends for the
    first end of the node (the tip of a switch) and the first end for every
    other end.  Hence if [b] can be reached from [a], then [a] can be
    reached from [b]. *)
Theorem connected_ends_symmetric (n : oid) (a b : End) (st sa sb : State)
    (la lb : list End) :
  connected_ends n a st = Ok (la, sa) -> connected_ends n b st = Ok (lb, sb) ->
  b ∈ la ->
  sa = st /\ sb = st /\ a ∈ lb.
Proof.
  intros Ha Hb Hin.
  destruct (connected_ends_inv n a st sa la Ha) as (e0 & rest & Hends & Hain & ->).
  destruct (connected_ends_inv n b st sb lb Hb) as (e1 & rest1 & Hends1 & Hbin & ->).
  pose proof (ends_same_store _ _ _ _ Hends) as ->.
  pose proof (ends_same_store _ _ _ _ Hends1) as ->.
  rewrite Hends in Hends1. injection Hends1 as <- <-.
  split; [reflexivity|]. split; [reflexivity|].
  destruct (decide (a = e0)) as [->|Hne].
  - destruct (decide (b = e0)) as [->|Hbne]; [exact Hin|left].
  - apply list_elem_of_singleton in Hin as ->.
    rewrite decide_True by reflexivity.
    apply elem_of_cons in Hain as [?|?]; [contradiction|assumption].
Qed.

Lemma connected_ends_runs (n : oid) (a : End) (l : list End) (st : State) :
  ends n st = Ok (l, st) -> a ∈ l ->
  exists e0 rest, l = e0 :: rest
    /\ connected_ends n a st = Ok (if decide (a = e0) then rest else [e0], st).
Proof.
  intros H Hin. destruct l as [|e0 rest]; [now apply elem_of_nil in Hin|].
  exists e0, rest. split; [reflexivity|].
  unfold connected_ends. rewrite (bind_run _ _ _ _ _ H).
  rewrite bool_decide_eq_true_2 by exact Hin.
  now destruct (decide (a = e0)).
Qed.

Lemma connected_ends_symmetric_witness :
  exists la lb,
    connected_ends 2 (target_end 4) Scenario.bend = Ok (la, Scenario.bend)
    /\ connected_ends 2 (source_end 5) Scenario.bend = Ok (lb, Scenario.bend)
    /\ source_end 5 ∈ la /\ target_end 4 ∈ lb.
Proof.
  destruct bend_ends_run as [l H].
  destruct (ends_inv 2 _ Scenario.bend Scenario.bend l eq_refl H) as [_ Hperm].
  cbn [Node.incoming Node.outgoing map app] in Hperm.
  assert (Ha : target_end 4 ∈ l) by (rewrite Hperm; left).
  assert (Hb : source_end 5 ∈ l) by (rewrite Hperm; right; left).
  destruct (connected_ends_runs 2 _ l _ H Ha) as (e0 & rest & El & Hca).
  destruct (connected_ends_runs 2 _ l _ H Hb) as (e1 & rest1 & El1 & Hcb).
  rewrite El in El1. injection El1 as <- <-.
  assert (Hin : source_end 5 ∈ (if decide (target_end 4 = e0) then rest else [e0])).
  { subst l. symmetry in Hperm. apply Permutation_length_2_inv in Hperm as [E|E];
      injection E as -> ->.
    - rewrite decide_True by reflexivity. left.
    - rewrite decide_False by discriminate. left. }
  eexists _, _. split; [exact Hca|]. split; [exact Hcb|]. split; [exact Hin|].
  apply (connected_ends_symmetric 2 (target_end 4) (source_end 5)
           Scenario.bend Scenario.bend Scenario.bend _ _ Hca Hcb Hin).
Defined.

End NodeFacts.

(** * Further properties of graphs and paths *)

Section GraphFacts.
Import Geometry Railgraphs Placement Tracks.
Local Open Scope R_scope.

(** ** Nodes that [contract_edges] passes over *)

Lemma contract_node_skips (n : oid) (x : Node.t) (removed : removed_map)
    (st : State) :
  node_heap st !! n = Some x ->
  (length (Node.incoming x) + length (Node.outgoing x))%nat <> 2%nat
  \/ (exists e, Node.incoming x ++ Node.outgoing x = [e; e]) ->
  contract_node n removed st = Ok (removed, st).
Proof.
  intros Hx Hskip. unfold contract_node, degree.
  rewrite bind_assoc, (bind_run _ _ st st x) by now apply get_node_run.
  rewrite mret_bind.
  destruct Hskip as [Hdeg|[e He]].
  - now rewrite bool_decide_eq_false_2.
  - assert (Hlen : (length (Node.incoming x) + length (Node.outgoing x))%nat = 2%nat).
    { rewrite <- length_app, He. reflexivity. }
    rewrite bool_decide_eq_true_2 by exact Hlen.
    rewrite (bind_run _ _ st st x) by now apply get_node_run.
    rewrite He. now rewrite decide_True.
Qed.

(** [contract_edges] returns the empty map and leaves the store as it is
    when no node of the graph can be contracted: every node has a degree
    other than 2, or its two incident edges are one edge, a loop. *)
Theorem contract_edges_nothing_to_contract (st : State) :
  (forall n, n ∈ Graph.nodes (graph st) ->
     exists x, node_heap st !! n = Some x
       /\ ((length (Node.incoming x) + length (Node.outgoing x))%nat <> 2%nat
           \/ exists e, Node.incoming x ++ Node.outgoing x = [e; e])) ->
  contract_edges st = Ok ([], st).
Proof.
  intros H. unfold contract_edges. unfold get_state at 1.
  change ((fun st0 => Ok (st0, st0)) ≫= _) with
    (get_state ≫= fun st0 => contract_nodes (Graph.nodes (graph st0)) []).
  rewrite (bind_run _ _ st st st) by reflexivity.
  generalize (@nil (oid * oid)). revert H.
  generalize (Graph.nodes (graph st)) as l.
  induction l as [|n l IH]; intros H removed; cbn [contract_nodes]; [reflexivity|].
  destruct (H n) as (x & Hx & Hskip); [left|].
  rewrite (bind_run _ _ st st removed) by exact (contract_node_skips n x removed st Hx Hskip).
  apply IH. intros m Hm. apply H. now right.
Qed.

Lemma contract_edges_nothing_to_contract_witness :
  contract_edges Scenario.edge_and_island = Ok ([], Scenario.edge_and_island).
Proof.
  apply contract_edges_nothing_to_contract.
  intros n Hn. cbn in Hn.
  apply elem_of_cons in Hn as [->|Hn]; [|apply elem_of_cons in Hn as [->|Hn];
    [|apply list_elem_of_singleton in Hn as ->]];
    (eexists; split; [reflexivity|left; cbn; lia]).
Defined.

(** ** Paths *)

Lemma other_end_twice (e : End) : other_end (other_end e) = e.
Proof. now destruct e as [e []]. Qed.

Lemma sum_from (l : list R) (acc : R) : fold_left Rplus l acc = acc + sum l.
Proof.
  unfold sum. revert acc. induction l as [|a l IH]; intros acc; simpl.
  - ring.
  - rewrite (IH (acc + a)), (IH (0 + a)). ring.
Qed.

Lemma sum_rev (l : list R) : sum (rev l) = sum l.
Proof.
  induction l as [|a l IH]; [reflexivity|].
  simpl. unfold sum at 1. rewrite fold_left_app. simpl.
  fold (sum (rev l)). rewrite IH. unfold sum at 2. simpl.
  rewrite (sum_from l (0 + a)). ring.
Qed.

Lemma map_M_at {A B : Type} (f : A -> M B) (l : list A) :
  (forall a st st' b, f a st = Ok (b, st') -> st' = st) ->
  forall st st' bs, map_M f l st = Ok (bs, st') ->
  st' = st /\ Forall2 (fun a b => f a st = Ok (b, st)) l bs.
Proof.
  intros Hf. induction l as [|a l IH]; intros st st' bs H; cbn [map_M] in H.
  - apply mret_inv in H as [-> ->]. split; [reflexivity|constructor].
  - apply M_bind_inv in H as (b & s1 & H1 & H).
    pose proof (Hf _ _ _ _ H1) as ->.
    apply M_bind_inv in H as (bs' & s1 & H2 & H). apply IH in H2 as [-> Hbs].
    apply mret_inv in H as [-> ->]. split; [reflexivity|now constructor].
Qed.

Lemma map_M_of {A B : Type} (f : A -> M B) (st : State) (l : list A) (bs : list B) :
  Forall2 (fun a b => f a st = Ok (b, st)) l bs -> map_M f l st = Ok (bs, st).
Proof.
  induction 1 as [|a b l bs Hab _ IH]; cbn [map_M]; [reflexivity|].
  rewrite (bind_run _ _ st st b Hab), (bind_run _ _ st st bs IH). reflexivity.
Qed.

Lemma Forall2_rev_both {A B : Type} (P : A -> B -> Prop) (l : list A) (k : list B) :
  Forall2 P l k -> Forall2 P (rev l) (rev k).
Proof.
  induction 1 as [|a b l k Hab _ IH]; simpl; [constructor|].
  apply Forall2_app; [exact IH|]. now repeat constructor.
Qed.

(** In exact arithmetic (floats read as real numbers): [Path.length]
    changes nothing, the reversed path has the length of the path, and
    [Path.reverse] twice gives the path back. *)
Theorem Path_reverse_keeps_length (p : Path.t) (st st' : State) (len : R) :
  Path_length p st = Ok (len, st') ->
  st' = st
  /\ Path_length (Path_reverse p) st = Ok (len, st)
  /\ Path_reverse (Path_reverse p) = p.
Proof.
  intros H. unfold Path_length in H.
  apply M_bind_inv in H as (lens & s1 & H1 & H).
  apply map_M_at in H1 as [-> Hlens].
  2:{ intros e s s' b He. now apply Edge_length_inv in He as [-> _]. }
  apply mret_inv in H as [-> ->]. split; [reflexivity|]. split.
  - unfold Path_length, Path_reverse. cbn [Path.ends Path.start_offset Path.end_offset].
    rewrite (bind_run _ _ st st (rev lens)).
    + rewrite sum_rev. unfold mret, M_ret. do 2 f_equal. ring.
    + apply map_M_of. apply Forall2_fmap_l. apply Forall2_rev_both in Hlens.
      eapply Forall2_impl; [exact Hlens|].
      intros e b He. cbn beta. now destruct e as [e []].
  - destruct p as [l a b]. unfold Path_reverse.
    cbn [Path.ends Path.start_offset Path.end_offset]. f_equal.
    rewrite <- map_rev, rev_involutive, map_map.
    rewrite <- (map_id l) at 2. apply map_ext. intros e. apply other_end_twice.
Qed.

Lemma two_routes_path_length :
  exists len,
    Path_length (Path.make [source_end 3; target_end 4]%positive 0 0)
                Scenario.two_routes
    = Ok (len, Scenario.two_routes).
Proof.
  eexists. unfold Path_length. cbn [Path.ends map_M edge source_end target_end].
  erewrite bind_run; [reflexivity|].
  erewrite bind_run by (eapply (Edge_length_run Scenario.two_routes 3);
                        [reflexivity|discriminate]).
  erewrite bind_run; [reflexivity|].
  erewrite bind_run by (eapply (Edge_length_run Scenario.two_routes 4);
                        [reflexivity|discriminate]).
  reflexivity.
Qed.

Lemma Path_reverse_keeps_length_witness :
  exists len,
    Path_length (Path.make [source_end 3; target_end 4]%positive 0 0)
                Scenario.two_routes
    = Ok (len, Scenario.two_routes)
    /\ Path_length (Path_reverse (Path.make [source_end 3; target_end 4]%positive 0 0))
                   Scenario.two_routes
       = Ok (len, Scenario.two_routes)
    /\ Path_reverse (Path_reverse (Path.make [source_end 3; target_end 4]%positive 0 0))
       = Path.make [source_end 3; target_end 4]%positive 0 0.
Proof.
  destruct two_routes_path_length as [len H]. exists len. split; [exact H|].
  apply (Path_reverse_keeps_length _ _ _ _ H).
Defined.

(** [Path.to_global] never returns a pose: on a path that holds an end it
    raises before the first round of its loop is over, and on the empty path
    it returns [None], or raises [IndexError] when the offset is to be read
    from the first end. *)
Theorem Path_to_global_never_returns (p : Path.t) (other : Pose.t)
    (offset : option R) (extend_before extend_after : bool) (st : State) :
  (Path.ends p <> [] ->
   forall r, Path_to_global p other offset extend_before extend_after st <> Ok r)
  /\ (Path.ends p = [] ->
      Path_to_global p other offset extend_before extend_after st
      = match offset with
        | Some _ => Ok (None, st)
        | None => Raise IndexError
        end).
Proof.
  unfold Path_to_global. split.
  - intros Hne [r st'] H.
    apply M_bind_inv in H as (o & s1 & _ & H).
    destruct (Path.ends p) as [|e rest]; [contradiction|].
    apply M_bind_inv in H as ([] & s2 & _ & H).
    apply M_bind_inv in H as (t & s3 & _ & H). discriminate.
  - intros ->. destruct offset; reflexivity.
Qed.

(** On the route 3 of [two_routes], taken from its source end, the failure
    is the [TypeError] of adding a method to a float. *)
Example Path_to_global_type_error :
  Path_to_global (Path.make [source_end 3]%positive 0 0)
                 (Pose.make (Vector.make 10 0) 0) (Some 0) true true
                 Scenario.two_routes
  = Raise TypeError.
Proof.
  unfold Path_to_global. rewrite mret_bind.
  cbn [Path.ends Path.start_offset side source_end edge].
  rewrite bool_decide_eq_false_2 by discriminate. rewrite mret_bind.
  unfold try_finally. rewrite !bind_assoc.
  unfold Edge_to_global. rewrite !bind_assoc.
  erewrite bind_run by (apply get_edge_run; reflexivity).
  reflexivity.
Qed.

(** ** Searching from a node without edges *)

(** From a node without edges [find_shortest_path] returns the empty path,
    whatever the target and however few iterations are allowed. *)
Theorem find_shortest_path_from_lone_node (n t : oid) (x : Node.t) (fuel : nat)
    (st : State) :
  node_heap st !! n = Some x ->
  Node.incoming x = [] -> Node.outgoing x = [] ->
  find_shortest_path fuel (from_node n) t st = Ok (Some (Path.make [] 0 0), st).
Proof.
  intros Hx Hin Hout. unfold find_shortest_path.
  assert (Hends : ends n st = Ok ([], st)).
  { unfold ends. rewrite (bind_run _ _ st st x) by now apply get_node_run.
    rewrite Hin, Hout. reflexivity. }
  rewrite (bind_run _ _ st st [] Hends). cbn [push_starts]. rewrite mret_bind.
  destruct fuel; reflexivity.
Qed.

Lemma find_shortest_path_from_lone_node_witness :
  find_shortest_path 0 (from_node 3) 1 Scenario.edge_and_island
  = Ok (Some (Path.make [] 0 0), Scenario.edge_and_island).
Proof.
  eapply (find_shortest_path_from_lone_node 3 1); reflexivity.
Defined.

(** ** Searching from an end of an edge that leads to the target *)

(** Started at an end whose edge leads to the target node, the search
    returns the path that holds this end alone, whatever else the graph
    contains. *)
Theorem find_shortest_path_across_one_edge (e : End) (t : oid) (x : Edge.t)
    (fuel : nat) (st : State) :
  edge_heap st !! edge e = Some x -> Edge.segments x <> [] ->
  match side e with SOURCE => Edge._target x | TARGET => Edge._source x end
  = Some t ->
  find_shortest_path (S fuel) (from_end e) t st
  = Ok (Some (Path.make [e] 0 0), st).
Proof.
  intros Hx Hsegs Hfar. unfold find_shortest_path. rewrite mret_bind.
  cbn [push_starts]. rewrite bind_assoc.
  rewrite (bind_run _ _ _ _ _ (Edge_length_run st (edge e) x Hx Hsegs)). cbv beta.
  rewrite mret_bind. cbn [heappush pred_set].
  erewrite bind_run.
  2:{ cbn [search_loop].
      assert (Hother : edge_heap st !! edge (other_end e) = Some x)
        by (now destruct e as [e' []]).
      rewrite (bind_run _ _ _ _ _ (End_node_run st (other_end e) x Hother)).
      cbv beta.
      assert (E : match side (other_end e) with
                  | SOURCE => Edge._source x
                  | TARGET => Edge._target x
                  end = Some t) by (now destruct e as [e' []]).
      rewrite E. rewrite decide_True by reflexivity. reflexivity. }
  cbv beta iota. cbn [build_path].
  rewrite pred_lookup_head, build_path_done. reflexivity.
Qed.

Lemma find_shortest_path_across_one_edge_witness :
  find_shortest_path 1 (from_end (target_end 4)) 1 Scenario.two_routes
  = Ok (Some (Path.make [target_end 4] 0 0), Scenario.two_routes).
Proof.
  eapply (find_shortest_path_across_one_edge (target_end 4) 1);
    [reflexivity|discriminate|reflexivity].
Defined.

End GraphFacts.

(** * Further properties of the OpenRails writer *)

Section WorldFacts.
Import Geometry World.
Local Open Scope Z_scope.

(** ** World coordinates *)

Lemma py_round_near (r : R) : (- (1 / 2) <= r - IZR (py_round r) <= 1 / 2)%R.
Proof.
  unfold py_round. destruct (base_Int_part r) as [Hlo Hhi].
  set (f := Int_part r) in *.
  destruct (Rlt_dec (r - IZR f) (1 / 2)) as [H1|H1].
  - lra.
  - assert (E : IZR (f + 1) = (IZR f + 1)%R) by (rewrite plus_IZR; reflexivity).
    destruct (Rlt_dec (1 / 2) (r - IZR f)) as [H2|H2].
    + rewrite E. lra.
    + destruct (Z.even f); [|rewrite E]; lra.
Qed.

(** [pos2world] without a tile picks the tile whose centre is nearest: the
    coordinates it returns lie within half a tile of that centre, the
    height is raised by the ground level, and the position can be
    recovered from the tile and the coordinates. *)
Theorem pos2world_within_half_a_tile (pos : Vector.t) (z : R) (start_tile : Z * Z) :
  let '(tile_x, tile_z, x, y, z') := pos2world pos z None start_tile in
  (tile_x, tile_z) = pos2tile pos start_tile
  /\ (- 1024 <= x <= 1024)%R /\ (- 1024 <= z' <= 1024)%R
  /\ y = (z + 1)%R
  /\ Vector.x pos = (x + IZR (tile_x - fst start_tile) * 2048)%R
  /\ Vector.y pos = (z' + IZR (tile_z - snd start_tile) * 2048)%R.
Proof.
  destruct start_tile as [x0 z0]. unfold pos2world, pos2tile, TILE_SIZE, GROUND_LEVEL.
  cbn [fst snd].
  pose proof (py_round_near (Vector.x pos / 2048)) as Hx.
  pose proof (py_round_near (Vector.y pos / 2048)) as Hz.
  replace (py_round (Vector.x pos / 2048) + x0 - x0) with (py_round (Vector.x pos / 2048)) by lia.
  replace (py_round (Vector.y pos / 2048) + z0 - z0) with (py_round (Vector.y pos / 2048)) by lia.
  split; [reflexivity|]. repeat split; lra.
Qed.

(** With a tile given, the coordinates are taken relative to that tile,
    however far away it is; the position can still be recovered. *)
Lemma pos2world_in_given_tile (pos : Vector.t) (z : R) (tile start_tile : Z * Z) :
  let '(tile_x, tile_z, x, y, z') := pos2world pos z (Some tile) start_tile in
  (tile_x, tile_z) = tile
  /\ Vector.x pos = (x + IZR (tile_x - fst start_tile) * 2048)%R
  /\ Vector.y pos = (z' + IZR (tile_z - snd start_tile) * 2048)%R.
Proof.
  destruct tile as [tx tz]. unfold pos2world, TILE_SIZE.
  split; [reflexivity|]. split; ring.
Qed.

Lemma py_round_tie (k : Z) :
  py_round (IZR k + 1 / 2) = if Z.even k then k else k + 1.
Proof.
  unfold py_round.
  assert (E : Int_part (IZR k + 1 / 2) = k).
  { symmetry. apply Int_part_spec. lra. }
  rewrite E.
  destruct (Rlt_dec (IZR k + 1 / 2 - IZR k) (1 / 2)) as [H|_]; [lra|].
  destruct (Rlt_dec (1 / 2) (IZR k + 1 / 2 - IZR k)) as [H|_]; [lra|].
  reflexivity.
Qed.

(** A position exactly on the border between two tiles goes to the tile
    with the even number, counted from the start tile: rounding is to the
    even neighbour. *)
Lemma pos2tile_on_a_border (k : Z) (y : R) (start_tile : Z * Z) :
  fst (pos2tile (Vector.make ((IZR k + 1 / 2) * 2048) y) start_tile)
  = (if Z.even k then k else k + 1) + fst start_tile.
Proof.
  destruct start_tile as [x0 z0]. unfold pos2tile, TILE_SIZE.
  cbn [fst Vector.x].
  replace ((IZR k + 1 / 2) * 2048 / 2048)%R with (IZR k + 1 / 2)%R by field.
  now rewrite py_round_tie.
Qed.

End WorldFacts.

(** * Further properties of the indexers and the tile manager *)

Section IndexerFacts.
Import Geometry World.
Local Open Scope Z_scope.

(** ** Indexers under arbitrary registrations *)

(** What an indexer that started at [f] keeps: the next index is [f] plus
    the number of items, every index lies below it and is mirrored in the
    attributes of its item, and no index is shared. *)
Lemma get_or_add_keeps (f : Z) (self : Indexer.t) (item : oid)
    (store : Indexer.attrs_store) (seen : list oid) :
  (forall i, is_Some (Indexer.indices self !! i) <-> i ∈ seen) ->
  Indexer.next_index self = f + Z.of_nat (Indexer.len self) ->
  (forall i idx, Indexer.indices self !! i = Some idx ->
     f <= idx < Indexer.next_index self
     /\ store !! i ≫= (.!! Indexer.key self) = Some (Indexer.AInt idx)) ->
  (forall a b idx, Indexer.indices self !! a = Some idx ->
     Indexer.indices self !! b = Some idx -> a = b) ->
  let '(_, self', store') := Indexer.get_or_add self item store in
  Indexer.key self' = Indexer.key self
  /\ (forall i, is_Some (Indexer.indices self' !! i) <-> i ∈ seen ++ [item])
  /\ Indexer.next_index self' = f + Z.of_nat (Indexer.len self')
  /\ (forall i idx, Indexer.indices self' !! i = Some idx ->
        f <= idx < Indexer.next_index self'
        /\ store' !! i ≫= (.!! Indexer.key self') = Some (Indexer.AInt idx))
  /\ (forall a b idx, Indexer.indices self' !! a = Some idx ->
        Indexer.indices self' !! b = Some idx -> a = b).
Proof.
  intros Hdom Hnext Hrange Hinj. unfold Indexer.get_or_add.
  destruct (Indexer.indices self !! item) as [idx|] eqn:E.
  - split; [reflexivity|]. split; [|auto].
    intros i. rewrite Hdom, elem_of_app, list_elem_of_singleton.
    split; [tauto|]. intros [H| ->]; [exact H|]. apply Hdom. now rewrite E.
  - unfold Indexer.len in *.
    cbn [Indexer.key Indexer.indices Indexer.next_index].
    split; [reflexivity|]. split; [|split; [|split]].
    + intros i. rewrite elem_of_app, list_elem_of_singleton, <- Hdom.
      destruct (decide (i = item)) as [->|Hne].
      * rewrite lookup_insert_eq. split; [now right|eauto].
      * rewrite lookup_insert_ne by congruence. split; [tauto|].
        intros [H|H]; [exact H|contradiction].
    + rewrite map_size_insert_None by exact E. lia.
    + intros i idx Hi. unfold Indexer.set_attr.
      destruct (decide (i = item)) as [->|Hne].
      * rewrite lookup_insert_eq in Hi. injection Hi as <-.
        rewrite lookup_insert_eq. cbn. rewrite lookup_insert_eq.
        split; [lia|reflexivity].
      * rewrite lookup_insert_ne in Hi by congruence.
        rewrite lookup_insert_ne by congruence.
        destruct (Hrange i idx Hi) as [Hr Hs]. split; [lia|exact Hs].
    + intros a b idx Ha Hb.
      destruct (decide (a = item)) as [->|Hna];
        destruct (decide (b = item)) as [->|Hnb]; [reflexivity|..].
      * rewrite lookup_insert_eq in Ha. injection Ha as <-.
        rewrite lookup_insert_ne in Hb by congruence.
        apply Hrange in Hb as [Hb _]. lia.
      * rewrite lookup_insert_eq in Hb. injection Hb as <-.
        rewrite lookup_insert_ne in Ha by congruence.
        apply Hrange in Ha as [Ha _]. lia.
      * rewrite lookup_insert_ne in Ha, Hb by congruence. eauto.
Qed.

Lemma register_keeps (f : Z) (items : list oid) :
  forall (self : Indexer.t) (store : Indexer.attrs_store) (seen : list oid),
  (forall i, is_Some (Indexer.indices self !! i) <-> i ∈ seen) ->
  Indexer.next_index self = f + Z.of_nat (Indexer.len self) ->
  (forall i idx, Indexer.indices self !! i = Some idx ->
     f <= idx < Indexer.next_index self
     /\ store !! i ≫= (.!! Indexer.key self) = Some (Indexer.AInt idx)) ->
  (forall a b idx, Indexer.indices self !! a = Some idx ->
     Indexer.indices self !! b = Some idx -> a = b) ->
  let '(self', store') := Indexer.register self items store in
  Indexer.key self' = Indexer.key self
  /\ (forall i, is_Some (Indexer.indices self' !! i) <-> i ∈ seen ++ items)
  /\ Indexer.next_index self' = f + Z.of_nat (Indexer.len self')
  /\ (forall i idx, Indexer.indices self' !! i = Some idx ->
        f <= idx < Indexer.next_index self'
        /\ store' !! i ≫= (.!! Indexer.key self') = Some (Indexer.AInt idx))
  /\ (forall a b idx, Indexer.indices self' !! a = Some idx ->
        Indexer.indices self' !! b = Some idx -> a = b).
Proof.
  unfold Indexer.register.
  induction items as [|item items IH]; intros self store seen Hdom Hnext Hrange Hinj.
  - cbn. rewrite app_nil_r. auto.
  - cbn [Indexer.get_or_add_all].
    pose proof (get_or_add_keeps f self item store seen Hdom Hnext Hrange Hinj) as H1.
    destruct (Indexer.get_or_add self item store) as [[idx self1] store1].
    destruct H1 as (Hk1 & Hd1 & Hn1 & Hr1 & Hi1).
    specialize (IH self1 store1 (seen ++ [item]) Hd1 Hn1 Hr1 Hi1).
    destruct (Indexer.get_or_add_all self1 items store1) as [[idxs self'] store'].
    destruct IH as (Hk & Hd & Hn & Hr & Hi).
    split; [congruence|]. split; [|auto].
    intros i. rewrite Hd, <- app_assoc. reflexivity.
Qed.

(** Whatever items are registered with a new indexer, in whatever order
    and however often: the indexer contains exactly the items registered,
    their indices fill the range from the first index without gaps or
    repetition, and each item carries its index in its attributes under
    the key of the indexer. *)
Theorem indexer_register_any (key : string) (f : Z) (items : list oid)
    (store : Indexer.attrs_store) :
  let '(self, store') := Indexer.register (Indexer.init key f) items store in
  (forall item, Indexer.contains self item = bool_decide (item ∈ items))
  /\ Indexer.next_index self = f + Z.of_nat (Indexer.len self)
  /\ (forall item idx, Indexer.indices self !! item = Some idx ->
        f <= idx < f + Z.of_nat (Indexer.len self)
        /\ store' !! item ≫= (.!! key) = Some (Indexer.AInt idx))
  /\ (forall a b idx, Indexer.indices self !! a = Some idx ->
        Indexer.indices self !! b = Some idx -> a = b).
Proof.
  pose proof (register_keeps f items (Indexer.init key f) store []) as H.
  destruct (Indexer.register (Indexer.init key f) items store) as [self store'].
  destruct H as (Hk & Hd & Hn & Hr & Hi).
  - intros i. cbn. rewrite lookup_empty, elem_of_nil. split; [|tauto].
    intros [? ?]; discriminate.
  - unfold Indexer.len. cbn. rewrite map_size_empty. lia.
  - intros i idx. cbn. rewrite lookup_empty. discriminate.
  - intros a b idx. cbn. rewrite lookup_empty. discriminate.
  - cbn in Hk, Hd. split; [|split; [exact Hn|split; [|exact Hi]]].
    + intros item. unfold Indexer.contains. apply bool_decide_ext, Hd.
    + intros item idx Hitem. destruct (Hr item idx Hitem) as [Hlt Hs].
      rewrite Hk in Hs. split; [lia|exact Hs].
Qed.

(** ** The tile manager *)

Lemma get_set_eq (l : list ((Z * Z) * Indexer.t)) (tile : Z * Z) (v : Indexer.t) :
  TileManager.get (TileManager.set l tile v) tile = Some v.
Proof.
  induction l as [|[k w] l IH]; cbn.
  - now rewrite decide_True.
  - destruct (decide (k = tile)) as [->|Hne]; cbn.
    + now rewrite decide_True.
    + now rewrite decide_False.
Qed.

Lemma get_set_ne (l : list ((Z * Z) * Indexer.t)) (tile k : Z * Z) (v : Indexer.t) :
  k <> tile ->
  TileManager.get (TileManager.set l tile v) k = TileManager.get l k.
Proof.
  intros Hk. induction l as [|[k' w] l IH]; cbn.
  - rewrite decide_False by congruence. reflexivity.
  - destruct (decide (k' = tile)) as [->|Hne]; cbn.
    + rewrite !decide_False by congruence. reflexivity.
    + destruct (decide (k' = k)); [reflexivity|exact IH].
Qed.

Lemma get_add_tile (l : list ((Z * Z) * Indexer.t)) (tile k : Z * Z) :
  TileManager.get (TileManager.add_tile l tile) k
  = match TileManager.get l k with
    | Some v => Some v
    | None => if decide (k = tile) then Some (Indexer.init OR_W_FILE_INDEX 1)
              else None
    end.
Proof.
  unfold TileManager.add_tile.
  destruct (TileManager.get l tile) as [v|] eqn:E.
  - destruct (TileManager.get l k) as [w|] eqn:Ek; [reflexivity|].
    destruct (decide (k = tile)) as [->|]; [congruence|reflexivity].
  - destruct (decide (k = tile)) as [->|Hne].
    + now rewrite get_set_eq, E.
    + rewrite get_set_ne by exact Hne. now destruct (TileManager.get l k).
Qed.

Lemma get_add_tiles (tiles : list (Z * Z)) (k : Z * Z) :
  forall l : list ((Z * Z) * Indexer.t),
  TileManager.get (fold_left TileManager.add_tile tiles l) k
  = match TileManager.get l k with
    | Some v => Some v
    | None => if decide (k ∈ tiles) then Some (Indexer.init OR_W_FILE_INDEX 1)
              else None
    end.
Proof.
  induction tiles as [|tile tiles IH]; intros l; cbn [fold_left].
  - destruct (TileManager.get l k); [reflexivity|].
    rewrite decide_False by apply not_elem_of_nil. reflexivity.
  - rewrite IH, get_add_tile.
    destruct (TileManager.get l k) as [v|]; [reflexivity|].
    destruct (decide (k = tile)) as [->|Hne].
    + rewrite decide_True by left. reflexivity.
    + destruct (decide (k ∈ tiles)) as [Hin|Hnin].
      * rewrite decide_True by now right. reflexivity.
      * rewrite decide_False; [reflexivity|].
        intros [?|?]%elem_of_cons; contradiction.
Qed.

Lemma find_item_set_new (l : list ((Z * Z) * Indexer.t)) (tile : Z * Z) (item : oid) :
  TileManager.get l tile = None ->
  TileManager.find_item (TileManager.set l tile (Indexer.init OR_W_FILE_INDEX 1)) item
  = TileManager.find_item l item.
Proof.
  induction l as [|[k w] l IH]; cbn; intros Hget.
  - now rewrite lookup_empty.
  - destruct (decide (k = tile)); [discriminate|]. cbn.
    rewrite IH by exact Hget. reflexivity.
Qed.

Lemma find_item_add_tiles (tiles : list (Z * Z)) (item : oid) :
  forall l : list ((Z * Z) * Indexer.t),
  TileManager.find_item (fold_left TileManager.add_tile tiles l) item
  = TileManager.find_item l item.
Proof.
  induction tiles as [|tile tiles IH]; intros l; cbn [fold_left]; [reflexivity|].
  rewrite IH. unfold TileManager.add_tile.
  destruct (TileManager.get l tile) eqn:E; [reflexivity|].
  now apply find_item_set_new.
Qed.

Lemma find_item_none (l : list ((Z * Z) * Indexer.t)) (tile : Z * Z)
    (v : Indexer.t) (item : oid) :
  TileManager.find_item l item = None ->
  TileManager.get l tile = Some v ->
  Indexer.indices v !! item = None.
Proof.
  induction l as [|[k w] l IH]; cbn; [discriminate|].
  destruct (Indexer.indices w !! item) eqn:E; [discriminate|].
  intros Hfind. destruct (decide (k = tile)); [|now apply IH].
  intros [= <-]. exact E.
Qed.

Lemma find_item_set_here (l : list ((Z * Z) * Indexer.t)) (tile : Z * Z)
    (v v' : Indexer.t) (item : oid) (idx : Z) :
  TileManager.find_item l item = None ->
  TileManager.get l tile = Some v ->
  Indexer.indices v' !! item = Some idx ->
  TileManager.find_item (TileManager.set l tile v') item
  = Some (fst tile, snd tile, idx).
Proof.
  intros Hfind Hget Hv'. induction l as [|[k w] l IH]; cbn in *; [discriminate|].
  destruct (Indexer.indices w !! item) eqn:E; [discriminate|].
  destruct (decide (k = tile)) as [->|Hne]; cbn.
  - now rewrite Hv'.
  - rewrite E. now apply IH.
Qed.

Lemma find_item_set_other (l : list ((Z * Z) * Indexer.t)) (tile : Z * Z)
    (v v' : Indexer.t) (other : oid) :
  TileManager.get l tile = Some v ->
  Indexer.indices v' !! other = Indexer.indices v !! other ->
  TileManager.find_item (TileManager.set l tile v') other
  = TileManager.find_item l other.
Proof.
  intros Hget Hv'. induction l as [|[k w] l IH]; cbn in *; [discriminate|].
  destruct (decide (k = tile)) as [->|Hne]; cbn.
  - injection Hget as ->. now rewrite Hv'.
  - now rewrite IH.
Qed.

Lemma surrounding_covers (tile : Z * Z) (i j : Z) :
  -1 <= i <= 1 -> -1 <= j <= 1 ->
  (fst tile + i, snd tile + j) ∈ TileManager.surrounding tile.
Proof.
  intros Hi Hj. unfold TileManager.surrounding. cbn.
  assert (Ei : i = -1 \/ i = 0 \/ i = 1) by lia.
  assert (Ej : j = -1 \/ j = 0 \/ j = 1) by lia.
  destruct Ei as [->|[->| ->]]; destruct Ej as [->|[->| ->]];
    repeat (first [left; reflexivity | right]).
Qed.

(** Registering an item that is in no tile yet puts it into the tile of its
    position, with the next index of that tile (1 in a new tile), and notes
    the tile in the attributes of the item.  Afterwards [tile_and_index]
    finds the item there, the tile and its eight neighbours are tiles of
    the manager, and every other item is found where it was. *)
Theorem register_then_tile_and_index (self : TileManager.t) (item : oid)
    (pos : Vector.t) (store : Indexer.attrs_store) :
  TileManager.tile_and_index self item = None ->
  let '(self', store') := TileManager.register self item pos store in
  let tile := TileManager.pos2tile self pos in
  TileManager.tile_and_index self' item
  = Some (fst tile, snd tile,
          Indexer.next_index (TileManager.by_tile self (fst tile) (snd tile)))
  /\ store' !! item ≫= (.!! OR_TILE) = Some (Indexer.ATile (fst tile) (snd tile))
  /\ (forall i j, -1 <= i <= 1 -> -1 <= j <= 1 ->
        is_Some (TileManager.get (TileManager.items self')
                                 (fst tile + i, snd tile + j)))
  /\ (forall other, other <> item ->
        TileManager.tile_and_index self' other
        = TileManager.tile_and_index self other).
Proof.
  unfold TileManager.tile_and_index, TileManager.register, TileManager.by_tile.
  intros Hfind. set (tile := TileManager.pos2tile self pos).
  set (l := fold_left TileManager.add_tile (TileManager.surrounding tile)
                      (TileManager.items self)).
  assert (Htile : tile ∈ TileManager.surrounding tile).
  { pose proof (surrounding_covers tile 0 0) as H.
    rewrite !Z.add_0_r in H. destruct tile. apply H; lia. }
  assert (Hget : TileManager.get l tile
                 = Some (default (Indexer.init OR_W_FILE_INDEX 1)
                                 (TileManager.get (TileManager.items self) tile))).
  { unfold l. rewrite get_add_tiles.
    destruct (TileManager.get (TileManager.items self) tile); [reflexivity|].
    now rewrite decide_True. }
  assert (Hl : TileManager.find_item l item = None).
  { unfold l. now rewrite find_item_add_tiles. }
  rewrite Hget. set (v := default _ _) in *.
  pose proof (find_item_none l tile v item Hl Hget) as Hnew.
  unfold Indexer.register. cbn [Indexer.get_or_add_all].
  rewrite get_or_add_new by exact Hnew.
  cbn [TileManager.items]. replace (fst tile, snd tile) with tile by now destruct tile.
  split; [|split; [|split]].
  - apply (find_item_set_here l tile v); [exact Hl|exact Hget|].
    cbn. apply lookup_insert_eq.
  - unfold Indexer.set_attr. rewrite lookup_insert_eq. cbn.
    apply lookup_insert_eq.
  - intros i j Hi Hj.
    set (k := (fst tile + i, snd tile + j)).
    assert (Hk : is_Some (TileManager.get l k)).
    { unfold l. rewrite get_add_tiles.
      destruct (TileManager.get (TileManager.items self) k); [eauto|].
      rewrite decide_True by now apply surrounding_covers. eauto. }
    destruct (decide (k = tile)) as [->|Hne].
    + rewrite get_set_eq. eauto.
    + rewrite get_set_ne by exact Hne. exact Hk.
  - intros other Hother.
    rewrite (find_item_set_other l tile v) by
      (try exact Hget; cbn; now rewrite lookup_insert_ne by congruence).
    unfold l. apply find_item_add_tiles.
Qed.

Lemma register_then_tile_and_index_witness :
  let self := TileManager.init (-5354) 14849 in
  let '(self', store') :=
    TileManager.register self 7%positive (Vector.make 3000 0) ∅ in
  let tile := TileManager.pos2tile self (Vector.make 3000 0) in
  TileManager.tile_and_index self' 7%positive
  = Some (fst tile, snd tile,
          Indexer.next_index (TileManager.by_tile self (fst tile) (snd tile)))
  /\ store' !! 7%positive ≫= (.!! OR_TILE)
     = Some (Indexer.ATile (fst tile) (snd tile))
  /\ (forall i j, -1 <= i <= 1 -> -1 <= j <= 1 ->
        is_Some (TileManager.get (TileManager.items self')
                                 (fst tile + i, snd tile + j)))
  /\ (forall other, other <> 7%positive ->
        TileManager.tile_and_index self' other
        = TileManager.tile_and_index self other).
Proof.
  apply (register_then_tile_and_index (TileManager.init (-5354) 14849)
           7%positive (Vector.make 3000 0) ∅).
  reflexivity.
Defined.

End IndexerFacts.

(** * Further properties of the file names *)

Section NameFacts.
Import World TileNames.
Local Open Scope Z_scope.

(** ** World file names *)

(** A string of decimal digits is one that reads as a number. *)
Lemma digits_read (n : Z) :
  option_map N.of_uint (DecimalString.NilEmpty.uint_of_string (digits n))
  = Some (Z.abs_N n).
Proof.
  unfold digits. set (u := N.to_uint (Z.abs_N n)).
  rewrite <- (DecimalN.Unsigned.of_to (Z.abs_N n)). fold u.
  destruct u; try reflexivity;
    unfold DecimalString.NilZero.string_of_uint;
    now rewrite DecimalString.NilEmpty.usu.
Qed.

Lemma zeros_read (k : nat) (s : string) :
  option_map N.of_uint (DecimalString.NilEmpty.uint_of_string (zeros k +:+ s))
  = option_map N.of_uint (DecimalString.NilEmpty.uint_of_string s).
Proof.
  induction k as [|k IH]; [reflexivity|].
  cbn [zeros]. change (String "0" (zeros k) +:+ s) with (String "0" (zeros k +:+ s)).
  cbn [DecimalString.NilEmpty.uint_of_string]. rewrite <- IH.
  now destruct (DecimalString.NilEmpty.uint_of_string (zeros k +:+ s)).
Qed.

Lemma read_tail (c : ascii) (s : string) :
  is_Some (DecimalString.NilEmpty.uint_of_string (String c s)) ->
  is_Some (DecimalString.NilEmpty.uint_of_string s)
  /\ c <> "+"%char /\ c <> "-"%char.
Proof.
  cbn [DecimalString.NilEmpty.uint_of_string].
  destruct (DecimalString.NilEmpty.uint_of_string s) as [u|].
  - intros H. split; [eauto|]. split; intros ->; destruct H; discriminate.
  - intros [? ?]. discriminate.
Qed.

(** Digits followed by a sign can be told apart from what comes after. *)
Lemma split_at_sign (b : string) :
  forall (b' : string) (c c' : ascii) (r r' : string),
  is_Some (DecimalString.NilEmpty.uint_of_string b) ->
  is_Some (DecimalString.NilEmpty.uint_of_string b') ->
  c = "+"%char \/ c = "-"%char -> c' = "+"%char \/ c' = "-"%char ->
  b +:+ String c r = b' +:+ String c' r' -> b = b' /\ c = c' /\ r = r'.
Proof.
  induction b as [|d b IH]; intros [|d' b'] c c' r r' Hb Hb' Hc Hc' H.
  - injection H as -> ->. auto.
  - injection H as -> _. apply read_tail in Hb' as (_ & ? & ?). tauto.
  - injection H as -> _. apply read_tail in Hb as (_ & ? & ?). tauto.
  - injection H as -> H. apply read_tail in Hb as [Hb _].
    apply read_tail in Hb' as [Hb' _].
    destruct (IH b' c c' r r' Hb Hb' Hc Hc' H) as (-> & -> & ->). auto.
Qed.

Lemma padded_reads (n : Z) (k : nat) :
  is_Some (DecimalString.NilEmpty.uint_of_string (zeros k +:+ digits n)).
Proof.
  pose proof (zeros_read k (digits n)) as H. rewrite digits_read in H.
  destruct (DecimalString.NilEmpty.uint_of_string (zeros k +:+ digits n));
    [eauto|discriminate].
Qed.

(** [format_plus07] as a sign character and a string of digits. *)
Lemma format_plus07_parts (n : Z) :
  exists (c : ascii) (b : string),
    (forall r, format_plus07 n +:+ r = String c (b +:+ r))
    /\ (c = "+"%char \/ c = "-"%char)
    /\ is_Some (DecimalString.NilEmpty.uint_of_string b)
    /\ (c = "-"%char <-> n < 0)
    /\ option_map N.of_uint (DecimalString.NilEmpty.uint_of_string b)
       = Some (Z.abs_N n).
Proof.
  unfold format_plus07.
  set (k := (7 - 1 - String.length (digits n))%nat).
  exists (if n <? 0 then "-"%char else "+"%char), (zeros k +:+ digits n).
  split; [|split; [|split; [|split]]].
  - intros r. destruct (n <? 0); reflexivity.
  - destruct (n <? 0); auto.
  - apply padded_reads.
  - destruct (Z.ltb_spec n 0); split; auto; try lia; discriminate.
  - rewrite zeros_read. apply digits_read.
Qed.

Lemma same_number (n m : Z) :
  (n < 0 <-> m < 0) -> Z.abs_N n = Z.abs_N m -> n = m.
Proof. lia. Qed.

Lemma get_w_file_name_inj (directory : string) (x1 z1 x2 z2 : Z) :
  get_w_file_name directory x1 z1 = get_w_file_name directory x2 z2 ->
  x1 = x2 /\ z1 = z2.
Proof.
  unfold get_w_file_name. intros H.
  apply path_join_inj in H; [|reflexivity..].
  injection H as H.
  destruct (format_plus07_parts x1) as (c1 & b1 & E1 & Hc1 & Hb1 & Hs1 & Hv1).
  destruct (format_plus07_parts x2) as (c2 & b2 & E2 & Hc2 & Hb2 & Hs2 & Hv2).
  destruct (format_plus07_parts z1) as (d1 & a1 & F1 & Hd1 & Ha1 & Ht1 & Hw1).
  destruct (format_plus07_parts z2) as (d2 & a2 & F2 & Hd2 & Ha2 & Ht2 & Hw2).
  rewrite E1, E2, F1, F2 in H. injection H as -> H.
  apply split_at_sign in H as (-> & -> & H); try assumption.
  apply string_app_inj_r in H as ->.
  split; apply same_number; try congruence; tauto.
Qed.

(** Two distinct tiles never share a world file name, however large their
    numbers: the sign of the second number marks where the first ends. *)
Theorem get_w_file_name_injective (directory : string) (x1 z1 x2 z2 : Z) :
  (x1, z1) <> (x2, z2) ->
  get_w_file_name directory x1 z1 <> get_w_file_name directory x2 z2.
Proof.
  intros Hne H. apply get_w_file_name_inj in H as [-> ->]. now apply Hne.
Qed.

Lemma get_w_file_name_injective_witness :
  get_w_file_name "route" 1234567 8 <> get_w_file_name "route" 123456 78.
Proof.
  apply (get_w_file_name_injective "route" 1234567 8 123456 78).
  intros H. inversion H.
Defined.

Example get_w_file_name_examples :
  get_w_file_name "route" (-5354) 14849 = "route/world/w-005354+014849.w"
  /\ get_w_file_name "route" 1234567 0 = "route/world/w+1234567+000000.w".
Proof. split; vm_compute; reflexivity. Qed.

(** ** Tile file names beyond the range *)

Lemma land_pow2_same (x x' i : Z) :
  0 <= i -> Z.testbit x i = Z.testbit x' i ->
  Z.land x (Z.shiftl 1 i) = Z.land x' (Z.shiftl 1 i).
Proof.
  intros Hi H. apply Z.bits_inj'. intros n Hn.
  rewrite !Z.land_spec, pow2_bit by exact Hi.
  destruct (Z.eqb_spec n i) as [->|]; [now rewrite H|now rewrite !andb_false_r].
Qed.

Lemma interleave_same (x z x' z' : Z) (l : list Z) :
  Forall (fun i => 0 <= i /\ Z.testbit x i = Z.testbit x' i
                   /\ Z.testbit z i = Z.testbit z' i) l ->
  forall acc, fold_left (interleave_step x z) l acc
              = fold_left (interleave_step x' z') l acc.
Proof.
  induction 1 as [|i l (Hi & Hx & Hz) _ IH]; intros acc; cbn [fold_left];
    [reflexivity|].
  rewrite IH. f_equal. unfold interleave_step.
  now rewrite (land_pow2_same x x' i Hi Hx), (land_pow2_same z z' i Hi Hz).
Qed.

Lemma low_bit_period (x a i : Z) :
  0 <= i < 15 -> Z.testbit (x + 32768 * a) i = Z.testbit x i.
Proof.
  intros Hi.
  rewrite <- (Z.mod_pow2_bits_low (x + 32768 * a) 15 i) by lia.
  rewrite <- (Z.mod_pow2_bits_low x 15 i) by lia.
  change (2 ^ 15) with 32768. f_equal.
  rewrite (Z.mul_comm 32768 a). apply Z_mod_plus_full.
Qed.

Lemma tile_idx_period (x z a b : Z) :
  tile_idx (x + 32768 * a) (z + 32768 * b) = tile_idx x z.
Proof.
  unfold tile_idx. f_equal. apply interleave_same.
  apply Forall_forall. intros i Hi.
  assert (Hr : 0 <= i < 15).
  { unfold range15 in Hi. apply list_elem_of_In in Hi. apply in_map_iff in Hi as (k & <- & Hk).
    apply in_seq in Hk. lia. }
  change (Z.shiftl 1 14) with 16384.
  replace (x + 32768 * a + 16384) with (x + 16384 + 32768 * a) by lia.
  replace (z + 32768 * b + 16384) with (z + 16384 + 32768 * b) by lia.
  split; [lia|].
  rewrite !Z.lnot_spec, !Z.lxor_spec, !low_bit_period by lia. auto.
Qed.

(** The tile file names only depend on the tile numbers modulo 2^15: tiles
    that lie a multiple of 32768 apart in either direction get the same
    pair of file names. *)
Theorem tile_file_names_repeat (directory : string) (x z a b : Z) :
  _tile_file_names directory (x + 32768 * a) (z + 32768 * b)
  = _tile_file_names directory x z.
Proof. unfold _tile_file_names. now rewrite tile_idx_period. Qed.

End NameFacts.

(** * Further properties of the structured text output *)

Section OutputFacts.
Import World.
Local Open Scope Z_scope.

Lemma string_app_assoc (a b c : string) : (a +:+ b) +:+ c = a +:+ (b +:+ c).
Proof.
  induction a as [|x a IH]; [reflexivity|].
  change (String x ((a +:+ b) +:+ c) = String x (a +:+ b +:+ c)). now f_equal.
Qed.

Lemma string_app_nil_r (a : string) : a +:+ "" = a.
Proof.
  induction a as [|x a IH]; [reflexivity|].
  change (String x (a +:+ "") = String x a). now f_equal.
Qed.

(** ** Closing the open parentheses *)

Lemma write_closing (path signature text : string) (k : Z) :
  0 < k ->
  STFOutput.write (STFOutput.make path signature (Some text) k) ")"
  = (Ok tt,
     STFOutput.make path signature
       (Some (text +:+ STFOutput.tabs (k - 1) +:+ ")"
                   +:+ String STFOutput.newline ""))
       (k - 1)).
Proof.
  intros Hk. unfold STFOutput.write.
  change (STFOutput.splitlines ")") with [")"%string].
  cbn [STFOutput.write_lines STFOutput._parentheses STFOutput.lstrip
       STFOutput._path STFOutput._signature STFOutput._file].
  change (STFOutput.is_space ")") with false. cbn iota.
  change (STFOutput.startswith ")" ")") with true. cbn iota.
  destruct (Z.ltb_spec (k - 1) 0) as [|_]; [lia|].
  change (STFOutput.count ")" "(" - STFOutput.count ")" ")") with (-1).
  change ("" +:+ ?s) with s.
  replace (k + -1) with (k - 1) by lia. reflexivity.
Qed.

Lemma close_rounds_closes (path signature : string) (rounds : nat) :
  forall text : string,
  STFOutput.close_rounds rounds
    (STFOutput.make path signature (Some text) (Z.of_nat rounds))
  = (Ok tt,
     STFOutput.make path signature (Some (text +:+ closing_lines rounds)) 0).
Proof.
  induction rounds as [|rounds IH]; intros text.
  - cbn. now rewrite string_app_nil_r.
  - cbn [STFOutput.close_rounds]. rewrite write_closing by lia.
    replace (Z.of_nat (S rounds) - 1) with (Z.of_nat rounds) by lia.
    rewrite IH. cbn [closing_lines]. now rewrite !string_app_assoc.
Qed.

(** With the file open, [close_parentheses] succeeds: it appends one line
    with a closing parenthesis for every parenthesis still open, the
    innermost indented deepest, and leaves the count at zero.  A count
    below zero stays as it is and nothing is written. *)
Theorem close_parentheses_closes_all (self : STFOutput.t) (text : string) :
  STFOutput._file self = Some text ->
  STFOutput.close_parentheses self
  = (Ok tt,
     STFOutput.make (STFOutput._path self) (STFOutput._signature self)
       (Some (text +:+ closing_lines (Z.to_nat (STFOutput._parentheses self))))
       (Z.min 0 (STFOutput._parentheses self))).
Proof.
  destruct self as [path signature file k]. cbn. intros ->.
  unfold STFOutput.close_parentheses. cbn [STFOutput._parentheses].
  destruct (Z.le_gt_cases 0 k) as [Hk|Hk].
  - rewrite <- (Z2Nat.id k) at 2 by exact Hk.
    rewrite close_rounds_closes. now rewrite Z.min_l by lia.
  - replace (Z.to_nat k) with 0%nat by lia. cbn.
    rewrite string_app_nil_r. now rewrite Z.min_r by lia.
Qed.

Lemma close_parentheses_closes_all_witness :
  STFOutput.close_parentheses
    (STFOutput.make "t.dat" "T0" (Some "a ( b (") 2)
  = (Ok tt,
     STFOutput.make "t.dat" "T0"
       (Some ("a ( b (" +:+ closing_lines (Z.to_nat 2))) (Z.min 0 2)).
Proof.
  apply (close_parentheses_closes_all
           (STFOutput.make "t.dat" "T0" (Some "a ( b (") 2) "a ( b (").
  reflexivity.
Defined.

(** ** Counting the parentheses *)

Lemma count_rev_app (s1 : string) (c : ascii) :
  forall s2 : string,
  STFOutput.count (String.rev_app s1 s2) c
  = STFOutput.count s1 c + STFOutput.count s2 c.
Proof.
  induction s1 as [|x s1 IH]; intros s2; cbn; [reflexivity|].
  rewrite IH. cbn. lia.
Qed.

Lemma count_rev (s : string) (c : ascii) :
  STFOutput.count (String.rev s) c = STFOutput.count s c.
Proof. unfold String.rev. rewrite count_rev_app. cbn. lia. Qed.

Lemma count_lstrip (s : string) (c : ascii) :
  STFOutput.is_space c = false ->
  STFOutput.count (STFOutput.lstrip s) c = STFOutput.count s c.
Proof.
  intros Hc. induction s as [|x s IH]; [reflexivity|].
  cbn [STFOutput.lstrip]. destruct (STFOutput.is_space x) eqn:Hx; [|reflexivity].
  rewrite IH. cbn [STFOutput.count]. destruct (Ascii.eqb_spec x c) as [->|]; [congruence|lia].
Qed.

Lemma count_skips (x c : ascii) (s : string) :
  STFOutput.is_linebreak x = true -> STFOutput.is_linebreak c = false ->
  STFOutput.count (String x s) c = STFOutput.count s c.
Proof.
  intros Hx Hc. cbn [STFOutput.count]. destruct (Ascii.eqb_spec x c) as [->|]; [congruence|lia].
Qed.

Lemma line_feed_is_linebreak (x : ascii) :
  (STFOutput.code x =? 10)%nat = true -> STFOutput.is_linebreak x = true.
Proof. intros H. unfold STFOutput.is_linebreak. cbn. now rewrite H. Qed.

(** The lines of a text hold every character of it that is not a line
    break. *)
Lemma splitlines_go_count (c : ascii) (content : string) :
  STFOutput.is_linebreak c = false ->
  forall (cur : string) (after_cr : bool),
  foldr Z.add 0 ((fun line => STFOutput.count line c)
                 <$> STFOutput.splitlines_go content cur after_cr)
  = STFOutput.count content c + STFOutput.count cur c.
Proof.
  intros Hc. induction content as [|x content IH]; intros cur after_cr.
  - cbn [STFOutput.splitlines_go]. destruct cur as [|y cur]; [reflexivity|].
    cbn [fmap list_fmap foldr]. rewrite count_rev. cbn. lia.
  - cbn [STFOutput.splitlines_go].
    destruct (after_cr && (STFOutput.code x =? 10)%nat) eqn:E1.
    + apply andb_true_iff in E1 as [_ E1].
      rewrite IH, count_skips by auto using line_feed_is_linebreak. reflexivity.
    + destruct (STFOutput.is_linebreak x) eqn:E2.
      * cbn [fmap list_fmap foldr]. change (list_fmap ?f ?l) with (f <$> l).
        rewrite IH, count_rev, count_skips by auto. cbn. lia.
      * rewrite IH. cbn. lia.
Qed.

Lemma write_lines_counts (lines : list string) :
  forall (parentheses : Z) (text : string),
  match STFOutput.write_lines lines parentheses text with
  | (Ok _, parentheses') =>
      parentheses'
      = parentheses
        + (foldr Z.add 0 ((fun line => STFOutput.count line "(") <$> lines)
           - foldr Z.add 0 ((fun line => STFOutput.count line ")") <$> lines))
  | (Raise _, _) => True
  end.
Proof.
  induction lines as [|line lines IH]; intros parentheses text.
  - cbn. lia.
  - cbn [STFOutput.write_lines].
    match goal with |- context [if ?b then (Raise _, _) else _] => destruct b end;
      [exact I|].
    match goal with |- context [STFOutput.write_lines lines ?p ?t] =>
      specialize (IH p t); destruct (STFOutput.write_lines lines p t) as [[out|e] p']
    end; [|exact I].
    rewrite IH. cbn [fmap list_fmap foldr].
    rewrite !count_lstrip by reflexivity.
    change (list_fmap ?f ?l) with (f <$> l). lia.
Qed.

(** A write that succeeds changes the count of open parentheses by the
    number of opening minus the number of closing parentheses in the whole
    text, and appends to the file.  A write that fails leaves the file as
    it was. *)
Theorem write_counts_parentheses (self : STFOutput.t) (content : string) :
  match STFOutput.write self content with
  | (Ok _, self') =>
      STFOutput._parentheses self'
      = STFOutput._parentheses self
        + (STFOutput.count content "(" - STFOutput.count content ")")
      /\ exists text added,
           STFOutput._file self = Some text
           /\ STFOutput._file self' = Some (text +:+ added)
  | (Raise _, self') => STFOutput._file self' = STFOutput._file self
  end.
Proof.
  unfold STFOutput.write.
  pose proof (write_lines_counts (STFOutput.splitlines content)
                (STFOutput._parentheses self) "") as H.
  destruct (STFOutput.write_lines _ _ _) as [[out|e] p']; [|reflexivity].
  destruct (STFOutput._file self) as [text|] eqn:E; cbn; [|reflexivity].
  split; [|eauto]. rewrite H. unfold STFOutput.splitlines.
  rewrite !splitlines_go_count by reflexivity. cbn. lia.
Qed.

End OutputFacts.
